(** * rmarsh: the generator and the parser of the Marshal 4.8 format

    A shallow embedding of the streaming generator (generator.go), of the
    streaming parser (parser.go) and of the reads of the decoder (decoder.go)
    of rmarsh, and the properties of the wire format that they are meant to
    keep.

    Conventions of the embedding.
    - A Go [int], [int64] or [byte] is a [Z]; conversions that can wrap
      ([byte(x)], shifts on [int], [n*2]) have their wrap-around written out.
      [int] is taken to be 64 bits wide, as on the platforms math/big uses
      64-bit words on.
    - A [[]byte] is a [list Z] of values in [0, 256); indexing and slicing
      panic out of range as in Go.
    - A Go [string] is a [string]; its bytes are [str_bytes].
    - A method on a pointer receiver is a function from the receiver's state
      to a result that carries the new state; a Go panic is the result
      [Panic]. *)

From Stdlib Require Import ZArith Lia String Ascii List.
From stdpp Require Import base tactics option list numbers strings.

Open Scope Z_scope.

(** ** Errors, panics and results *)

(** The error values of the package: the sentinels, and the errors built by
    [errors.New], [errors.Errorf] and [errors.Wrap]. The arguments of a
    format are kept as numbers (a [Token] by its value). *)
Inductive error : Type :=
| ErrUnexpectedEOF
| ErrGeneratorFinished
| ErrGeneratorOverflow
| ErrNew (msg : string)
| Errorf (format : string) (args : list Z)
| Wrap (e : error) (msg : string).

Inductive panic : Type :=
| IndexOutOfRange
| SliceOutOfRange
| NilDereference
| NegativeLen
| Explicit (msg : string).

Inductive res (S A : Type) : Type :=
| Ok (a : A) (s : S)
| Err (e : error) (s : S)
| Panic (why : panic).
Arguments Ok {S A} a s.
Arguments Err {S A} e s.
Arguments Panic {S A} why.

(** A method: state in, result and state out. *)
Definition M (S A : Type) : Type := S -> res S A.

Definition ret {S A} (a : A) : M S A := fun s => Ok a s.
Definition bind {S A B} (m : M S A) (k : A -> M S B) : M S B :=
  fun s => match m s with
           | Ok a s' => k a s'
           | Err e s' => Err e s'
           | Panic why => Panic why
           end.
Definition get {S} : M S S := fun s => Ok s s.
Definition put {S} (s : S) : M S unit := fun _ => Ok tt s.
Definition modify {S} (f : S -> S) : M S unit := fun s => Ok tt (f s).
Definition fail {S A} (e : error) : M S A := fun s => Err e s.
Definition throw {S A} (why : panic) : M S A := fun _ => Panic why.

Declare Scope go_scope.
Delimit Scope go_scope with go.
Notation "x <- m ;; k" := (bind m (fun x => k))
  (at level 100, m at next level, right associativity) : go_scope.
Notation "'let*' pat := m 'in' k" :=
  (bind m (fun x => match x with pat => k end))
  (at level 100, pat pattern, m at next level, right associativity) : go_scope.
Notation "m ;; k" := (bind m (fun _ => k))
  (at level 100, right associativity) : go_scope.
Open Scope go_scope.

(** ** Integers and slices *)

(** [byte(x)]: the low eight bits. *)
Definition byte (x : Z) : Z := x mod 256.

(** Two's complement wrap-around of a 64-bit [int]. *)
Definition wrap64 (x : Z) : Z := (x + 2 ^ 63) mod 2 ^ 64 - 2 ^ 63.

(** Two's complement wrap-around of an [int16]. *)
Definition wrap16 (x : Z) : Z := (x + 2 ^ 15) mod 2 ^ 16 - 2 ^ 15.

(** [x << s] on an [int], for a shift count [s >= 0]. *)
Definition shl64 (x s : Z) : Z := wrap64 (Z.shiftl x s).

(** [l[i]]: [None] is the index-out-of-range panic. *)
Definition index {A} (l : list A) (i : Z) : option A :=
  if decide (0 <= i) then l !! Z.to_nat i else None.

(** [l[i] = x]: [None] is the index-out-of-range panic. *)
Definition store {A} (l : list A) (i : Z) (x : A) : option (list A) :=
  if decide (0 <= i < Z.of_nat (length l)) then Some (<[Z.to_nat i := x]> l)
  else None.

(** [make([]T, n)] filled with the zero value [z]. *)
Definition make {A} (z : A) (n : Z) : option (list A) :=
  if decide (0 <= n) then Some (replicate (Z.to_nat n) z) else None.

(** The builtin [copy(dst, src)]: the first [min(len(dst), len(src))]
    elements of [dst] are overwritten. *)
Definition copy {A} (dst src : list A) : list A :=
  take (length dst) src ++ drop (length src) dst.

(** [copy(l[i:], src)] as seen on [l]; [None] when [l[i:]] is out of range. *)
Definition copy_at {A} (l : list A) (i : Z) (src : list A) : option (list A) :=
  if decide (0 <= i <= Z.of_nat (length l))
  then Some (take (Z.to_nat i) l ++ copy (drop (Z.to_nat i) l) src)
  else None.

Definition len {A} (l : list A) : Z := Z.of_nat (length l).

(** [l[b:e]]; [None] is the slice-bounds panic. *)
Definition slice {A} (l : list A) (b e : Z) : option (list A) :=
  if decide (0 <= b <= e /\ e <= len l)
  then Some (take (Z.to_nat (e - b)) (drop (Z.to_nat b) l))
  else None.

(** [l[:n]]; [None] is the slice-bounds panic. *)
Definition slice_to {A} (l : list A) (n : Z) : option (list A) :=
  if decide (0 <= n <= len l) then Some (take (Z.to_nat n) l) else None.

(** [l] with the elements from index [n] on overwritten by [xs]. *)
Definition splice {A} (l : list A) (n : nat) (xs : list A) : list A :=
  take n l ++ xs ++ drop (n + length xs) l.

(** The value of a little-endian sequence of bytes. *)
Fixpoint le_value (bs : list Z) : Z :=
  match bs with
  | [] => 0
  | b :: rest => b + 256 * le_value rest
  end.

(** The [k] lowest bytes of [n], least significant first. *)
Fixpoint le_bytes (k : nat) (n : Z) : list Z :=
  match k with
  | O => []
  | S k' => byte n :: le_bytes k' (Z.shiftr n 8)
  end.

(** The bytes of a Go string. *)
Definition str_bytes (s : string) : list Z :=
  map (fun a => Z.of_N (N_of_ascii a)) (list_ascii_of_string s).

(** ** The declarations of rmarsh.go *)

(** Modelled from the spec: the type tags of rmarsh.go ([TYPE_NIL] ... in the
    generator, [typeNil] ... in the parser), which is not among the sources;
    section 4.1 lists them as the characters of the Marshal format:
    0 T F i f l, the double quote, : ; [ { c m I and the at sign. *)
Definition TYPE_NIL : Z := 48.
Definition TYPE_TRUE : Z := 84.
Definition TYPE_FALSE : Z := 70.
Definition TYPE_FIXNUM : Z := 105.
Definition TYPE_FLOAT : Z := 102.
Definition TYPE_BIGNUM : Z := 108.
Definition TYPE_STRING : Z := 34.
Definition TYPE_SYMBOL : Z := 58.
Definition TYPE_SYMLINK : Z := 59.
Definition TYPE_ARRAY : Z := 91.
Definition TYPE_HASH : Z := 123.
Definition TYPE_CLASS : Z := 99.
Definition TYPE_MODULE : Z := 109.
Definition TYPE_IVAR : Z := 73.
Definition TYPE_LINK : Z := 64.

(** Modelled from the spec: [fixnumMin], [fixnumMax] and [fixnumMaxBytes] of
    rmarsh.go, which is not among the sources. Section 3: the packed long
    range, [-2^31, 2^31-1], defines the fixnum range, and a packed long takes
    1 to 5 bytes. *)
Definition fixnumMin : Z := - 2 ^ 31.
Definition fixnumMax : Z := 2 ^ 31 - 1.
Definition fixnumMaxBytes : Z := 5.

(** Modelled from the spec: [_S] of rmarsh.go, the size in bytes of a
    [big.Word]; section 2 counts the bignum word size among the wire
    primitives. On the 64-bit platforms assumed here a word has 8 bytes. *)
Definition _S : Z := 8.

(** ** The packed long of the wire format

    Section 3 of the spec, as functions on bytes: what an encoder that picks
    the shortest form has to write, and what a decoder has to read. The code
    is compared with them further down. *)

(** The least number of payload bytes, 1 to 4, that determine [n]. *)
Definition payload_len (n : Z) : nat :=
  if decide (- 2 ^ 8 <= n < 2 ^ 8) then 1%nat
  else if decide (- 2 ^ 16 <= n < 2 ^ 16) then 2%nat
  else if decide (- 2 ^ 24 <= n < 2 ^ 24) then 3%nat
  else 4%nat.

Definition packed_long (n : Z) : list Z :=
  if decide (n = 0) then [0]
  else if decide (0 < n < 123) then [n + 5]
  else if decide (-124 < n < 0) then [256 + (n - 5)]
  else if decide (0 < n) then
    Z.of_nat (payload_len n) :: le_bytes (payload_len n) n
  else (256 - Z.of_nat (payload_len n)) :: le_bytes (payload_len n) n.

(** A byte read as an [int8]. *)
Definition int8 (b : Z) : Z := if decide (b < 128) then b else b - 256.

(** The value and the number of bytes consumed; [None] when the input is
    shorter than the form its first byte declares. *)
Definition decode_packed_long (bs : list Z) : option (Z * Z) :=
  match bs with
  | [] => None
  | b :: rest =>
      let c := int8 b in
      if decide (c = 0) then Some (0, 1)
      else if decide (5 <= c) then Some (c - 5, 1)
      else if decide (c <= -5) then Some (c + 5, 1)
      else if decide (0 < c) then
        if decide (len rest < c) then None
        else Some (le_value (take (Z.to_nat c) rest), 1 + c)
      else
        if decide (len rest < - c) then None
        else Some (le_value (take (Z.to_nat (- c)) rest) - 256 ^ (- c), 1 - c)
  end.

(** The lists that are sequences of bytes. *)
Definition bytes_ok (bs : list Z) : Prop := Forall (fun x => 0 <= x < 256) bs.

(** ** generator.go *)

Module generator.

Definition genStateGrowSize : Z := 8.

Definition genStTop : Z := 0.
Definition genStArr : Z := 1.
Definition genStHash : Z := 2.

Record genStateItem : Type := GenStateItem { cnt : Z; pos : Z; typ : Z }.

(** [cur] always points at [stack[sz-1]] ([push] and [pop] keep it there) and
    is nil when [sz] is 0: the model reads and writes that slot. *)
Record genState : Type := GenState { stack : list genStateItem; sz : Z }.

(** [w] is the sink, modelled as the bytes it has received: [Write] appends
    and does not fail. *)
Record Generator : Type := mkGenerator {
  w : list Z;
  c : Z;
  st : genState;
  buf : list Z;
  bufn : Z;
  symCount : Z;
  symTbl : list string
}.

Definition G (A : Type) : Type := M Generator A.

Definition set_w (x : list Z) (g : Generator) : Generator :=
  mkGenerator x (c g) (st g) (buf g) (bufn g) (symCount g) (symTbl g).
Definition set_c (x : Z) (g : Generator) : Generator :=
  mkGenerator (w g) x (st g) (buf g) (bufn g) (symCount g) (symTbl g).
Definition set_st (x : genState) (g : Generator) : Generator :=
  mkGenerator (w g) (c g) x (buf g) (bufn g) (symCount g) (symTbl g).
Definition set_buf (x : list Z) (g : Generator) : Generator :=
  mkGenerator (w g) (c g) (st g) x (bufn g) (symCount g) (symTbl g).
Definition set_bufn (x : Z) (g : Generator) : Generator :=
  mkGenerator (w g) (c g) (st g) (buf g) x (symCount g) (symTbl g).
Definition set_symCount (x : Z) (g : Generator) : Generator :=
  mkGenerator (w g) (c g) (st g) (buf g) (bufn g) x (symTbl g).
Definition set_symTbl (x : list string) (g : Generator) : Generator :=
  mkGenerator (w g) (c g) (st g) (buf g) (bufn g) (symCount g) x.

(** [*st.cur] *)
Definition cur (s : genState) : option genStateItem :=
  if decide (sz s = 0) then None else index (stack s) (sz s - 1).

Definition getCur : G genStateItem :=
  fun g => match cur (st g) with
           | Some it => Ok it g
           | None => Panic NilDereference
           end.

(** [*st.cur = it] *)
Definition setCur (it : genStateItem) : G unit :=
  fun g => if decide (sz (st g) = 0) then Panic NilDereference
           else match store (stack (st g)) (sz (st g) - 1) it with
                | Some stk => Ok tt (set_st (GenState stk (sz (st g))) g)
                | None => Panic NilDereference
                end.

(** [gen.buf[i] = b] *)
Definition setBuf (i b : Z) : G unit :=
  fun g => match store (buf g) i b with
           | Some bs => Ok tt (set_buf bs g)
           | None => Panic IndexOutOfRange
           end.

(** [gen.bufn += k] *)
Definition addBufn (k : Z) : G unit := modify (fun g => set_bufn (bufn g + k) g).

(** [gen.buf[gen.bufn] = b; gen.bufn++] *)
Definition putByte (b : Z) : G unit :=
  g <- get ;; setBuf (bufn g) b ;; addBufn 1.

(** [copy(gen.buf[gen.bufn:], s); gen.bufn += len(s)] *)
Definition putString (s : list Z) : G unit :=
  fun g => match copy_at (buf g) (bufn g) s with
           | Some bs => Ok tt (set_bufn (bufn g + len s) (set_buf bs g))
           | None => Panic SliceOutOfRange
           end.

Definition push_state (typ cnt : Z) (s : genState) : option genState :=
  let stk := if decide (sz s = len (stack s))
             then copy (replicate (Z.to_nat (sz s + genStateGrowSize))
                                  (GenStateItem 0 0 0)) (stack s)
             else stack s in
  match store stk (sz s) (GenStateItem cnt 0 typ) with
  | Some stk' => Some (GenState stk' (sz s + 1))
  | None => None
  end.

(** [st.push(typ, cnt)] *)
Definition push (typ cnt : Z) : G unit :=
  fun g => match push_state typ cnt (st g) with
           | Some s => Ok tt (set_st s g)
           | None => Panic IndexOutOfRange
           end.

(** [st.pop()]: the slot [cur] is left at is checked here, where Go would
    take its address. *)
Definition pop : G unit :=
  fun g => let n := sz (st g) - 1 in
           if decide (0 < n) then
             match index (stack (st g)) (n - 1) with
             | Some _ => Ok tt (set_st (GenState (stack (st g)) n) g)
             | None => Panic IndexOutOfRange
             end
           else Ok tt (set_st (GenState (stack (st g)) n) g).

(** [st.reset()] *)
Definition reset_state : G unit :=
  modify (fun g => set_st (GenState (stack (st g)) 0) g) ;; push genStTop 1.

Definition Reset : G unit :=
  reset_state ;;
  modify (set_c 0) ;;
  modify (set_symCount 0) ;;
  setBuf 0 4 ;;
  setBuf 1 8 ;;
  modify (set_bufn 2).

(** [NewGenerator(w)], for a sink that has received nothing yet. *)
Definition zeroGenerator : Generator :=
  mkGenerator [] 0 (GenState [] 0) (replicate 128 0) 0 0 [].

Definition NewGenerator : res Generator unit := Reset zeroGenerator.

Definition checkState (size : Z) : G unit :=
  it <- getCur ;;
  g <- get ;;
  if decide (pos it = cnt it) then
    if decide (sz (st g) = 1) then fail ErrGeneratorFinished
    else fail ErrGeneratorOverflow
  else if decide (len (buf g) < bufn g + size) then
    match make 0 (bufn g + size) with
    | Some newBuf =>
        put (set_buf (if decide (0 < bufn g) then copy newBuf (buf g)
                      else newBuf) g)
    | None => throw NegativeLen
    end
  else ret tt.

Definition writeAdv : G unit :=
  it <- getCur ;;
  setCur (GenStateItem (cnt it) (pos it + 1) (typ it)) ;;
  it' <- getCur ;;
  g <- get ;;
  if decide (0 < bufn g /\ pos it' = cnt it' /\ sz (st g) = 1) then
    match slice_to (buf g) (bufn g) with
    | Some bs => put (set_bufn 0 (set_c (c g + bufn g) (set_w (w g ++ bs) g)))
    | None => throw SliceOutOfRange
    end
  else ret tt.

(** The loop of [encodeLong], with [k] iterations left. *)
Fixpoint encodeLong_loop (k : nat) (i n : Z) : G unit :=
  match k with
  | O => throw (Explicit "Shouldn't *ever* reach here")
  | S k' =>
      g <- get ;;
      setBuf (bufn g + i) (byte (Z.land n 255)) ;;
      let n' := Z.shiftr n 8 in
      if decide (n' = 0) then setBuf (bufn g) (byte i) ;; addBufn (i + 1)
      else if decide (n' = -1) then setBuf (bufn g) (byte (- i)) ;; addBufn (i + 1)
      else encodeLong_loop k' (i + 1) n'
  end.

Definition encodeLong (n : Z) : G unit :=
  if decide (n = 0) then putByte 0
  else if decide (0 < n /\ n < 123) then putByte (byte (n + 5))
  else if decide (-124 < n /\ n < 0) then putByte (byte (Z.land (n - 5) 255))
  else encodeLong_loop 4 1 n.

Definition Nil : G unit :=
  checkState 1 ;; putByte TYPE_NIL ;; writeAdv.

Definition Bool (b : bool) : G unit :=
  checkState 1 ;; putByte (if b then TYPE_TRUE else TYPE_FALSE) ;; writeAdv.

(** *** Bignum

    A [*big.Int] is a [Z]: [Bits] are the words of its absolute value, least
    significant first and without leading zero words, and [Sign] its sign. *)

Definition wordBase : Z := 2 ^ (8 * _S).

Fixpoint words_of (k : nat) (m : Z) : list Z :=
  match k with
  | O => []
  | S k' => if decide (m = 0) then []
            else m mod wordBase :: words_of k' (m / wordBase)
  end.

Definition Bits (b : Z) : list Z :=
  words_of (S (Z.to_nat (Z.log2 (Z.abs b)))) (Z.abs b).

(** The inner loop of the size computation on one word [d], with [k]
    iterations left; [last] is [i == l-1]. *)
Fixpoint size_word (k : nat) (last : bool) (d : Z) : Z :=
  match k with
  | O => 0
  | S k' => let d' := Z.shiftr d 8 in
            if decide (d' = 0 /\ last = true) then 1
            else 1 + size_word k' last d'
  end.

(** [for i, d := range bits], from index [i] on, [l = len(bits)]. *)
Fixpoint size_words (i l : Z) (bits : list Z) : Z :=
  match bits with
  | [] => 0
  | d :: rest =>
      size_word (Z.to_nat _S) (bool_decide (i = l - 1)) d
      + size_words (i + 1) l rest
  end.

(** The inner loop of the emission of one word; the result is the number of
    bytes written. *)
Fixpoint put_word (k : nat) (last : bool) (d : Z) : G Z :=
  match k with
  | O => ret 0
  | S k' =>
      putByte (byte d) ;;
      let d' := Z.shiftr d 8 in
      if decide (d' = 0 /\ last = true) then ret 1
      else (n <- put_word k' last d' ;; ret (1 + n))
  end.

Fixpoint put_words (i l : Z) (bits : list Z) : G Z :=
  match bits with
  | [] => ret 0
  | d :: rest =>
      n <- put_word (Z.to_nat _S) (bool_decide (i = l - 1)) d ;;
      m <- put_words (i + 1) l rest ;;
      ret (n + m)
  end.

(** [for w < sz { gen.buf[gen.bufn] = 0; gen.bufn++; w++ }] *)
Fixpoint put_pad (k : nat) : G unit :=
  match k with
  | O => ret tt
  | S k' => putByte 0 ;; put_pad k'
  end.

(** [math.Ceil(float64(sz) / 2)] is computed on floats; it is exact for the
    sizes a buffer can have. *)
Definition Bignum (b : Z) : G unit :=
  let bits := Bits b in
  let l := len bits in
  let sz0 := size_words 0 l bits in
  let sz := if decide (Z.land sz0 1 = 1) then sz0 + 1 else sz0 in
  checkState (2 + fixnumMaxBytes + sz) ;;
  putByte TYPE_BIGNUM ;;
  putByte (if decide (b < 0) then 45 else 43) ;;
  encodeLong ((sz + 1) / 2) ;;
  wr <- put_words 0 l bits ;;
  put_pad (Z.to_nat (sz - wr)) ;;
  writeAdv.

Definition Fixnum (n : Z) : G unit :=
  if decide (n < fixnumMin \/ n > fixnumMax) then Bignum n
  else
    checkState (fixnumMaxBytes + 1) ;;
    putByte TYPE_FIXNUM ;;
    encodeLong n ;;
    writeAdv.

Definition String (str : string) : G unit :=
  let l := len (str_bytes str) in
  checkState (1 + fixnumMaxBytes + l) ;;
  putByte TYPE_STRING ;;
  encodeLong l ;;
  putString (str_bytes str) ;;
  writeAdv.

(** [strconv.AppendFloat] is not modelled: [Float] takes its output [txt],
    which is appended into [gen.buf] from [gen.bufn+1] on when the capacity
    allows (it does, for the at most 30 bytes of a float). *)
Definition Float (txt : list Z) : G unit :=
  checkState (1 + 1 + 30) ;;
  putByte TYPE_FLOAT ;;
  g <- get ;;
  (if decide (bufn g + 1 <= len (buf g)) then
     if decide (bufn g + 1 + len txt <= len (buf g)) then
       match copy_at (buf g) (bufn g + 1) txt with
       | Some bs => put (set_buf bs g)
       | None => throw SliceOutOfRange
       end
     else ret tt
   else throw SliceOutOfRange) ;;
  encodeLong (len txt) ;;
  addBufn (len txt) ;;
  writeAdv.

Definition StartArray (l : Z) : G unit :=
  checkState (1 + fixnumMaxBytes) ;;
  putByte TYPE_ARRAY ;;
  encodeLong l ;;
  push genStArr l.

Definition EndArray : G unit :=
  g <- get ;;
  if decide (sz (st g) = 0) then
    fail (ErrNew "EndArray() called outside of context of array")
  else
    it <- getCur ;;
    if decide (typ it <> genStArr) then
      fail (ErrNew "EndArray() called outside of context of array")
    else if decide (pos it <> cnt it) then
      fail (Errorf "EndArray() called prematurely, %d of %d elems written"
                   [pos it; cnt it])
    else pop ;; writeAdv.

Definition StartHash (l : Z) : G unit :=
  checkState (1 + fixnumMaxBytes) ;;
  putByte TYPE_HASH ;;
  encodeLong l ;;
  push genStHash (wrap64 (l * 2)).

Definition EndHash : G unit :=
  g <- get ;;
  if decide (sz (st g) = 0) then
    fail (ErrNew "EndHash() called outside of context of hash")
  else
    it <- getCur ;;
    if decide (typ it <> genStHash) then
      fail (ErrNew "EndHash() called outside of context of hash")
    else if decide (pos it <> cnt it) then
      fail (Errorf "EndHash() called prematurely, %d of %d elems written"
                   [pos it; cnt it])
    else pop ;; writeAdv.

Definition Class (name : string) : G unit :=
  let l := len (str_bytes name) in
  checkState (1 + fixnumMaxBytes + l) ;;
  putByte TYPE_CLASS ;;
  encodeLong l ;;
  putString (str_bytes name) ;;
  writeAdv.

Definition Module' (name : string) : G unit :=
  let l := len (str_bytes name) in
  checkState (1 + fixnumMaxBytes + l) ;;
  putByte TYPE_MODULE ;;
  encodeLong l ;;
  putString (str_bytes name) ;;
  writeAdv.

(** *** Symbol

    [symTblGrowSize] is declared in rmarsh.go, which is not among the
    sources: the table grows by that many slots. *)
Section Symbols.
Variable symTblGrowSize : Z.

(** The scan of the table from slot [i] on, with [k] slots left; [miss] is
    what follows the loop. *)
Fixpoint Symbol_scan (k : nat) (i : Z) (sym : string) (miss : G unit) : G unit :=
  match k with
  | O => miss
  | S k' =>
      g <- get ;;
      match index (symTbl g) i with
      | None => throw IndexOutOfRange
      | Some s =>
          if decide (s = sym) then
            checkState (1 + fixnumMaxBytes) ;;
            putByte TYPE_SYMLINK ;;
            encodeLong i ;;
            writeAdv
          else Symbol_scan k' (i + 1) sym miss
      end
  end.

Definition Symbol_grow : G unit :=
  g <- get ;;
  let l := len (symTbl g) in
  if decide (l = 0 \/ l = symCount g) then
    match make EmptyString (l + symTblGrowSize) with
    | Some newTbl => put (set_symTbl (copy newTbl (symTbl g)) g)
    | None => throw NegativeLen
    end
  else ret tt.

Definition Symbol_new (sym : string) : G unit :=
  let l := len (str_bytes sym) in
  checkState (1 + fixnumMaxBytes + l) ;;
  putByte TYPE_SYMBOL ;;
  encodeLong l ;;
  putString (str_bytes sym) ;;
  g <- get ;;
  match store (symTbl g) (symCount g) sym with
  | Some tbl => put (set_symCount (symCount g + 1) (set_symTbl tbl g))
  | None => throw IndexOutOfRange
  end ;;
  writeAdv.

Definition Symbol (sym : string) : G unit :=
  Symbol_grow ;;
  g <- get ;;
  Symbol_scan (Z.to_nat (symCount g)) 0 sym (Symbol_new sym).

End Symbols.

(** Everything the generator has emitted: what the sink received and what
    waits in the scratch buffer. *)
Definition emitted (g : Generator) : list Z :=
  w g ++ take (Z.to_nat (bufn g)) (buf g).

(** What the loop of [encodeLong] writes, with [k] iterations left: the
    length byte and the payload. *)
Fixpoint loop_bytes (k : nat) (i n : Z) : option (Z * list Z) :=
  match k with
  | O => None
  | S k' =>
      let b := byte (Z.land n 255) in
      let n' := Z.shiftr n 8 in
      if decide (n' = 0) then Some (byte i, [b])
      else if decide (n' = -1) then Some (byte (- i), [b])
      else match loop_bytes k' (i + 1) n' with
           | Some (c, bs) => Some (c, b :: bs)
           | None => None
           end
  end.

(** The strings of the symbol table, oldest first. *)
Definition symbols (g : Generator) : list string :=
  take (Z.to_nat (symCount g)) (symTbl g).

(** The states the methods keep the generator in: the stack has the frame of
    the top level at its bottom and frames of arrays and hashes above it, and
    the write positions are inside the buffer and the symbol table. *)
Definition frames_ok (stk : list genStateItem) (n : Z) : Prop :=
  forall i x, 0 <= i < n -> index stk i = Some x -> (typ x = genStTop <-> i = 0).

Definition wf (g : Generator) : Prop :=
  1 <= sz (st g) <= len (stack (st g)) /\
  frames_ok (stack (st g)) (sz (st g)) /\
  0 <= bufn g <= len (buf g) /\
  0 <= symCount g <= len (symTbl g).

(** [g'] is [g] with the bytes [bs] added to the scratch buffer. *)
Definition appends (g g' : Generator) (bs : list Z) : Prop :=
  w g' = w g /\ c g' = c g /\ st g' = st g /\
  symCount g' = symCount g /\ symTbl g' = symTbl g /\
  bufn g' = bufn g + len bs /\
len (buf g) <= len (buf g') /\
  take (Z.to_nat (bufn g')) (buf g') = take (Z.to_nat (bufn g)) (buf g) ++ bs.

(** The calls that write a value. *)
Inductive call : Type :=
| CNil
| CBool (b : bool)
| CFixnum (n : Z)
| CBignum (b : Z)
| CSymbol (sym : string)
| CString (str : string)
| CFloat (txt : list Z)
| CStartArray (l : Z)
| CStartHash (l : Z)
| CClass (name : string)
| CModule (name : string).

Definition write (symTblGrowSize : Z) (x : call) : G unit :=
  match x with
  | CNil => Nil
  | CBool b => Bool b
  | CFixnum n => Fixnum n
  | CBignum b => Bignum b
  | CSymbol sym => Symbol symTblGrowSize sym
  | CString str => String str
  | CFloat txt => Float txt
  | CStartArray l => StartArray l
  | CStartHash l => StartHash l
  | CClass name => Class name
  | CModule name => Module' name
  end.

(** *** The symbol table of the wire format

    Section 3 of the spec: a symbol gets the next id, from 0 on, when it first
    appears, and later occurrences are symlinks that carry that id. [tbl] are
    the symbols seen so far, in the order of their first appearance. *)
Definition symbol_id (tbl : list string) (s : string) : option Z :=
  match list_find (fun t => t = s) tbl with
  | Some (i, _) => Some (Z.of_nat i)
  | None => None
  end.

Definition symbol_wire (tbl : list string) (s : string) : list Z :=
  match symbol_id tbl s with
  | Some id => TYPE_SYMLINK :: packed_long id
  | None => TYPE_SYMBOL :: packed_long (len (str_bytes s)) ++ str_bytes s
  end.

Definition symbol_seen (tbl : list string) (s : string) : list string :=
  match symbol_id tbl s with
  | Some _ => tbl
  | None => tbl ++ [s]
  end.

Fixpoint symbols_wire (tbl : list string) (l : list string) : list Z :=
  match l with
  | [] => []
  | s :: rest => symbol_wire tbl s ++ symbols_wire (symbol_seen tbl s) rest
  end.

(** The check of [wf] by computation. *)
Fixpoint frames_okb (i : Z) (stk : list genStateItem) (k : nat) : bool :=
  match k, stk with
  | S k', x :: rest =>
      bool_decide (typ x = genStTop <-> i = 0) && frames_okb (i + 1) rest k'
  | _, _ => true
  end.

Definition wfb (g : Generator) : bool :=
  bool_decide (1 <= sz (st g) <= len (stack (st g))) &&
  frames_okb 0 (stack (st g)) (Z.to_nat (sz (st g))) &&
  bool_decide (0 <= bufn g <= len (buf g)) &&
  bool_decide (0 <= symCount g <= len (symTbl g)).

(** A method run on the result of the call before it. *)
Definition and_then {A} (r : res Generator unit) (m : G A) : res Generator A :=
  match r with
  | Ok _ g => m g
  | Err e g => Err e g
  | Panic why => Panic why
  end.

Definition sink {A} (r : res Generator A) : option (list Z) :=
  match r with
  | Ok _ g => Some (w g)
  | _ => None
  end.

(** The calls the encoder makes for an array of the symbols [l], on a new
    generator. *)
Fixpoint Symbols (grow : Z) (l : list string) : G unit :=
  match l with
  | [] => ret tt
  | s :: rest => Symbol grow s ;; Symbols grow rest
  end.

Definition symbol_array (grow : Z) (l : list string) : res Generator unit :=
  and_then NewGenerator (StartArray (len l) ;; Symbols grow l ;; EndArray).


(** A generator inside an array of no elements, whose frame is full from the
    start. *)
Definition in_empty_array : Generator :=
  Eval vm_compute in
    match and_then NewGenerator (StartArray 0) with
    | Ok _ g => g
    | _ => zeroGenerator
    end.

(** A generator whose stream is complete. *)
Definition finished : Generator :=
  Eval vm_compute in
    match and_then NewGenerator Nil with
    | Ok _ g => g
    | _ => zeroGenerator
    end.

(** *** The bytes of a bignum

    What the two loops of [Bignum] over the words write, as a function, and
    what is asked of it. *)

Fixpoint word_bytes (k : nat) (last : bool) (d : Z) : list Z :=
  match k with
  | O => []
  | S k' =>
      byte d :: (if decide (Z.shiftr d 8 = 0 /\ last = true) then []
                 else word_bytes k' last (Z.shiftr d 8))
  end.

Fixpoint words_bytes (i l : Z) (bits : list Z) : list Z :=
  match bits with
  | [] => []
  | d :: rest =>
      word_bytes (Z.to_nat _S) (bool_decide (i = l - 1)) d
      ++ words_bytes (i + 1) l rest
  end.

(** [bs] are the bytes of [m], least significant first, without a zero byte
    at the end. *)
Definition min_le_bytes (bs : list Z) (m : Z) : Prop :=
  Forall (fun x => 0 <= x < 256) bs /\ le_value bs = m /\ last bs <> Some 0.

Fixpoint words_value (ws : list Z) : Z :=
  match ws with
  | [] => 0
  | d :: rest => d + wordBase * words_value rest
  end.

(** The sign byte and the zero byte that makes the number of bytes even. *)
Definition bignum_sign (b : Z) : Z := if decide (b < 0) then 45 else 43.

Definition even_pad (core : list Z) : list Z :=
  if decide (len core mod 2 = 1) then [0] else [].


(** *** Values

    What a complete value leaves behind, and the values a client can write
    with the calls of the generator. *)

(** The stack with the position of the current frame [it] advanced. *)
Definition advance (it : genStateItem) (s : genState) : genState :=
  GenState (<[Z.to_nat (sz s - 1) :=
               GenStateItem (cnt it) (pos it + 1) (typ it)]> (stack s)) (sz s).

(** [g'] is [g] after a complete value with the bytes [bs] was written into
    the current frame [it]: the bytes are emitted, the frame has advanced,
    and the sink has received everything if that completed the stream and
    nothing otherwise. *)
Definition wrote_value (g g' : Generator) (it : genStateItem) (bs : list Z)
  : Prop :=
  emitted g' = emitted g ++ bs /\
  (sz (st g') = sz (st g) /\
   cur (st g') = Some (GenStateItem (cnt it) (pos it + 1) (typ it)) /\
   forall i, 0 <= i < sz (st g) - 1 ->
             index (stack (st g')) i = index (stack (st g)) i) /\
  (pos it + 1 = cnt it -> sz (st g) = 1 -> w g' = emitted g') /\
  (sz (st g) <> 1 -> w g' = w g) /\
  wf g'.

Definition bignum_payload (b : Z) : list Z :=
  let core := words_bytes 0 (len (Bits b)) (Bits b) in core ++ even_pad core.

Definition bignum_wire (b : Z) : list Z :=
  TYPE_BIGNUM :: bignum_sign b ::
  packed_long (len (bignum_payload b) / 2) ++ bignum_payload b.


(** A value as a client writes it: a call that writes a scalar, or the calls
    for an array or a hash around the values in it. *)
#[local] Unset Elimination Schemes.
Inductive value : Type :=
| Leaf (x : call)
| Array (vs : list value)
| Hash (kvs : list (value * value)).
#[local] Set Elimination Schemes.

(** Induction on a value, with the property at hand for the values inside an
    array or a hash. *)
Fixpoint value_ind (P : value -> Prop)
    (HL : forall x, P (Leaf x))
    (HA : forall vs, Forall P vs -> P (Array vs))
    (HH : forall kvs, Forall (fun kx => P (fst kx) /\ P (snd kx)) kvs ->
                      P (Hash kvs))
    (v : value) : P v :=
  match v with
  | Leaf x => HL x
  | Array vs =>
      HA vs ((fix go (l : list value) : Forall P l :=
                match l with
                | [] => @List.Forall_nil _ P
                | x :: r => @List.Forall_cons _ P x r (value_ind P HL HA HH x) (go r)
                end) vs)
  | Hash kvs =>
      HH kvs ((fix go (l : list (value * value))
                 : Forall (fun kx => P (fst kx) /\ P (snd kx)) l :=
                 match l with
                 | [] => @List.Forall_nil _ _
                 | kx :: r =>
                     @List.Forall_cons _ _ kx r
                       (conj (value_ind P HL HA HH (fst kx))
                             (value_ind P HL HA HH (snd kx)))
                       (go r)
                 end) kvs)
  end.

Section Values.
Variable symTblGrowSize : Z.

Fixpoint write_value (v : value) : G unit :=
  match v with
  | Leaf x => write symTblGrowSize x
  | Array vs =>
      StartArray (len vs) ;;
      (fix go (l : list value) : G unit :=
         match l with
         | [] => ret tt
         | x :: r => write_value x ;; go r
         end) vs ;;
      EndArray
  | Hash kvs =>
      StartHash (len kvs) ;;
      (fix go (l : list (value * value)) : G unit :=
         match l with
         | [] => ret tt
         | (k, x) :: r => write_value k ;; write_value x ;; go r
         end) kvs ;;
      EndHash
  end.

Fixpoint write_values (l : list value) : G unit :=
  match l with
  | [] => ret tt
  | x :: r => write_value x ;; write_values r
  end.

End Values.

(** The bytes of a call that writes a scalar, and the symbol table after
    it. *)
Definition call_wire (tbl : list string) (x : call) : list Z :=
  match x with
  | CNil => [TYPE_NIL]
  | CBool b => [if b then TYPE_TRUE else TYPE_FALSE]
  | CFixnum n =>
      if decide (n < fixnumMin \/ n > fixnumMax) then bignum_wire n
      else TYPE_FIXNUM :: packed_long n
  | CBignum b => bignum_wire b
  | CSymbol sym => symbol_wire tbl sym
  | CString str => TYPE_STRING :: packed_long (len (str_bytes str)) ++ str_bytes str
  | CFloat txt => TYPE_FLOAT :: packed_long (len txt) ++ txt
  | CStartArray l => TYPE_ARRAY :: packed_long l
  | CStartHash l => TYPE_HASH :: packed_long l
  | CClass name => TYPE_CLASS :: packed_long (len (str_bytes name)) ++ str_bytes name
  | CModule name => TYPE_MODULE :: packed_long (len (str_bytes name)) ++ str_bytes name
  end.

Definition call_seen (tbl : list string) (x : call) : list string :=
  match x with
  | CSymbol sym => symbol_seen tbl sym
  | _ => tbl
  end.

(** The scalars within the bounds of the format: an integer of 64 bits, a
    bignum of fewer than [2^28] words, a float text of at most 30 bytes, a
    string of fewer than [2^31] bytes. *)
Definition scalar_ok (x : call) : Prop :=
  match x with
  | CNil | CBool _ => True
  | CFixnum n => - 2 ^ 63 <= n < 2 ^ 63
  | CBignum b => len (Bits b) < 2 ^ 28
  | CSymbol s | CString s | CClass s | CModule s => len (str_bytes s) < 2 ^ 31
  | CFloat txt => len txt <= 30
  | CStartArray _ | CStartHash _ => False
  end.

Fixpoint value_wire (tbl : list string) (v : value) : list Z * list string :=
  match v with
  | Leaf x => (call_wire tbl x, call_seen tbl x)
  | Array vs =>
      let '(bs, tbl') :=
        (fix go (tbl : list string) (l : list value) : list Z * list string :=
           match l with
           | [] => ([], tbl)
           | x :: r =>
               let '(b1, t1) := value_wire tbl x in
               let '(b2, t2) := go t1 r in (b1 ++ b2, t2)
           end) tbl vs in
      (TYPE_ARRAY :: packed_long (len vs) ++ bs, tbl')
  | Hash kvs =>
      let '(bs, tbl') :=
        (fix go (tbl : list string) (l : list (value * value))
           : list Z * list string :=
           match l with
           | [] => ([], tbl)
           | (k, x) :: r =>
               let '(b1, t1) := value_wire tbl k in
               let '(b2, t2) := value_wire t1 x in
               let '(b3, t3) := go t2 r in (b1 ++ b2 ++ b3, t3)
           end) tbl kvs in
      (TYPE_HASH :: packed_long (len kvs) ++ bs, tbl')
  end.

Fixpoint values_wire (tbl : list string) (l : list value)
  : list Z * list string :=
  match l with
  | [] => ([], tbl)
  | x :: r =>
      let '(b1, t1) := value_wire tbl x in
      let '(b2, t2) := values_wire t1 r in (b1 ++ b2, t2)
  end.

(** The number of scalars in a value. *)
Fixpoint leaves (v : value) : Z :=
  match v with
  | Leaf _ => 1
  | Array vs => fold_right (fun x n => leaves x + n) 0 vs
  | Hash kvs => fold_right (fun kx n => leaves (fst kx) + leaves (snd kx) + n) 0 kvs
  end.

#[local] Unset Elimination Schemes.
Inductive value_ok : value -> Prop :=
| Leaf_ok x : scalar_ok x -> value_ok (Leaf x)
| Array_ok vs : len vs < 2 ^ 31 -> Forall value_ok vs -> value_ok (Array vs)
| Hash_ok kvs :
    len kvs < 2 ^ 31 ->
    Forall (fun kx => value_ok (fst kx) /\ value_ok (snd kx)) kvs ->
    value_ok (Hash kvs).
#[local] Set Elimination Schemes.

(** The pairs of a hash, one value after the other. *)
Definition flatten (kvs : list (value * value)) : list value :=
  concat (map (fun kx => [fst kx; snd kx]) kvs).

Definition leaves_list (vs : list value) : Z :=
  fold_right (fun x n => leaves x + n) 0 vs.


(** What writing a value does, as a property of the value. *)
Definition writes (grow : Z) (v : value) : Prop :=
  value_ok v ->
  forall g it,
    wf g -> cur (st g) = Some it -> pos it <> cnt it ->
    symCount g + leaves v < 2 ^ 32 ->
    exists g',
      write_value grow v g = Ok tt g' /\
      wrote_value g g' it (fst (value_wire (symbols g) v)) /\
      symbols g' = snd (value_wire (symbols g) v) /\
      symCount g' <= symCount g + leaves v.


(** A generator that was just built: the magic is in the buffer and the frame
    of the top level waits for its value. *)
Definition fresh : Generator :=
  Eval vm_compute in
    match NewGenerator with
    | Ok _ g => g
    | _ => zeroGenerator
    end.

(** A generator inside an array of two elements, none of them written. *)
Definition in_array : Generator :=
  Eval vm_compute in
    match and_then NewGenerator (StartArray 2) with
    | Ok _ g => g
    | _ => zeroGenerator
    end.

(** The value [[300, {:a => "hi", :a => nil}, []]]. *)
Definition sample : value :=
  Array [Leaf (CFixnum 300);
         Hash [(Leaf (CSymbol "a"), Leaf (CString "hi"));
               (Leaf (CSymbol "a"), Leaf CNil)];
         Array []].

End generator.

(** ** parser.go *)

Module parser.

Definition bufInitSz : Z := 256.
Definition stackGrowSz : Z := 8.

Inductive Token : Type :=
| tokenStart | TokenNil | TokenTrue | TokenFalse | TokenFixnum | TokenFloat
| TokenBignum | TokenSymbol | TokenString | TokenStartArray | TokenEndArray
| TokenStartHash | TokenEndHash | TokenStartIVar | TokenEndIVar | TokenLink
| TokenEOF.

Global Instance Token_eq_dec : EqDecision Token.
Proof. solve_decision. Defined.

(** The value [iota] gives the token. *)
Definition Token_value (t : Token) : Z :=
  match t with
  | tokenStart => 0 | TokenNil => 1 | TokenTrue => 2 | TokenFalse => 3
  | TokenFixnum => 4 | TokenFloat => 5 | TokenBignum => 6 | TokenSymbol => 7
  | TokenString => 8 | TokenStartArray => 9 | TokenEndArray => 10
  | TokenStartHash => 11 | TokenEndHash => 12 | TokenStartIVar => 13
  | TokenEndIVar => 14 | TokenLink => 15 | TokenEOF => 16
  end.

Definition ctxArray : Z := 0.
Definition ctxHash : Z := 1.
Definition ctxIVar : Z := 2.

Record parserContext : Type := ParserContext {
  typ : Z;
  sz : Z;
  cpos : Z;              (* the field [pos] of [parserContext] *)
  ivSym : option (list Z)  (* the bytes of the string pointed at *)
}.

Record rng : Type := Rng { beg : Z; end_ : Z }.

(** [r] is the reader, modelled as the bytes it has still to deliver, the way
    a [bytes.Reader] does: [Read] hands out as much as fits and reports
    [io.EOF] once nothing is left. [cst] always points at [st[stSz-1]]
    ([pushStack] and [popStack] keep it there) and is nil when [stSz] is 0:
    the model reads and writes that slot. [bnumbits] is scratch space of
    [Bignum] and is left out. *)
Record Parser : Type := mkParser {
  r : list Z;
  cur : Token;
  st : list parserContext;
  stSz : Z;
  buf : list Z;
  pos : Z;
  ctx : rng;
  num : Z;
  bnumsign : Z;
  symTbl : list rng;
  lnkTbl : list rng
}.

Definition P (A : Type) : Type := M Parser A.

Definition set_r x p := mkParser x (cur p) (st p) (stSz p) (buf p) (pos p) (ctx p) (num p) (bnumsign p) (symTbl p) (lnkTbl p).
Definition set_cur x p := mkParser (r p) x (st p) (stSz p) (buf p) (pos p) (ctx p) (num p) (bnumsign p) (symTbl p) (lnkTbl p).
Definition set_st x p := mkParser (r p) (cur p) x (stSz p) (buf p) (pos p) (ctx p) (num p) (bnumsign p) (symTbl p) (lnkTbl p).
Definition set_stSz x p := mkParser (r p) (cur p) (st p) x (buf p) (pos p) (ctx p) (num p) (bnumsign p) (symTbl p) (lnkTbl p).
Definition set_buf x p := mkParser (r p) (cur p) (st p) (stSz p) x (pos p) (ctx p) (num p) (bnumsign p) (symTbl p) (lnkTbl p).
Definition set_pos x p := mkParser (r p) (cur p) (st p) (stSz p) (buf p) x (ctx p) (num p) (bnumsign p) (symTbl p) (lnkTbl p).
Definition set_ctx x p := mkParser (r p) (cur p) (st p) (stSz p) (buf p) (pos p) x (num p) (bnumsign p) (symTbl p) (lnkTbl p).
Definition set_num x p := mkParser (r p) (cur p) (st p) (stSz p) (buf p) (pos p) (ctx p) x (bnumsign p) (symTbl p) (lnkTbl p).
Definition set_bnumsign x p := mkParser (r p) (cur p) (st p) (stSz p) (buf p) (pos p) (ctx p) (num p) x (symTbl p) (lnkTbl p).
Definition set_symTbl x p := mkParser (r p) (cur p) (st p) (stSz p) (buf p) (pos p) (ctx p) (num p) (bnumsign p) x (lnkTbl p).
Definition set_lnkTbl x p := mkParser (r p) (cur p) (st p) (stSz p) (buf p) (pos p) (ctx p) (num p) (bnumsign p) (symTbl p) x.

(** [NewParser(r)] *)
Definition NewParser (input : list Z) : Parser :=
  mkParser input tokenStart [] 0 (replicate (Z.to_nat bufInitSz) 0) 0
           (Rng 0 0) 0 0 [] [].

(** [p.cst]: [None] is nil. *)
Definition cst (p : Parser) : option parserContext :=
  if decide (stSz p = 0) then None else index (st p) (stSz p - 1).

(** [*p.cst = c] *)
Definition setCst (c : parserContext) : P unit :=
  fun p => if decide (stSz p = 0) then Panic NilDereference
           else match store (st p) (stSz p - 1) c with
                | Some s => Ok tt (set_st s p)
                | None => Panic NilDereference
                end.

(** [p.buf[i]] *)
Definition getBuf (i : Z) : P Z :=
  fun p => match index (buf p) i with
           | Some b => Ok b p
           | None => Panic IndexOutOfRange
           end.

(** [t.add(r)]: the slice is grown by doubling its capacity and [r] is
    appended; the id is the length before. *)
Definition add (t : list rng) (x : rng) : list rng := t ++ [x].

(** The loop of [fill], with [fuel] calls of [Read] left; [rd] bytes are
    read so far. The result is [err]. *)
Fixpoint fill_loop (fuel : nat) (num rend rd : Z) : P (option error) :=
  match fuel with
  | O => throw (Explicit "fill: the reader makes no progress")
  | S fuel' =>
      if decide (rd < num) then
        p <- get ;;
        if decide (0 <= pos p <= rend /\ rend <= len (buf p)) then
          match r p with
          | [] => ret (Some ErrUnexpectedEOF)
          | _ =>
              let n := Z.min (rend - pos p) (len (r p)) in
              match copy_at (buf p) (pos p) (take (Z.to_nat n) (r p)) with
              | Some bs =>
                  put (set_r (drop (Z.to_nat n) (r p))
                         (set_pos (pos p + n) (set_buf bs p))) ;;
                  fill_loop fuel' num rend (rd + n)
              | None => throw SliceOutOfRange
              end
          end
        else throw SliceOutOfRange
      else ret None
  end.

(** [io.EOF] is turned into [io.ErrUnexpectedEOF] at the end of [fill]: the
    loop reports it as such at once. *)
Definition fill (num : Z) : P (rng * option error) :=
  p <- get ;;
  let rg := Rng (pos p) (pos p + num) in
  (if decide (end_ rg > len (buf p)) then
     match make 0 (len (buf p) * 2) with
     | Some nb => put (set_buf (copy nb (buf p)) p)
     | None => throw NegativeLen
     end
   else ret tt) ;;
  err <- fill_loop (S (length (r p))) num (end_ rg) 0 ;;
  ret (rg, err).

(** [for r.beg <= r.end], with [k] iterations left, on the branch [n > 0]. *)
Fixpoint long_pos (k : nat) (b i n : Z) : P Z :=
  match k with
  | O => ret n
  | S k' => x <- getBuf b ;;
            long_pos k' (b + 1) (i + 1) (Z.lor n (shl64 x (8 * i)))
  end.

(** The same loop on the other branch. *)
Fixpoint long_neg (k : nat) (b i n : Z) : P Z :=
  match k with
  | O => ret n
  | S k' => x <- getBuf b ;;
            long_neg k' (b + 1) (i + 1)
              (Z.lor (Z.land n (Z.lnot (shl64 255 (8 * i)))) (shl64 x (8 * i)))
  end.

Definition long : P (Z * option error) :=
  let* (_, err) := fill 1 in
  match err with
  | Some e => ret (0, Some e)
  | None =>
      p <- get ;;
      n <- getBuf (pos p - 1) ;;
      if decide (n = 0) then ret (n, None)
      else if decide (4 < n /\ n < 128) then ret (n - 5, None)
      else if decide (-129 < n /\ n < -4) then ret (n + 5, None)
      else if decide (n > 0) then
        let* (rg, err) := fill n in
        match err with
        | Some e => ret (n, Some e)
        | None =>
            v <- long_pos (Z.to_nat (end_ rg - beg rg + 1)) (beg rg) 0 0 ;;
            ret (v, None)
        end
      else
        let* (rg, err) := fill (- n) in
        match err with
        | Some e => ret (n, Some e)
        | None =>
            v <- long_neg (Z.to_nat (end_ rg - beg rg + 1)) (beg rg) 0 (-1) ;;
            ret (v, None)
        end
  end.

Definition sizedBlob (bnum : bool) : P (rng * option error) :=
  let* (n, err) := long in
  match err with
  | Some e => ret (Rng 0 0, Some e)
  | None => fill (if bnum then wrap64 (n * 2) else n)
  end.

Definition pushStack (t size : Z) : P unit :=
  p <- get ;;
  let stk := if decide (stSz p = len (st p))
             then copy (replicate (Z.to_nat (len (st p) + stackGrowSz))
                                  (ParserContext 0 0 0 None)) (st p)
             else st p in
  match index stk (stSz p) with
  | Some c0 =>
      match store stk (stSz p) (ParserContext t size (-1) (ivSym c0)) with
      | Some stk' => put (set_stSz (stSz p + 1) (set_st stk' p))
      | None => throw IndexOutOfRange
      end
  | None => throw IndexOutOfRange
  end.

Definition popStack : P unit :=
  modify (fun p => set_stSz (stSz p - 1) p) ;;
  p <- get ;;
  if decide (stSz p > 0) then
    match index (st p) (stSz p - 1) with
    | Some c0 => setCst (ParserContext (typ c0) (sz c0) (cpos c0 + 1) (ivSym c0))
    | None => throw IndexOutOfRange
    end
  else ret tt.

(** [p.cst.pos++] *)
Definition incCstPos : P unit :=
  p <- get ;;
  match cst p with
  | Some c0 => setCst (ParserContext (typ c0) (sz c0) (cpos c0 + 1) (ivSym c0))
  | None => throw NilDereference
  end.

(** The part of [adv] after the type byte at [b] is in the buffer; [rg] is
    the local [r]. *)
Definition adv_value (rg : rng) : P (option error) :=
  t <- getBuf (beg rg) ;;
  if decide (t = TYPE_NIL) then modify (set_cur TokenNil) ;; ret None
  else if decide (t = TYPE_TRUE) then modify (set_cur TokenTrue) ;; ret None
  else if decide (t = TYPE_FALSE) then modify (set_cur TokenFalse) ;; ret None
  else if decide (t = TYPE_FIXNUM) then
    modify (set_cur TokenFixnum) ;;
    let* (n, err) := long in
    modify (set_num n) ;;
    match err with
    | Some e => ret (Some (Wrap e "fixnum"))
    | None => ret None
    end
  else if decide (t = TYPE_FLOAT) then
    modify (set_cur TokenFloat) ;;
    let* (x, err) := sizedBlob false in
    modify (set_ctx x) ;;
    match err with
    | Some e => ret (Some (Wrap e "float"))
    | None =>
        modify (fun p => set_lnkTbl (add (lnkTbl p) (Rng (beg rg) (pos p))) p) ;;
        ret None
    end
  else if decide (t = TYPE_BIGNUM) then
    modify (set_cur TokenBignum) ;;
    let* (rg', err) := fill 1 in
    match err with
    | Some e => ret (Some (Wrap e "bignum"))
    | None =>
        sign <- getBuf (beg rg') ;;
        modify (set_bnumsign sign) ;;
        let* (x, err) := sizedBlob true in
        modify (set_ctx x) ;;
        match err with
        | Some e => ret (Some (Wrap e "bignum"))
        | None => ret None
        end
    end
  else if decide (t = TYPE_SYMBOL) then
    modify (set_cur TokenSymbol) ;;
    let* (x, err) := sizedBlob false in
    modify (set_ctx x) ;;
    match err with
    | Some e => ret (Some (Wrap e "symbol"))
    | None => modify (fun p => set_symTbl (add (symTbl p) (ctx p)) p) ;; ret None
    end
  else if decide (t = TYPE_STRING) then
    modify (set_cur TokenString) ;;
    let* (x, err) := sizedBlob false in
    modify (set_ctx x) ;;
    match err with
    | Some e => ret (Some (Wrap e "string"))
    | None => ret None
    end
  else if decide (t = TYPE_SYMLINK) then
    modify (set_cur TokenSymbol) ;;
    let* (n, err) := long in
    match err with
    | Some e => ret (Some (Wrap e "symlink id"))
    | None =>
        p <- get ;;
        if decide (n >= len (symTbl p)) then
          ret (Some (Errorf "Symlink id %d is larger than max known %d"
                            [n; len (symTbl p) - 1]))
        else
          match index (symTbl p) n with
          | Some x => modify (set_ctx x) ;; ret None
          | None => throw IndexOutOfRange
          end
    end
  else if decide (t = TYPE_ARRAY) then
    modify (set_cur TokenStartArray) ;;
    let* (n, err) := long in
    match err with
    | Some e => ret (Some (Wrap e "array"))
    | None =>
        pushStack ctxArray n ;;
        modify (fun p => set_lnkTbl (add (lnkTbl p) rg) p) ;;
        ret None
    end
  else if decide (t = TYPE_HASH) then
    modify (set_cur TokenStartHash) ;;
    let* (n, err) := long in
    match err with
    | Some e => ret (Some (Wrap e "hash"))
    | None => pushStack ctxHash (wrap64 (n * 2)) ;; ret None
    end
  else if decide (t = TYPE_IVAR) then
    modify (set_cur TokenStartIVar) ;;
    pushStack ctxIVar (-1) ;;
    ret None
  else if decide (t = TYPE_LINK) then
    modify (set_cur TokenLink) ;;
    let* (n, err) := long in
    modify (set_num n) ;;
    match err with
    | Some e => ret (Some (Wrap e "link"))
    | None => ret None
    end
  else ret None.

Definition adv : P (option error) :=
  p <- get ;;
  if decide (cur p = tokenStart) then
    let* (_, err) := fill 3 in
    match err with
    | Some e => ret (Some (Wrap e "reading magic"))
    | None =>
        b0 <- getBuf 0 ;;
        b1 <- getBuf 1 ;;
        if decide (b0 <> 4 \/ b1 <> 8) then
          ret (Some (Errorf "Expected magic header 0x0408, got 0x%.4X"
                            [Z.lor (wrap16 (Z.shiftl b0 8)) b1]))
        else adv_value (Rng 2 0)
    end
  else
    let* (_, err) := fill 1 in
    match err with
    | Some ErrUnexpectedEOF => modify (set_cur TokenEOF) ;; ret None
    | Some e => ret (Some (Wrap e "read type id"))
    | None => adv_value (Rng (pos p) 0)
    end.

Definition advIVar : P (Token * option error) :=
  p <- get ;;
  match cst p with
  | None => throw NilDereference
  | Some c0 =>
      if decide (cpos c0 = sz c0) then
        modify (set_cur TokenEndIVar) ;;
        popStack ;;
        ret (TokenEndIVar, None)
      else
        incCstPos ;;
        err <- adv ;;
        p <- get ;;
        match err with
        | Some e => ret (cur p, Some e)
        | None =>
            if decide (cur p <> TokenSymbol) then
              ret (tokenStart,
                   Some (Errorf "Unexpected token type %s while parsing IVar, expected Symbol"
                                [Token_value (cur p)]))
            else
              match slice (buf p) (beg (ctx p)) (end_ (ctx p)) with
              | None => throw SliceOutOfRange
              | Some sym =>
                  match cst p with
                  | None => throw NilDereference
                  | Some c1 =>
                      setCst (ParserContext (typ c1) (sz c1) (cpos c1) (Some sym)) ;;
                      err <- adv ;;
                      p <- get ;;
                      ret (cur p, err)
                  end
              end
        end
  end.

(** The end of [Next], from the call of [adv] on. *)
Definition Next_adv : P (Token * option error) :=
  err <- adv ;;
  match err with
  | Some e => ret (tokenStart, Some (Wrap e "rmarsh.Parser.Next()"))
  | None =>
      p <- get ;;
      match cst p with
      | Some _ => incCstPos
      | None => ret tt
      end ;;
      p <- get ;;
      ret (cur p, None)
  end.

Definition Next : P (Token * option error) :=
  p <- get ;;
  match cst p with
  | Some c0 =>
      if decide (typ c0 = ctxIVar) then
        if decide (sz c0 > 0) then advIVar
        else if decide (sz c0 < 0) then
          setCst (ParserContext (typ c0) 0 (cpos c0) (ivSym c0)) ;;
          Next_adv
        else
          let* (n, err) := long in
          match err with
          | Some e => ret (tokenStart, Some (Wrap e "ivar"))
          | None =>
              setCst (ParserContext (typ c0) n 0 (ivSym c0)) ;;
              advIVar
          end
      else if decide (cpos c0 = sz c0) then
        (if decide (typ c0 = ctxArray) then modify (set_cur TokenEndArray)
         else if decide (typ c0 = ctxHash) then modify (set_cur TokenEndHash)
         else ret tt) ;;
        popStack ;;
        p <- get ;;
        ret (cur p, None)
      else Next_adv
  | None => Next_adv
  end.

Definition LinkId (p : Parser) : Z :=
  match cur p with
  | TokenLink => num p
  | TokenFloat | TokenStartArray => len (lnkTbl p) - 1
  | _ => -1
  end.

(** [k] calls of [Next], the tokens and errors they return in order; the
    calls stop at the first panic. *)
Fixpoint Nexts (k : nat) (p : Parser)
  : list (Token * option error) * option Parser :=
  match k with
  | O => ([], Some p)
  | S k' =>
      match Next p with
      | Ok x p' => let '(l, q) := Nexts k' p' in (x :: l, q)
      | Err _ _ => ([], None)
      | Panic _ => ([], None)
      end
  end.

End parser.

(** ** decoder.go: the reads of the decoder *)

Module decoder.

(** [io.EOF], which is [errors.New("EOF")]. *)
Definition EOF : error := ErrNew "EOF".

(** The decoder reads through a [bufio.Reader]; [r] are the bytes the reader
    has still to deliver, and the reader reports [io.EOF] after them.
    [symCache], [objCache] and [objId] belong to the decoding into Go values
    by reflection and are left out. [off] is an [int64]. *)
Record Decoder : Type := mkDecoder {
  r : list Z;
  off : Z
}.

Definition D (A : Type) : Type := M Decoder A.

(** [fmt.Sprintf("Error while reading %s", op)] *)
Definition reading (op : string) : string :=
  String.append "Error while reading " op.

(** [dec.byte(op)] *)
Definition byte (op : string) : D Z :=
  fun d => match r d with
           | [] => Err (Wrap EOF (reading op)) d
           | b :: rest => Ok b (mkDecoder rest (wrap64 (off d + 1)))
           end.

(** [dec.bytes(sz, op)]: [make] panics for a negative size; [io.ReadFull]
    takes what the reader has, and reports [io.EOF] when that is nothing and
    [io.ErrUnexpectedEOF] when it is less than [sz] bytes. *)
Definition bytes (sz : Z) (op : string) : D (list Z) :=
  fun d => match make 0 sz with
           | None => Panic NegativeLen
           | Some _ =>
               if decide (sz <= len (r d)) then
                 Ok (take (Z.to_nat sz) (r d))
                    (mkDecoder (drop (Z.to_nat sz) (r d)) (wrap64 (off d + sz)))
               else if decide (len (r d) = 0) then
                 Err (Wrap EOF (reading op)) d
               else
                 Err (Wrap ErrUnexpectedEOF (reading op)) (mkDecoder [] (off d))
           end.

(** [dec.uint16(op)], with [binary.BigEndian.Uint16]. *)
Definition uint16 (op : string) : D Z :=
  b <- bytes 2 op ;;
  match index b 1, index b 0 with
  | Some b1, Some b0 => ret (Z.lor b1 (Z.shiftl b0 8))
  | _, _ => throw IndexOutOfRange
  end.

(** [for i, v := range raw { bytes[i] = v }] *)
Fixpoint set_each (i : Z) (raw dst : list Z) : option (list Z) :=
  match raw with
  | [] => Some dst
  | v :: rest =>
      match store dst i v with
      | Some dst' => set_each (i + 1) rest dst'
      | None => None
      end
  end.

(** The loop of the negative branch of [long]:
    [x &= ^(int64(0xff) << uint(8*i)); x |= int64(v) << uint(8*i)]. *)
Fixpoint neg_each (i : Z) (raw : list Z) (x : Z) : Z :=
  match raw with
  | [] => x
  | v :: rest =>
      neg_each (i + 1) rest
        (Z.lor (Z.land x (Z.lnot (shl64 255 (8 * i)))) (shl64 v (8 * i)))
  end.

(** [dec.long()] *)
Definition long : D Z :=
  b <- byte "num" ;;
  let c := int8 b in
  if decide (c = 0) then ret 0
  else if decide (c > 0) then
    if decide (4 < c /\ c < 128) then ret (c - 5)
    else
      raw <- bytes c "number" ;;
      match set_each 0 raw (replicate 8 0) with
      | Some bs => ret (wrap64 (le_value bs))
      | None => throw IndexOutOfRange
      end
  else if decide (-129 < c /\ c < -4) then ret (c + 5)
  else
    raw <- bytes (- c) "number" ;;
    ret (neg_each 0 raw (-1)).

(** [dec.rawstr()]; the string is given by its bytes. *)
Definition rawstr : D (list Z) :=
  sz <- long ;;
  bytes sz "symbol".

(** What [long] returns when the input ends inside the packed long. *)
Definition short_read (bs : list Z) (off0 : Z) : res Decoder Z :=
  match bs with
  | [] => Err (Wrap EOF (reading "num")) (mkDecoder [] off0)
  | [_] => Err (Wrap EOF (reading "number"))
               (mkDecoder [] (off0 + 1))
  | _ => Err (Wrap ErrUnexpectedEOF (reading "number"))
             (mkDecoder [] (off0 + 1))
  end.

End decoder.

(** * Properties *)

(** ** Slices *)

Lemma index_Some {A} (l : list A) i x :
  index l i = Some x <-> 0 <= i /\ l !! Z.to_nat i = Some x.
Proof. unfold index. destruct (decide _); intuition congruence. Qed.

Lemma index_lt {A} (l : list A) i :
  0 <= i < len l -> exists x, index l i = Some x.
Proof.
  intros H. unfold index. rewrite decide_True by lia.
  apply lookup_lt_is_Some. unfold len in H. lia.
Qed.

Lemma store_Some {A} (l : list A) i x :
  0 <= i < len l -> store l i x = Some (<[Z.to_nat i := x]> l).
Proof. intros H. unfold store, len in *. rewrite decide_True by lia. reflexivity. Qed.

Lemma index_store {A} (l l' : list A) i x :
  store l i x = Some l' -> index l' i = Some x.
Proof.
  unfold store, index. destruct (decide _) as [H|]; [|discriminate].
  intros [= <-]. rewrite decide_True by lia.
  apply list_lookup_insert_eq. lia.
Qed.

Section splice.
Context {A : Type}.
Implicit Types (l xs ys : list A) (n : nat).

Lemma splice_cons_l x l n xs : splice (x :: l) (S n) xs = x :: splice l n xs.
Proof. reflexivity. Qed.

Lemma splice_length l n xs :
  (n + length xs <= length l)%nat -> length (splice l n xs) = length l.
Proof.
  intros H. unfold splice. rewrite !length_app, length_take, length_drop. lia.
Qed.

Lemma splice_take l n xs :
  (n <= length l)%nat -> take (n + length xs) (splice l n xs) = take n l ++ xs.
Proof.
  intros H. unfold splice. rewrite app_assoc.
  rewrite take_app_le by (rewrite length_app, length_take; lia).
  apply take_ge. rewrite length_app, length_take. lia.
Qed.

Lemma splice_take_lt l n xs m :
  (m <= n <= length l)%nat -> take m (splice l n xs) = take m l.
Proof.
  intros H. unfold splice.
  rewrite take_app_le by (rewrite length_take; lia).
  rewrite take_take. f_equal. lia.
Qed.

Lemma splice_nil l n : splice l n [] = l.
Proof. unfold splice. simpl. rewrite Nat.add_0_r. apply take_drop. Qed.

Lemma splice_insert l n x :
  (n < length l)%nat -> <[n := x]> l = splice l n [x].
Proof.
  revert l. induction n as [|n IH]; intros [|y l] H; simpl in *; try lia.
  - unfold splice. simpl. rewrite drop_0. reflexivity.
  - rewrite splice_cons_l. f_equal. apply IH. lia.
Qed.

Lemma splice_app l n xs ys :
  (n + length xs + length ys <= length l)%nat ->
  splice (splice l n xs) (n + length xs) ys = splice l n (xs ++ ys).
Proof.
  intros H. unfold splice at 1.
  rewrite splice_take by lia.
  unfold splice. rewrite <-!app_assoc. do 2 f_equal.
  rewrite app_assoc.
  rewrite drop_app_ge by (rewrite length_app, length_take; lia).
  rewrite drop_drop, !length_app, length_take. f_equal. f_equal. lia.
Qed.

Lemma splice_snoc l n xs y :
  (n + length xs < length l)%nat ->
  <[(n + length xs)%nat := y]> (splice l n xs) = splice l n (xs ++ [y]).
Proof.
  intros H. rewrite splice_insert by (rewrite splice_length; lia).
  apply splice_app. simpl. lia.
Qed.

Lemma splice_head l n c xs :
  (S n + length xs <= length l)%nat ->
  <[n := c]> (splice l (S n) xs) = splice l n (c :: xs).
Proof.
  revert l. induction n as [|n IH]; intros [|y l] H; simpl in *; try lia.
  - reflexivity.
  - rewrite !splice_cons_l. simpl. f_equal. apply IH. lia.
Qed.

Lemma copy_fits (dst src : list A) :
  (length src <= length dst)%nat ->
  take (length dst) src ++ drop (length src) dst = src ++ drop (length src) dst.
Proof. intros H. rewrite take_ge by lia. reflexivity. Qed.

End splice.

(** Running methods *)
Lemma bind_Ok {S A B} (m : M S A) (k : A -> M S B) s a s' :
  m s = Ok a s' -> bind m k s = k a s'.
Proof. unfold bind. intros ->. reflexivity. Qed.

Lemma bind_Err {S A B} (m : M S A) (k : A -> M S B) s e s' :
  m s = Err e s' -> bind m k s = Err e s'.
Proof. unfold bind. intros ->. reflexivity. Qed.


(** ** The generator *)

Module generator_proofs.
Import generator.

Lemma getCur_Some g it : cur (st g) = Some it -> getCur g = Ok it g.
Proof. unfold getCur. intros ->. reflexivity. Qed.

Lemma wf_cur g : wf g -> exists it, cur (st g) = Some it.
Proof.
  intros (Hsz & _). unfold cur. rewrite decide_False by lia.
  apply index_lt. lia.
Qed.

Lemma wf_top g it :
  wf g -> cur (st g) = Some it -> (typ it = genStTop <-> sz (st g) = 1).
Proof.
  intros (Hsz & Htyp & _) Hc. unfold cur in Hc.
  rewrite decide_False in Hc by lia.
  rewrite (Htyp (sz (st g) - 1) it ltac:(lia) Hc). lia.
Qed.

Lemma checkState_full g it size :
  cur (st g) = Some it -> pos it = cnt it ->
  checkState size g
  = Err (if decide (sz (st g) = 1) then ErrGeneratorFinished
         else ErrGeneratorOverflow) g.
Proof.
  intros Hc Hp. unfold checkState.
  rewrite (bind_Ok _ _ _ _ _ (getCur_Some _ _ Hc)).
  unfold get, bind. rewrite decide_True by done.
  destruct (decide _); reflexivity.
Qed.

Lemma appends_refl g : appends g g [].
Proof.
  unfold appends. rewrite app_nil_r. unfold len. simpl.
  repeat split; try reflexivity; lia.
Qed.

Lemma appends_trans g1 g2 g3 xs ys :
  appends g1 g2 xs -> appends g2 g3 ys -> appends g1 g3 (xs ++ ys).
Proof.
  unfold appends. intros (?&?&?&?&?&?&?&Ht1) (?&?&?&?&?&?&?&Ht2).
  repeat split; try congruence; try lia.
  - unfold len in *. rewrite length_app. lia.
  - rewrite Ht2, Ht1, app_assoc. reflexivity.
Qed.

Lemma appends_emitted g g' bs :
  appends g g' bs -> emitted g' = emitted g ++ bs.
Proof.
  unfold appends, emitted. intros (-> & _ & _ & _ & _ & _ & _ & ->).
  rewrite app_assoc. reflexivity.
Qed.

Lemma putByte_ok g b :
  0 <= bufn g < len (buf g) ->
  exists g', putByte b g = Ok tt g' /\ appends g g' [b] /\
             len (buf g') = len (buf g).
Proof.
  intros H. unfold putByte, bind, get, setBuf, addBufn, modify.
  rewrite store_Some by lia. simpl.
  eexists. split; [reflexivity|]. unfold appends, len in *. simpl.
  rewrite length_insert.
  repeat split; try reflexivity; try lia.
  replace (Z.to_nat (bufn g + 1)) with (S (Z.to_nat (bufn g))) by lia.
  erewrite take_S_r by (apply list_lookup_insert_eq; lia).
  rewrite take_insert_ge by lia. reflexivity.
Qed.

Lemma copy_length {A} (dst src : list A) : length (copy dst src) = length dst.
Proof. unfold copy. rewrite length_app, length_take, length_drop. lia. Qed.

Lemma copy_take {A} (dst src : list A) k :
  (k <= length src)%nat -> (k <= length dst)%nat ->
  take k (copy dst src) = take k src.
Proof.
  intros H1 H2. unfold copy.
  rewrite take_app_le by (rewrite length_take; lia).
  rewrite take_take. f_equal. lia.
Qed.

Lemma checkState_ok g it size :
  cur (st g) = Some it -> pos it <> cnt it ->
  0 <= bufn g <= len (buf g) -> 0 <= size ->
  exists g', checkState size g = Ok tt g' /\ appends g g' [] /\
             bufn g + size <= len (buf g').
Proof.
  intros Hc Hp Hb Hs. unfold checkState.
  rewrite (bind_Ok _ _ _ _ _ (getCur_Some _ _ Hc)).
  unfold get, bind. rewrite decide_False by done.
  destruct (decide (len (buf g) < bufn g + size)) as [Hlt|Hge].
  - unfold make. rewrite decide_True by lia. unfold put.
    eexists. split; [reflexivity|].
    unfold appends, len in *. simpl. rewrite app_nil_r.
    destruct (decide (0 < bufn g)).
    + rewrite copy_length, length_replicate.
      repeat split; try reflexivity; try lia.
      rewrite copy_take; [reflexivity|lia|rewrite length_replicate; lia].
    + rewrite length_replicate.
      repeat split; try reflexivity; try lia.
      replace (bufn g) with 0 by lia. reflexivity.
  - unfold ret. eexists. split; [reflexivity|].
    split; [apply appends_refl|lia].
Qed.

Lemma cur_insert stk n it :
  1 <= n <= len stk ->
  cur (GenState (<[Z.to_nat (n - 1) := it]> stk) n) = Some it.
Proof.
  intros H. unfold cur. simpl. rewrite decide_False by lia.
  unfold index. rewrite decide_True by lia.
  apply list_lookup_insert_eq. unfold len in H. lia.
Qed.

Lemma frames_ok_insert stk n it it' :
  frames_ok stk n -> 1 <= n <= len stk ->
  index stk (n - 1) = Some it -> typ it' = typ it ->
  frames_ok (<[Z.to_nat (n - 1) := it']> stk) n.
Proof.
  intros Hf Hn Hit Ht i x Hi Hx. unfold len in Hn.
  apply index_Some in Hx as [_ Hx].
  destruct (decide (i = n - 1)) as [->|Hne].
  - rewrite list_lookup_insert_eq in Hx by lia. injection Hx as <-.
    rewrite Ht. apply (Hf (n - 1) it); [lia|exact Hit].
  - rewrite list_lookup_insert_ne in Hx by lia.
    apply (Hf i x); [lia|]. apply index_Some. split; [lia|exact Hx].
Qed.

Lemma cur_index s :
  sz s <> 0 -> cur s = index (stack s) (sz s - 1).
Proof. intros H. unfold cur. rewrite decide_False by done. reflexivity. Qed.

Lemma writeAdv_ok g it :
  wf g -> cur (st g) = Some it ->
  exists g', writeAdv g = Ok tt g' /\
    emitted g' = emitted g /\
    st g' = GenState (<[Z.to_nat (sz (st g) - 1) :=
                          GenStateItem (cnt it) (pos it + 1) (typ it)]>
                        (stack (st g))) (sz (st g)) /\
    symCount g' = symCount g /\ symTbl g' = symTbl g /\
    (pos it + 1 = cnt it -> sz (st g) = 1 -> w g' = emitted g) /\
    (sz (st g) <> 1 -> w g' = w g) /\
    wf g'.
Proof.
  intros Hwf Hc. pose proof Hwf as (Hsz & Htyp & Hb & Hs).
  unfold writeAdv.
  rewrite (bind_Ok _ _ _ _ _ (getCur_Some _ _ Hc)).
  unfold bind at 1. unfold setCur.
  rewrite decide_False by lia. rewrite store_Some by lia.
  set (it' := GenStateItem (cnt it) (pos it + 1) (typ it)).
  set (g1 := set_st _ g).
  assert (Hc1 : cur (st g1) = Some it').
  { subst g1. simpl. apply cur_insert. lia. }
  assert (Hwf1 : forall g2, st g2 = st g1 -> buf g2 = buf g ->
            0 <= bufn g2 <= len (buf g) -> symCount g2 = symCount g ->
            symTbl g2 = symTbl g -> wf g2).
  { intros g2 E1 E2 Hn E3 E4. subst g1. unfold wf.
    rewrite E1, E2, E3, E4. simpl. unfold len in *.
    rewrite length_insert. repeat split; try lia.
    all: apply (frames_ok_insert _ _ it it' Htyp); try done;
      try (unfold len; lia); rewrite <- cur_index by lia; done. }
  rewrite (bind_Ok _ _ _ _ _ (getCur_Some _ _ Hc1)).
  unfold get, bind.
  destruct (decide _) as [(Hn & Hfull & Hone)|Hno].
  - unfold slice_to. rewrite decide_True by (subst g1; simpl; lia).
    unfold put. eexists. split; [reflexivity|].
    split; [subst g1; unfold emitted; simpl; rewrite app_nil_r; reflexivity|].
    split; [reflexivity|]. split; [reflexivity|]. split; [reflexivity|].
    split; [intros; reflexivity|]. split; [subst g1; simpl in *; intros; lia|].
    apply Hwf1; try reflexivity. simpl. lia.
  - unfold ret. eexists. split; [reflexivity|].
    split; [reflexivity|].
    split; [reflexivity|]. split; [reflexivity|]. split; [reflexivity|].
    split; [|split; [reflexivity|]].
    + intros Hf H1. subst g1 it'. simpl in *. unfold emitted.
      destruct (decide (0 < bufn g)); [exfalso; apply Hno; lia|].
      replace (bufn g) with 0 by lia. simpl. rewrite app_nil_r. reflexivity.
    + apply Hwf1; try reflexivity. exact Hb.
Qed.

Lemma pop_ok g it :
  wf g -> cur (st g) = Some it -> typ it <> genStTop ->
  exists parent,
    pop g = Ok tt (set_st (GenState (stack (st g)) (sz (st g) - 1)) g) /\
    cur (GenState (stack (st g)) (sz (st g) - 1)) = Some parent /\
    wf (set_st (GenState (stack (st g)) (sz (st g) - 1)) g).
Proof.
  intros Hwf Hc Ht. pose proof Hwf as (Hsz & Htyp & Hb & Hs).
  assert (sz (st g) <> 1) by (rewrite <- (wf_top g it); done).
  destruct (index_lt (stack (st g)) (sz (st g) - 2)) as [parent Hp]; [lia|].
  exists parent. unfold pop. rewrite decide_True by lia.
  replace (sz (st g) - 1 - 1) with (sz (st g) - 2) by lia. rewrite Hp.
  split; [reflexivity|]. split.
  - rewrite cur_index by (simpl; lia). simpl.
    replace (sz (st g) - 1 - 1) with (sz (st g) - 2) by lia. exact Hp.
  - unfold wf. simpl. split; [lia|]. split; [|split; assumption].
    intros i x Hi Hx. apply (Htyp i x); [lia|exact Hx].
Qed.

Ltac end_frame Hwf Hc :=
  let g1 := fresh "g1" in
  unfold bind, get; rewrite decide_False by (destruct Hwf; lia);
  rewrite (getCur_Some _ _ Hc).

Lemma EndArray_run g it :
  wf g -> cur (st g) = Some it ->
  EndArray g =
    if decide (typ it <> genStArr) then
      Err (ErrNew "EndArray() called outside of context of array") g
    else if decide (pos it <> cnt it) then
      Err (Errorf "EndArray() called prematurely, %d of %d elems written"
                  [pos it; cnt it]) g
    else (pop ;; writeAdv) g.
Proof.
  intros Hwf Hc. unfold EndArray at 1. end_frame Hwf Hc.
  repeat (destruct (decide _)); reflexivity.
Qed.

Lemma EndHash_run g it :
  wf g -> cur (st g) = Some it ->
  EndHash g =
    if decide (typ it <> genStHash) then
      Err (ErrNew "EndHash() called outside of context of hash") g
    else if decide (pos it <> cnt it) then
      Err (Errorf "EndHash() called prematurely, %d of %d elems written"
                  [pos it; cnt it]) g
    else (pop ;; writeAdv) g.
Proof.
  intros Hwf Hc. unfold EndHash at 1. end_frame Hwf Hc.
  repeat (destruct (decide _)); reflexivity.
Qed.

Lemma pop_writeAdv_ok g it :
  wf g -> cur (st g) = Some it -> typ it <> genStTop ->
  exists g', (pop ;; writeAdv) g = Ok tt g' /\
             sz (st g') = sz (st g) - 1 /\ emitted g' = emitted g /\
             (sz (st g) = 2 ->
              forall top, index (stack (st g)) 0 = Some top ->
                          pos top + 1 = cnt top -> w g' = emitted g) /\
             wf g'.
Proof.
  intros Hwf Hc Ht.
  destruct (pop_ok g it Hwf Hc Ht) as (parent & Hpop & Hcp & Hwf1).
  rewrite (bind_Ok _ _ _ _ _ Hpop).
  destruct (writeAdv_ok _ parent Hwf1 Hcp)
    as (g' & Hrun & Hem & Hst & _ & _ & Hflush & _ & Hwf').
  exists g'. split; [exact Hrun|]. rewrite Hst. simpl.
  split; [reflexivity|]. split; [exact Hem|]. split; [|exact Hwf'].
  intros H2 top Htop Hfull. simpl in Hflush. apply Hflush; [|lia].
  rewrite cur_index in Hcp by (simpl; lia). simpl in Hcp.
  replace (sz (st g) - 1 - 1) with 0 in Hcp by lia. congruence.
Qed.

(** The four parts of the statement, when the call fails and when it
    succeeds. *)
Ltac solve_End_err :=
  split; [intros; first [reflexivity | contradiction | lia]|];
  split; [intros; first [reflexivity | contradiction | lia]|];
  split; [split; [intros [? ?]; discriminate | intros [? ?]; first [contradiction | lia]]|];
  intros ? ?; discriminate.

Ltac solve_End_ok :=
  split; [intros; first [contradiction | lia]|];
  split; [intros; lia|];
  split; [split; [intros _; split; assumption | intros _; eexists; reflexivity]|];
  let E := fresh in intros ? E; injection E as <-; split; assumption.

(** C8. [EndArray] fails when the current frame is not the frame of an array,
    and fails with the error of a premature close when it is but its position
    is below its size; it succeeds exactly when the frame is the frame of an
    array and is full, and then the frame is popped and nothing is written.
    [EndHash] does the same for the frame of a hash. *)
Theorem End_closes_full_matching_frame g it :
  wf g -> cur (st g) = Some it ->
  ((typ it <> genStArr ->
    EndArray g = Err (ErrNew "EndArray() called outside of context of array") g) /\
   (typ it = genStArr -> pos it < cnt it ->
    EndArray g = Err (Errorf "EndArray() called prematurely, %d of %d elems written"
                             [pos it; cnt it]) g) /\
   ((exists g', EndArray g = Ok tt g') <-> typ it = genStArr /\ pos it = cnt it) /\
   (forall g', EndArray g = Ok tt g' ->
               sz (st g') = sz (st g) - 1 /\ emitted g' = emitted g)) /\
  ((typ it <> genStHash ->
    EndHash g = Err (ErrNew "EndHash() called outside of context of hash") g) /\
   (typ it = genStHash -> pos it < cnt it ->
    EndHash g = Err (Errorf "EndHash() called prematurely, %d of %d elems written"
                            [pos it; cnt it]) g) /\
   ((exists g', EndHash g = Ok tt g') <-> typ it = genStHash /\ pos it = cnt it) /\
   (forall g', EndHash g = Ok tt g' ->
               sz (st g') = sz (st g) - 1 /\ emitted g' = emitted g)).
Proof.
  intros Hwf Hc. split.
  - rewrite (EndArray_run g it Hwf Hc).
    destruct (decide (typ it <> genStArr)) as [Hk|Hk]; [solve_End_err|].
    apply dec_stable in Hk.
    assert (Htop : typ it <> genStTop) by (rewrite Hk; discriminate).
    destruct (decide (pos it <> cnt it)) as [Hp|Hp]; [solve_End_err|].
    apply dec_stable in Hp.
    destruct (pop_writeAdv_ok g it Hwf Hc Htop) as (g' & Hrun & Hsz & Hem & _).
    rewrite Hrun. solve_End_ok.
  - rewrite (EndHash_run g it Hwf Hc).
    destruct (decide (typ it <> genStHash)) as [Hk|Hk]; [solve_End_err|].
    apply dec_stable in Hk.
    assert (Htop : typ it <> genStTop) by (rewrite Hk; discriminate).
    destruct (decide (pos it <> cnt it)) as [Hp|Hp]; [solve_End_err|].
    apply dec_stable in Hp.
    destruct (pop_writeAdv_ok g it Hwf Hc Htop) as (g' & Hrun & Hsz & Hem & _).
    rewrite Hrun. solve_End_ok.
Qed.

Lemma loop_bytes_nonempty k i n c bs :
  loop_bytes k i n = Some (c, bs) -> (1 <= length bs)%nat.
Proof.
  destruct k as [|k]; simpl; [discriminate|].
  repeat destruct (decide _); try (intros [= <- <-]; simpl; lia).
  destruct (loop_bytes k (i + 1) (Z.shiftr n 8)) as [[c' bs']|]; [|discriminate].
  intros [= <- <-]. simpl. lia.
Qed.

Lemma encodeLong_loop_ok k : forall i n g c bs,
  loop_bytes k i n = Some (c, bs) ->
  0 <= bufn g -> 1 <= i -> bufn g + i + len bs <= len (buf g) ->
  encodeLong_loop k i n g
  = Ok tt (set_bufn (bufn g + i + len bs)
             (set_buf (<[Z.to_nat (bufn g) := c]>
                         (splice (buf g) (Z.to_nat (bufn g + i)) bs)) g)).
Proof.
  induction k as [|k IH]; intros i n g c bs Hl Hb Hi Hroom; [discriminate|].
  pose proof (loop_bytes_nonempty _ _ _ _ _ Hl) as Hne.
  simpl in Hl. simpl. unfold bind at 1, get. unfold bind at 1, setBuf at 1.
  unfold len in *.
  rewrite store_Some by (unfold len; lia).
  rewrite splice_insert by lia.
  destruct (decide (Z.shiftr n 8 = 0)); [|destruct (decide (Z.shiftr n 8 = -1))].
  - injection Hl as <- <-. unfold bind, setBuf, addBufn, modify. simpl.
    rewrite store_Some by (unfold len; rewrite splice_length by (simpl; lia); lia).
    simpl. do 2 f_equal. lia.
  - injection Hl as <- <-. unfold bind, setBuf, addBufn, modify. simpl.
    rewrite store_Some by (unfold len; rewrite splice_length by (simpl; lia); lia).
    simpl. do 2 f_equal. lia.
  - destruct (loop_bytes k (i + 1) (Z.shiftr n 8)) as [[c' bs']|] eqn:Hrec;
      [|discriminate].
    injection Hl as <- <-. simpl in Hroom, Hne.
    rewrite (IH _ _ _ _ _ Hrec); simpl;
      try rewrite splice_length by (simpl; lia); try lia.
    replace (Z.to_nat (bufn g + (i + 1)))
      with (Z.to_nat (bufn g + i) + length [byte (Z.land n 255)])%nat
      by (simpl; lia).
    rewrite splice_app by (simpl; lia).
    unfold set_bufn, set_buf. simpl. f_equal. f_equal. lia.
Qed.

Lemma land_255 n : Z.land n 255 = n mod 256.
Proof. change 255 with (Z.ones 8). rewrite Z.land_ones by lia. reflexivity. Qed.

Lemma byte_land n : byte (Z.land n 255) = byte n.
Proof. unfold byte. rewrite land_255. apply Z.mod_mod. lia. Qed.

Lemma shiftr8 n : Z.shiftr n 8 = n / 256.
Proof. rewrite Z.shiftr_div_pow2 by lia. reflexivity. Qed.

Lemma div256_bounds n lo hi :
  256 * lo <= n < 256 * hi -> lo <= n / 256 < hi.
Proof. intros H. split; [apply Z.div_le_lower_bound|apply Z.div_lt_upper_bound]; lia. Qed.

Lemma loop_bytes_packed n :
  - 2 ^ 32 <= n < 2 ^ 32 -> ~ (-124 < n < 123) ->
  loop_bytes 4 1 n
  = Some (if decide (0 < n) then Z.of_nat (payload_len n)
          else 256 - Z.of_nat (payload_len n),
          le_bytes (payload_len n) n).
Proof.
  intros Hr Hs. unfold loop_bytes, payload_len.
  rewrite !byte_land, !shiftr8.
  pose proof (Z.div_mod n 256 ltac:(lia)) as E1.
  pose proof (Z.mod_pos_bound n 256 ltac:(lia)) as B1.
  set (q1 := n / 256) in *.
  pose proof (Z.div_mod q1 256 ltac:(lia)) as E2.
  pose proof (Z.mod_pos_bound q1 256 ltac:(lia)) as B2.
  set (q2 := q1 / 256) in *.
  pose proof (Z.div_mod q2 256 ltac:(lia)) as E3.
  pose proof (Z.mod_pos_bound q2 256 ltac:(lia)) as B3.
  set (q3 := q2 / 256) in *.
  pose proof (Z.div_mod q3 256 ltac:(lia)) as E4.
  pose proof (Z.mod_pos_bound q3 256 ltac:(lia)) as B4.
  set (q4 := q3 / 256) in *.
  change (2 ^ 8) with 256. change (2 ^ 16) with 65536.
  change (2 ^ 24) with 16777216. change (2 ^ 32) with 4294967296 in Hr.
  repeat (destruct (decide _)); try lia;
    cbn [le_bytes]; rewrite ?shiftr8; reflexivity.
Qed.

Lemma le_bytes_length k n : length (le_bytes k n) = k.
Proof. revert n. induction k; intros; simpl; [|rewrite IHk]; reflexivity. Qed.

Lemma payload_len_bounds n : (1 <= payload_len n <= 4)%nat.
Proof. unfold payload_len. repeat destruct (decide _); lia. Qed.

Lemma packed_long_length n : (1 <= length (packed_long n) <= 5)%nat.
Proof.
  pose proof (payload_len_bounds n).
  unfold packed_long. repeat destruct (decide _); simpl;
    rewrite ?le_bytes_length; lia.
Qed.

Lemma encodeLong_ok n g :
  - 2 ^ 32 <= n < 2 ^ 32 -> 0 <= bufn g -> bufn g + 5 <= len (buf g) ->
  exists g', encodeLong n g = Ok tt g' /\ appends g g' (packed_long n) /\
             len (buf g') = len (buf g).
Proof.
  intros Hr Hb Hroom. unfold encodeLong, packed_long.
  destruct (decide (n = 0)); [apply putByte_ok; lia|].
  destruct (decide (0 < n /\ n < 123)) as [Hp|Hp].
  { unfold byte.
    rewrite Z.mod_small by lia. apply putByte_ok; lia. }
  destruct (decide (-124 < n /\ n < 0)) as [Hm|Hm].
  { rewrite byte_land. unfold byte.
    replace ((n - 5) mod 256) with (256 + (n - 5))
      by (apply (Z.mod_unique _ _ (-1)); lia).
    apply putByte_ok; lia. }
  pose proof (loop_bytes_packed n Hr ltac:(lia)) as Hl.
  pose proof (payload_len_bounds n) as Hk.
  set (bs := le_bytes (payload_len n) n) in *.
  set (hd := if decide (0 < n) then _ else _) in *.
  assert (Hlen : length bs = payload_len n) by apply le_bytes_length.
  unfold len in *.
  rewrite (encodeLong_loop_ok _ _ _ _ _ _ Hl) by (unfold len; lia).
  eexists. split; [reflexivity|].
  replace (Z.to_nat (bufn g + 1)) with (S (Z.to_nat (bufn g))) by lia.
  rewrite splice_head by lia.
  unfold appends, len. simpl. rewrite splice_length by (simpl; lia).
  repeat split; try reflexivity; try lia.
  - destruct (decide (0 < n)); simpl; lia.
  - replace (Z.to_nat (bufn g + 1 + Z.of_nat (length bs)))
      with (Z.to_nat (bufn g) + length (hd :: bs))%nat by (simpl; lia).
    rewrite splice_take by lia.
    destruct (decide (0 < n)); reflexivity.
Qed.

Lemma checkState_bind_full {A} g it size (k : unit -> G A) :
  cur (st g) = Some it -> pos it = cnt it ->
  bind (checkState size) k g
  = Err (if decide (sz (st g) = 1) then ErrGeneratorFinished
         else ErrGeneratorOverflow) g.
Proof.
  intros Hc Hp. apply bind_Err. apply (checkState_full g it); assumption.
Qed.

Lemma Symbol_scan_full k : forall i g it sym,
  cur (st g) = Some it -> pos it = cnt it ->
  0 <= i -> i + Z.of_nat k <= len (symTbl g) ->
  Symbol_scan k i sym (Symbol_new sym) g
  = Err (if decide (sz (st g) = 1) then ErrGeneratorFinished
         else ErrGeneratorOverflow) g.
Proof.
  induction k as [|k IH]; intros i g it sym Hc Hp Hi Hlen.
  - simpl. unfold Symbol_new. apply (checkState_bind_full g it); assumption.
  - simpl. unfold bind at 1, get.
    destruct (index_lt (symTbl g) i) as [s Hs]; [lia|]. rewrite Hs.
    destruct (decide (s = sym)).
    + apply (checkState_bind_full g it); assumption.
    + apply (IH _ _ it); try assumption; lia.
Qed.

Lemma Symbol_grow_ok grow g :
  0 <= grow -> 0 <= symCount g <= len (symTbl g) ->
  exists tbl, Symbol_grow grow g = Ok tt (set_symTbl tbl g) /\
              take (Z.to_nat (symCount g)) tbl = symbols g /\
              len (symTbl g) <= len tbl /\
              (0 < grow -> symCount g < len tbl).
Proof.
  intros Hg Hs. unfold Symbol_grow, bind, get.
  destruct (decide _) as [Hfull|Hroom].
  - unfold make. rewrite decide_True by (unfold len; lia). unfold put.
    eexists. split; [reflexivity|]. unfold symbols, len in *.
    rewrite copy_length, length_replicate.
    split; [|split; [lia|intros; lia]].
    apply copy_take; [lia|rewrite length_replicate; lia].
  - unfold ret. exists (symTbl g). split; [destruct g; reflexivity|].
    split; [reflexivity|]. split; [lia|]. intros _. unfold len in *. lia.
Qed.

(** C7. A call that writes a value on a generator whose current frame is full
    fails and leaves the output as it was: with [ErrGeneratorFinished] when
    the frame is that of the top level, with [ErrGeneratorOverflow] when it
    is the frame of an array or a hash. *)
Theorem full_frame_rejects_write grow x g it :
  wf g -> 0 <= grow ->
  cur (st g) = Some it -> pos it = cnt it ->
  exists g',
    write grow x g
    = Err (if decide (typ it = genStTop) then ErrGeneratorFinished
           else ErrGeneratorOverflow) g' /\
    w g' = w g /\ buf g' = buf g /\ bufn g' = bufn g /\ st g' = st g /\
    emitted g' = emitted g.
Proof.
  intros Hwf Hg Hc Hp.
  assert (He : (if decide (typ it = genStTop) then ErrGeneratorFinished
                else ErrGeneratorOverflow)
               = (if decide (sz (st g) = 1) then ErrGeneratorFinished
                  else ErrGeneratorOverflow)).
  { pose proof (wf_top g it Hwf Hc).
    repeat destruct (decide _); tauto. }
  rewrite He.
  destruct x; simpl;
    try (exists g; split; [|repeat split; reflexivity];
         first [ apply (checkState_bind_full g it); assumption
               | unfold Fixnum; destruct (decide (_ \/ _));
                 apply (checkState_bind_full g it); assumption ]).
  (* Symbol *)
  destruct Hwf as (_ & _ & _ & Hs).
  destruct (Symbol_grow_ok grow g Hg Hs) as (tbl & Hrun & _ & Hlen & _).
  unfold Symbol. rewrite (bind_Ok _ _ _ _ _ Hrun).
  unfold bind at 1, get.
  exists (set_symTbl tbl g). split; [|repeat split; reflexivity].
  rewrite (Symbol_scan_full _ _ _ it) by (simpl; try assumption; lia).
  reflexivity.
Qed.

Lemma copy_at_fits {A} (l : list A) i src :
  0 <= i -> i + len src <= len l ->
  copy_at l i src = Some (splice l (Z.to_nat i) src).
Proof.
  intros Hi Hr. unfold copy_at, len in *. rewrite decide_True by lia.
  unfold splice, copy.
  rewrite (take_ge src) by (rewrite length_drop; lia).
  rewrite drop_drop. reflexivity.
Qed.

Lemma putString_ok s g :
  0 <= bufn g -> bufn g + len s <= len (buf g) ->
  exists g', putString s g = Ok tt g' /\ appends g g' s /\
             len (buf g') = len (buf g).
Proof.
  intros Hb Hr. unfold putString. rewrite copy_at_fits by assumption.
  eexists. split; [reflexivity|]. unfold appends, len in *. simpl.
  rewrite splice_length by lia.
  repeat split; try reflexivity; try lia.
  replace (Z.to_nat (bufn g + Z.of_nat (length s)))
    with (Z.to_nat (bufn g) + length s)%nat by lia.
  apply splice_take. lia.
Qed.

Lemma wf_appends g g' bs :
  wf g -> appends g g' bs -> bufn g' <= len (buf g') -> wf g'.
Proof.
  unfold wf, appends. intros (?&?&?&?) (?&?&Hst&Hc&Ht&Hn&?&?) Hb.
  rewrite Hst, Hc, Ht. split; [assumption|]. split; [assumption|].
  split; [unfold len in *; lia|assumption].
Qed.

Lemma appends_cur g g' bs : appends g g' bs -> cur (st g') = cur (st g).
Proof. intros (_&_&->&_). reflexivity. Qed.

Lemma appends_symbols g g' bs : appends g g' bs -> symbols g' = symbols g.
Proof. unfold symbols. intros (_&_&_&->&->&_). reflexivity. Qed.

Lemma appends_bufn g g' bs :
  appends g g' bs -> bufn g' = bufn g + len bs /\ len (buf g) <= len (buf g').
Proof. intros (_&_&_&_&_&?&?&_). split; assumption. Qed.

Ltac zlen := unfold len in *; cbn [length] in *; lia.

(** The start of a value that is a tag and a packed long, as it is written
    ahead of whatever follows it. *)
Lemma put_tag_long_ok g it tag n size :
  wf g -> cur (st g) = Some it -> pos it <> cnt it ->
  - 2 ^ 32 <= n < 2 ^ 32 -> 1 + fixnumMaxBytes <= size ->
  exists g',
    appends g g' (tag :: packed_long n) /\
    bufn g + size <= len (buf g') /\
    (forall A (K : G A),
       (checkState size ;; putByte tag ;; encodeLong n ;; K) g = K g').
Proof.
  intros Hwf Hc Hp Hn Hsize. pose proof Hwf as (_ & _ & Hb & _).
  unfold fixnumMaxBytes in Hsize.
  destruct (checkState_ok g it size Hc Hp Hb ltac:(zlen))
    as (g1 & R1 & A1 & Hroom1).
  pose proof (appends_bufn _ _ _ A1) as [Hn1 Hl1].
  destruct (putByte_ok g1 tag ltac:(zlen)) as (g2 & R2 & A2 & L2).
  pose proof (appends_bufn _ _ _ A2) as [Hn2 _].
  destruct (encodeLong_ok n g2 Hn ltac:(zlen) ltac:(zlen))
    as (g3 & R3 & A3 & L3).
  exists g3. split; [|split].
  - exact (appends_trans _ _ _ _ _ A1 (appends_trans _ _ _ _ _ A2 A3)).
  - zlen.
  - intros A K. rewrite (bind_Ok _ _ _ _ _ R1), (bind_Ok _ _ _ _ _ R2).
    rewrite (bind_Ok _ _ _ _ _ R3). reflexivity.
Qed.

(** The same with the bytes of a string after the packed long, as [String],
    [Class], [Module'] and a new symbol are written. *)
Lemma put_tagged_ok g it tag n bs size :
  wf g -> cur (st g) = Some it -> pos it <> cnt it ->
  - 2 ^ 32 <= n < 2 ^ 32 -> 1 + fixnumMaxBytes + len bs <= size ->
  exists g',
    appends g g' (tag :: packed_long n ++ bs) /\
    bufn g' <= len (buf g') /\
    (forall A (K : G A),
       (checkState size ;; putByte tag ;; encodeLong n ;; putString bs ;; K) g
       = K g').
Proof.
  intros Hwf Hc Hp Hn Hsize.
  destruct (put_tag_long_ok g it tag n size Hwf Hc Hp Hn ltac:(zlen))
    as (g3 & A3 & Hroom & R3).
  pose proof (appends_bufn _ _ _ A3) as [Hn3 _].
  pose proof (packed_long_length n) as Hpl.
  pose proof Hwf as (_ & _ & Hb & _). unfold fixnumMaxBytes in Hsize.
  destruct (putString_ok bs g3 ltac:(zlen) ltac:(zlen)) as (g4 & R4 & A4 & L4).
  pose proof (appends_bufn _ _ _ A4) as [Hn4 _].
  exists g4. split; [|split].
  - replace (tag :: packed_long n ++ bs) with ((tag :: packed_long n) ++ bs)
      by reflexivity.
    exact (appends_trans _ _ _ _ _ A3 A4).
  - zlen.
  - intros A K. rewrite R3, (bind_Ok _ _ _ _ _ R4). reflexivity.
Qed.

Lemma frames_okb_sound k : forall i0 stk,
  frames_okb i0 stk k = true ->
  forall j x, (j < k)%nat -> stk !! j = Some x ->
              (typ x = genStTop <-> i0 + Z.of_nat j = 0).
Proof.
  induction k as [|k IH]; intros i0 stk H j x Hj Hx; [lia|].
  destruct stk as [|y rest]; [discriminate|].
  simpl in H. apply andb_prop in H as [H1 H2].
  apply bool_decide_eq_true in H1.
  destruct j as [|j]; simpl in Hx.
  - injection Hx as <-. rewrite Z.add_0_r. exact H1.
  - replace (i0 + Z.of_nat (S j)) with (i0 + 1 + Z.of_nat j) by lia.
    apply (IH _ _ H2 j x); [lia|exact Hx].
Qed.

Lemma wfb_wf g : wfb g = true -> wf g.
Proof.
  unfold wfb. intros H.
  apply andb_prop in H as [H H4]. apply andb_prop in H as [H H3].
  apply andb_prop in H as [H1 H2].
  apply bool_decide_eq_true in H1, H3, H4.
  split; [exact H1|]. split; [|split; assumption].
  intros i x Hi Hx. apply index_Some in Hx as [_ Hx].
  pose proof (frames_okb_sound _ _ _ H2 (Z.to_nat i) x ltac:(lia) Hx) as E.
  rewrite E. lia.
Qed.

Lemma push_ok t n g :
  wf g -> t <> genStTop ->
  exists s,
    push t n g = Ok tt (set_st s g) /\
    sz s = sz (st g) + 1 /\
    cur s = Some (GenStateItem n 0 t) /\
    (forall i, 0 <= i < sz (st g) -> index (stack s) i = index (stack (st g)) i) /\
    wf (set_st s g).
Proof.
  intros (Hsz & Hfr & Hb & Hs) Ht. unfold push, push_state.
  set (stk := if decide _ then _ else _).
  assert (Hstk : sz (st g) < len stk /\
                 forall i, (i < Z.to_nat (sz (st g)))%nat -> stk !! i = stack (st g) !! i).
  { subst stk. destruct (decide _) as [E|NE].
    - unfold len, genStateGrowSize in *. rewrite copy_length, length_replicate.
      split; [lia|]. intros i Hi. unfold copy.
      rewrite length_replicate, take_ge by lia.
      apply lookup_app_l. lia.
    - split; [zlen|]. reflexivity. }
  destruct Hstk as [Hlen Hsame].
  rewrite store_Some by lia.
  eexists. split; [reflexivity|]. simpl.
  split; [reflexivity|]. split; [|split].
  - rewrite cur_index by (simpl; lia). simpl.
    replace (sz (st g) + 1 - 1) with (sz (st g)) by lia.
    unfold index. rewrite decide_True by lia.
    apply list_lookup_insert_eq. zlen.
  - intros i Hi. unfold index. rewrite !decide_True by lia.
    rewrite list_lookup_insert_ne by lia. apply Hsame. lia.
  - unfold wf. simpl. unfold len in *. rewrite length_insert.
    split; [lia|]. split; [|split; assumption].
    intros i x Hi Hx. apply index_Some in Hx as [_ Hx].
    destruct (decide (i = sz (st g))) as [->|Hne].
    + rewrite list_lookup_insert_eq in Hx by lia. injection Hx as <-. simpl.
      split; [contradiction|lia].
    + rewrite list_lookup_insert_ne in Hx by lia.
      rewrite Hsame in Hx by lia.
      apply (Hfr i x); [lia|]. apply index_Some. split; [lia|exact Hx].
Qed.

Lemma StartArray_ok l g it :
  wf g -> cur (st g) = Some it -> pos it <> cnt it ->
  - 2 ^ 32 <= l < 2 ^ 32 ->
  exists g',
    StartArray l g = Ok tt g' /\
    emitted g' = emitted g ++ TYPE_ARRAY :: packed_long l /\
    w g' = w g /\ symbols g' = symbols g /\ symCount g' = symCount g /\
    sz (st g') = sz (st g) + 1 /\
    cur (st g') = Some (GenStateItem l 0 genStArr) /\
    (forall i, 0 <= i < sz (st g) ->
               index (stack (st g')) i = index (stack (st g)) i) /\
    wf g'.
Proof.
  intros Hwf Hc Hp Hl. unfold StartArray.
  destruct (put_tag_long_ok g it TYPE_ARRAY l (1 + fixnumMaxBytes)
              Hwf Hc Hp Hl ltac:(lia)) as (g1 & A1 & Hroom & R1).
  rewrite R1.
  pose proof (appends_bufn _ _ _ A1) as [Hn1 _].
  pose proof (packed_long_length l) as Hpl.
  assert (Hwf1 : wf g1).
  { apply (wf_appends g g1 _ Hwf A1). unfold fixnumMaxBytes in *. zlen. }
  destruct (push_ok genStArr l g1 Hwf1 ltac:(discriminate))
    as (s & R & Hsz & Hcur & Hsame & Hwf').
  exists (set_st s g1). split; [exact R|].
  pose proof A1 as (Hw1 & _ & Hst1 & Hsc1 & Htb1 & _).
  rewrite Hst1 in *.
  split; [exact (appends_emitted _ _ _ A1)|].
  split; [exact Hw1|].
  split; [exact (appends_symbols _ _ _ A1)|].
  split; [exact Hsc1|]. simpl.
  split; [exact Hsz|]. split; [exact Hcur|]. split; [exact Hsame|exact Hwf'].
Qed.

Lemma Symbol_scan_spec k : forall i g sym miss,
  0 <= i -> i + Z.of_nat k <= len (symTbl g) ->
  Symbol_scan k i sym miss g
  = match list_find (fun t => t = sym) (take k (drop (Z.to_nat i) (symTbl g))) with
    | Some (j, _) =>
        (checkState (1 + fixnumMaxBytes) ;; putByte TYPE_SYMLINK ;;
         encodeLong (i + Z.of_nat j) ;; writeAdv) g
    | None => miss g
    end.
Proof.
  induction k as [|k IH]; intros i g sym miss Hi Hlen; [reflexivity|].
  simpl. unfold bind at 1, get.
  destruct (index_lt (symTbl g) i) as [s Hs]; [zlen|]. rewrite Hs.
  apply index_Some in Hs as [_ Hs].
  rewrite (drop_S _ _ _ Hs). simpl.
  destruct (decide (s = sym)) as [->|Hne].
  - rewrite Z.add_0_r. reflexivity.
  - rewrite IH by zlen.
    replace (Z.to_nat (i + 1)) with (S (Z.to_nat i)) by lia.
    destruct (list_find _ _) as [[j x]|]; simpl; [|reflexivity].
    replace (i + 1 + Z.of_nat j) with (i + Z.of_nat (S j)) by lia.
    reflexivity.
Qed.

Lemma symbol_id_lt tbl s id : symbol_id tbl s = Some id -> 0 <= id < len tbl.
Proof.
  unfold symbol_id. destruct (list_find _ _) as [[j x]|] eqn:E; [|discriminate].
  intros [= <-]. apply list_find_Some in E as (E & _).
  apply lookup_lt_Some in E. zlen.
Qed.

Lemma Symbol_step grow sym g it :
  wf g -> 0 < grow -> cur (st g) = Some it -> pos it <> cnt it ->
  symCount g < 2 ^ 32 -> len (str_bytes sym) < 2 ^ 32 ->
  exists g',
    Symbol grow sym g = Ok tt g' /\
    emitted g' = emitted g ++ symbol_wire (symbols g) sym /\
    symbols g' = symbol_seen (symbols g) sym /\
    st g' = GenState (<[Z.to_nat (sz (st g) - 1) :=
                          GenStateItem (cnt it) (pos it + 1) (typ it)]>
                        (stack (st g))) (sz (st g)) /\
    (pos it + 1 = cnt it -> sz (st g) = 1 -> w g' = emitted g') /\
    (sz (st g) <> 1 -> w g' = w g) /\
    wf g'.
Proof.
  intros Hwf Hg Hc Hp Hcount Hlen.
  pose proof Hwf as (Hsz & Hfr & Hb & Hs).
  destruct (Symbol_grow_ok grow g ltac:(lia) Hs) as (tbl & Hrun & Htk & Hl & Hroom).
  specialize (Hroom Hg).
  unfold Symbol. rewrite (bind_Ok _ _ _ _ _ Hrun).
  unfold bind at 1, get.
  set (g0 := set_symTbl tbl g).
  assert (Hwf0 : wf g0).
  { unfold wf. simpl. split; [assumption|]. split; [assumption|].
    split; [assumption|lia]. }
  assert (Hem0 : emitted g0 = emitted g) by reflexivity.
  rewrite Symbol_scan_spec by (simpl; zlen).
  change (Z.to_nat 0) with 0%nat. rewrite drop_0. simpl symTbl. simpl symCount.
  rewrite Htk. unfold symbol_wire, symbol_seen.
  pose proof (symbol_id_lt (symbols g) sym) as Hid.
  unfold symbol_id in *.
  destruct (list_find _ (symbols g)) as [[j x]|] eqn:Hfind.
  - (* a symlink *)
    specialize (Hid _ eq_refl).
    assert (Z.of_nat j < symCount g).
    { unfold symbols in Hid. unfold len in Hid. rewrite length_take in Hid. lia. }
    rewrite Z.add_0_l.
    destruct (put_tag_long_ok g0 it TYPE_SYMLINK (Z.of_nat j) (1 + fixnumMaxBytes)
                Hwf0 Hc Hp ltac:(lia) ltac:(lia)) as (g1 & A1 & Hroom1 & R1).
    rewrite R1.
    pose proof (appends_bufn _ _ _ A1) as [Hn1 _].
    pose proof (packed_long_length (Z.of_nat j)) as Hpl.
    assert (Hwf1 : wf g1).
    { apply (wf_appends g0 g1 _ Hwf0 A1). unfold fixnumMaxBytes in *. zlen. }
    assert (Hc1 : cur (st g1) = Some it)
      by (rewrite (appends_cur _ _ _ A1); exact Hc).
    destruct (writeAdv_ok g1 it Hwf1 Hc1)
      as (g' & R & Hem & Hst & Hsc & Hstb & Hflush & Hkeep & Hwf').
    exists g'. split; [exact R|].
    pose proof A1 as (Hw1 & _ & Hst1 & Hsc1 & Htb1 & _).
    rewrite Hst1 in *. simpl st in *.
    split; [rewrite Hem, (appends_emitted _ _ _ A1); reflexivity|].
    split; [unfold symbols; rewrite Hsc, Hstb, Hsc1, Htb1; exact Htk|].
    split; [exact Hst|].
    split; [intros; rewrite Hem; apply Hflush; assumption|].
    split; [intros; rewrite Hkeep by assumption; exact Hw1|exact Hwf'].
  - (* a new symbol *)
    clear Hid. unfold Symbol_new.
    destruct (put_tagged_ok g0 it TYPE_SYMBOL (len (str_bytes sym))
                (str_bytes sym) (1 + fixnumMaxBytes + len (str_bytes sym))
                Hwf0 Hc Hp ltac:(zlen) ltac:(lia)) as (g1 & A1 & Hroom1 & R1).
    rewrite R1.
    pose proof A1 as (Hw1 & _ & Hst1 & Hsc1 & Htb1 & _).
    simpl in Hsc1, Htb1.
    unfold bind at 1, get. unfold bind at 1.
    rewrite Htb1, Hsc1. rewrite store_Some by lia. unfold put.
    set (g2 := set_symCount _ _).
    assert (Hwf1 : wf g1) by (apply (wf_appends g0 g1 _ Hwf0 A1); exact Hroom1).
    assert (Hwf2 : wf g2).
    { destruct Hwf1 as (?&?&?&?). unfold wf. subst g2. simpl.
      split; [assumption|]. split; [assumption|]. split; [assumption|].
      unfold len. rewrite length_insert. zlen. }
    assert (Hc2 : cur (st g2) = Some it).
    { subst g2. simpl. rewrite Hst1. exact Hc. }
    destruct (writeAdv_ok g2 it Hwf2 Hc2)
      as (g' & R & Hem & Hst & Hsc & Hstb & Hflush & Hkeep & Hwf').
    exists g'. split; [exact R|].
    assert (Hem2 : emitted g2 = emitted g1) by reflexivity.
    subst g2. simpl in Hst, Hsc, Hstb, Hflush, Hkeep. rewrite Hst1 in *.
    simpl st in *.
    split; [rewrite Hem, Hem2, (appends_emitted _ _ _ A1); reflexivity|].
    split.
    { unfold symbols. rewrite Hsc, Hstb.
      replace (Z.to_nat (symCount g + 1)) with (S (Z.to_nat (symCount g))) by lia.
      erewrite take_S_r by (apply list_lookup_insert_eq; zlen).
      rewrite take_insert_ge by lia.
      fold (symbols g). rewrite <- Htk. reflexivity. }
    split; [exact Hst|].
    split; [intros; rewrite Hem; apply Hflush; assumption|].
    split; [intros; rewrite Hkeep by assumption; exact Hw1|exact Hwf'].
Qed.

Lemma symbols_length g : wf g -> len (symbols g) = symCount g.
Proof.
  intros (_ & _ & _ & Hs). unfold symbols, len in *. rewrite length_take. lia.
Qed.

Lemma symbol_seen_length tbl s : len (symbol_seen tbl s) <= len tbl + 1.
Proof.
  unfold symbol_seen. destruct (symbol_id tbl s); unfold len;
    rewrite ?length_app; simpl; lia.
Qed.

Lemma Symbols_run grow l : forall g it,
  wf g -> 0 < grow -> cur (st g) = Some it -> sz (st g) <> 1 ->
  0 <= pos it -> pos it + len l <= cnt it ->
  symCount g + len l < 2 ^ 32 ->
  Forall (fun s => len (str_bytes s) < 2 ^ 32) l ->
  exists g',
    Symbols grow l g = Ok tt g' /\
    emitted g' = emitted g ++ symbols_wire (symbols g) l /\
    cur (st g') = Some (GenStateItem (cnt it) (pos it + len l) (typ it)) /\
    sz (st g') = sz (st g) /\
    (forall i, 0 <= i < sz (st g) - 1 ->
               index (stack (st g')) i = index (stack (st g)) i) /\
    w g' = w g /\
    wf g'.
Proof.
  induction l as [|s l IH]; intros g it Hwf Hg Hc Hsz Hpos Hroom Hcount Hall.
  - exists g. simpl. rewrite app_nil_r.
    replace (pos it + len []) with (pos it) by zlen.
    split; [reflexivity|]. split; [reflexivity|].
    split; [rewrite Hc; destruct it; reflexivity|].
    split; [reflexivity|]. split; [reflexivity|]. split; [reflexivity|assumption].
  - apply Forall_cons in Hall as [Hs Hall].
    destruct (Symbol_step grow s g it Hwf Hg Hc ltac:(zlen) ltac:(zlen) Hs)
      as (g1 & R1 & Hem1 & Hsym1 & Hst1 & _ & Hw1 & Hwf1).
    simpl. rewrite (bind_Ok _ _ _ _ _ R1).
    pose proof Hwf as (Hszr & _).
    assert (Hc1 : cur (st g1) = Some (GenStateItem (cnt it) (pos it + 1) (typ it))).
    { rewrite Hst1. apply cur_insert. lia. }
    pose proof (symbols_length g Hwf) as Hlg.
    pose proof (symbols_length g1 Hwf1) as Hlg1.
    pose proof (symbol_seen_length (symbols g) s) as Hss.
    rewrite <- Hsym1 in Hss.
    destruct (IH g1 _ Hwf1 Hg Hc1) as (g' & R & Hem & Hc' & Hsz' & Hsame & Hw & Hwf');
      try (rewrite Hst1; simpl; zlen); try (simpl; zlen); try assumption.
    exists g'. split; [exact R|].
    split; [rewrite Hem, Hem1, Hsym1, <- app_assoc; reflexivity|].
    split; [rewrite Hc'; simpl; do 2 f_equal; zlen|].
    split; [rewrite Hsz', Hst1; reflexivity|].
    split; [|split; [rewrite Hw; apply Hw1; assumption|exact Hwf']].
    intros i Hi. rewrite Hsame by (rewrite Hst1; simpl; lia).
    rewrite Hst1. simpl. unfold index. destruct (decide (0 <= i)); [|reflexivity].
    apply list_lookup_insert_ne. lia.
Qed.

Lemma NewGenerator_ok :
  exists g, NewGenerator = Ok tt g /\ wf g /\
            cur (st g) = Some (GenStateItem 1 0 genStTop) /\ sz (st g) = 1 /\
            emitted g = [4; 8] /\ w g = [] /\ symCount g = 0.
Proof.
  eexists. split; [vm_compute; reflexivity|].
  split; [apply wfb_wf; vm_compute; reflexivity|].
  repeat apply conj; vm_compute; reflexivity.
Qed.

Lemma symbol_array_stream grow l :
  0 < grow -> len l < 2 ^ 31 ->
  Forall (fun s => len (str_bytes s) < 2 ^ 31) l ->
  sink (symbol_array grow l)
  = Some ([4; 8; TYPE_ARRAY] ++ packed_long (len l) ++ symbols_wire [] l).
Proof.
  intros Hg Hlen Hall.
  destruct NewGenerator_ok as (g0 & R0 & Hwf0 & Hc0 & Hsz0 & Hem0 & Hw0 & Hsc0).
  unfold symbol_array. rewrite R0. simpl and_then.
  destruct (StartArray_ok (len l) g0 _ Hwf0 Hc0 ltac:(simpl; lia) ltac:(zlen))
    as (g1 & R1 & Hem1 & Hw1 & Hsym1 & Hsc1 & Hsz1 & Hc1 & Hsame1 & Hwf1).
  rewrite (bind_Ok _ _ _ _ _ R1).
  destruct (Symbols_run grow l g1 _ Hwf1 Hg Hc1)
    as (g2 & R2 & Hem2 & Hc2 & Hsz2 & Hsame2 & Hw2 & Hwf2);
    try (simpl; zlen).
  { eapply Forall_impl; [exact Hall|]. simpl. intros; lia. }
  rewrite (bind_Ok _ _ _ _ _ R2). simpl in Hc2.
  rewrite (EndArray_run g2 _ Hwf2 Hc2). simpl.
  rewrite decide_False by lia.
  destruct (pop_writeAdv_ok g2 _ Hwf2 Hc2 ltac:(discriminate))
    as (g3 & R3 & _ & Hem3 & Hflush & _).
  rewrite R3. simpl. f_equal.
  assert (Htop : index (stack (st g2)) 0 = Some (GenStateItem 1 0 genStTop)).
  { rewrite Hsame2 by lia. rewrite Hsame1 by lia.
    rewrite <- Hc0. rewrite cur_index by lia. rewrite Hsz0. reflexivity. }
  rewrite (Hflush ltac:(lia) _ Htop eq_refl).
  rewrite Hem2, Hem1, Hem0, Hsym1.
  replace (symbols g0) with (@nil string)
    by (unfold symbols; rewrite Hsc0; reflexivity).
  rewrite <- app_assoc. reflexivity.
Qed.

Lemma symbol_id_new tbl s :
  symbol_id tbl s = None -> symbol_id (symbol_seen tbl s) s = Some (len tbl).
Proof.
  unfold symbol_seen. intros H. rewrite H. revert H. unfold symbol_id.
  destruct (list_find _ tbl) as [[j x]|] eqn:E; [discriminate|]. intros _.
  assert (E' : list_find (fun t => t = s) (tbl ++ [s]) = Some (length tbl, s)).
  { apply list_find_app_Some. right. split; [lia|]. split; [exact E|].
    rewrite Nat.sub_diag. simpl. rewrite decide_True by reflexivity. reflexivity. }
  rewrite E'. reflexivity.
Qed.

Lemma symbol_id_stable tbl s t id :
  symbol_id tbl s = Some id -> symbol_id (symbol_seen tbl t) s = Some id.
Proof.
  unfold symbol_seen. destruct (symbol_id tbl t); [auto|].
  unfold symbol_id. destruct (list_find _ tbl) as [[j x]|] eqn:E; [|discriminate].
  intros [= <-].
  assert (E' : list_find (fun u => u = s) (tbl ++ [t]) = Some (j, x)).
  { apply list_find_app_Some. left. exact E. }
  rewrite E'. reflexivity.
Qed.

Lemma symbol_id_lookup tbl s id :
  symbol_id tbl s = Some id -> index tbl id = Some s.
Proof.
  unfold symbol_id. destruct (list_find _ tbl) as [[j x]|] eqn:E; [|discriminate].
  intros [= <-]. apply list_find_Some in E as (E & -> & _).
  apply index_Some. split; [lia|]. rewrite Nat2Z.id. exact E.
Qed.

Lemma Reset_symbols g g' : Reset g = Ok tt g' -> symbols g' = [].
Proof.
  unfold Reset, reset_state, bind, modify, push, setBuf. simpl.
  destruct (push_state _ _ _); [|discriminate]. simpl.
  destruct (store (buf g) 0 4); [|discriminate]. simpl.
  destruct (store l 1 8); [|discriminate]. simpl.
  intros [= <-]. reflexivity.
Qed.

(** C2. In one stream the symbol table starts empty; [Symbol] writes a string
    that is not in the table as the symbol tag, its length and its bytes, and
    gives it the next id, the ids starting at 0 in the order of first
    appearance; it writes a string that is in the table as the symlink tag
    and the id the string got when it first appeared, and ids never change.
    The array of the symbols [l] is written as its tag, its length and the
    symbols in that form; for [:foo, :bar, :bar, :foo] that is
    04 08 5B 09 3A 08 66 6F 6F 3A 08 62 61 72 3B 06 3B 00. *)
Theorem symbols_get_ids_by_first_appearance grow :
  0 < grow ->
  (forall g g', Reset g = Ok tt g' -> symbols g' = []) /\
  (forall sym g it,
     wf g -> cur (st g) = Some it -> pos it <> cnt it ->
     symCount g < 2 ^ 32 -> len (str_bytes sym) < 2 ^ 32 ->
     exists g',
       Symbol grow sym g = Ok tt g' /\
       emitted g' = emitted g ++ symbol_wire (symbols g) sym /\
       symbols g' = symbol_seen (symbols g) sym) /\
  (forall tbl s,
     symbol_id tbl s = None ->
     symbol_wire tbl s
       = TYPE_SYMBOL :: packed_long (len (str_bytes s)) ++ str_bytes s /\
     symbol_id (symbol_seen tbl s) s = Some (len tbl)) /\
  (forall tbl s id,
     symbol_id tbl s = Some id ->
     symbol_wire tbl s = TYPE_SYMLINK :: packed_long id /\
     index tbl id = Some s /\
     forall t, symbol_id (symbol_seen tbl t) s = Some id) /\
  (forall l,
     len l < 2 ^ 31 -> Forall (fun s => len (str_bytes s) < 2 ^ 31) l ->
     sink (symbol_array grow l)
     = Some ([4; 8; TYPE_ARRAY] ++ packed_long (len l) ++ symbols_wire [] l)) /\
  sink (symbol_array grow ["foo"; "bar"; "bar"; "foo"]%string)
  = Some [4; 8; 91; 9; 58; 8; 102; 111; 111; 58; 8; 98; 97; 114; 59; 6; 59; 0].
Proof.
  intros Hg.
  split; [exact Reset_symbols|].
  split.
  { intros sym g it Hwf Hc Hp Hn Hl.
    destruct (Symbol_step grow sym g it Hwf Hg Hc Hp Hn Hl)
      as (g' & R & Hem & Hsym & _).
    exists g'. auto. }
  split.
  { intros tbl s H. split; [unfold symbol_wire; rewrite H; reflexivity|].
    apply symbol_id_new; exact H. }
  split.
  { intros tbl s id H. split; [unfold symbol_wire; rewrite H; reflexivity|].
    split; [apply symbol_id_lookup; exact H|].
    intros t. apply symbol_id_stable; exact H. }
  split; [intros l; apply symbol_array_stream; exact Hg|].
  rewrite symbol_array_stream; [vm_compute; reflexivity|exact Hg|vm_compute; reflexivity|].
  repeat constructor; vm_compute; reflexivity.
Qed.

Lemma symbols_get_ids_by_first_appearance_witness :
  0 < 8 /\
  sink (symbol_array 8 ["foo"; "bar"; "bar"; "foo"]%string)
  = Some [4; 8; 91; 9; 58; 8; 102; 111; 111; 58; 8; 98; 97; 114; 59; 6; 59; 0].
Proof.
  split; [lia|].
  apply (symbols_get_ids_by_first_appearance 8). lia.
Defined.

(** ** Instances *)

Lemma in_empty_array_wf : wf in_empty_array.
Proof. apply wfb_wf. vm_compute. reflexivity. Qed.

Lemma finished_wf : wf finished.
Proof. apply wfb_wf. vm_compute. reflexivity. Qed.

(** [EndArray] closes the empty array, [EndHash] does not. *)
Lemma End_closes_full_matching_frame_witness :
  wf in_empty_array /\
  cur (st in_empty_array) = Some (GenStateItem 0 0 genStArr) /\
  ((exists g', EndArray in_empty_array = Ok tt g') <->
   typ (GenStateItem 0 0 genStArr) = genStArr /\
   pos (GenStateItem 0 0 genStArr) = cnt (GenStateItem 0 0 genStArr)) /\
  EndHash in_empty_array
  = Err (ErrNew "EndHash() called outside of context of hash") in_empty_array.
Proof.
  split; [exact in_empty_array_wf|]. split; [reflexivity|].
  pose proof (End_closes_full_matching_frame in_empty_array
                (GenStateItem 0 0 genStArr) in_empty_array_wf eq_refl)
    as [(_ & _ & HA & _) (HH & _)].
  split; [exact HA|]. apply HH. discriminate.
Defined.

(** A write into the empty array overflows. *)
Lemma full_frame_rejects_write_witness :
  wf in_empty_array /\ 0 <= 8 /\
  cur (st in_empty_array) = Some (GenStateItem 0 0 genStArr) /\
  pos (GenStateItem 0 0 genStArr) = cnt (GenStateItem 0 0 genStArr) /\
  exists g',
    write 8 (CSymbol "foo") in_empty_array = Err ErrGeneratorOverflow g' /\
    w g' = w in_empty_array /\ buf g' = buf in_empty_array /\
    bufn g' = bufn in_empty_array /\ st g' = st in_empty_array /\
    emitted g' = emitted in_empty_array.
Proof.
  split; [exact in_empty_array_wf|]. split; [lia|].
  split; [reflexivity|]. split; [reflexivity|].
  exact (full_frame_rejects_write 8 (CSymbol "foo") in_empty_array
           (GenStateItem 0 0 genStArr) in_empty_array_wf ltac:(lia)
           eq_refl eq_refl).
Defined.

(** A write after the value of the top level is refused as finished. *)
Lemma finished_rejects_write :
  exists g',
    write 8 (CFixnum 1) finished = Err ErrGeneratorFinished g' /\
    emitted g' = emitted finished.
Proof.
  destruct (full_frame_rejects_write 8 (CFixnum 1) finished
              (GenStateItem 1 1 genStTop) finished_wf ltac:(lia)
              eq_refl eq_refl) as (g' & R & _ & _ & _ & _ & E).
  exists g'. split; [exact R|exact E].
Qed.

End generator_proofs.

(** ** The values the generator writes *)

Module generator_values.
Import generator generator_proofs.

Lemma size_word_bytes k last d : size_word k last d = len (word_bytes k last d).
Proof.
  revert d. induction k as [|k IH]; intros d; [reflexivity|].
  cbn [size_word word_bytes]. destruct (decide _); [reflexivity|].
  rewrite IH. zlen.
Qed.

Lemma size_words_bytes bits : forall i l,
  size_words i l bits = len (words_bytes i l bits).
Proof.
  induction bits as [|d rest IH]; intros i l; [reflexivity|].
  cbn [size_words words_bytes].
  rewrite size_word_bytes, IH. unfold len. rewrite length_app. lia.
Qed.

Lemma put_word_ok k last : forall d g,
  0 <= bufn g -> bufn g + len (word_bytes k last d) <= len (buf g) ->
  exists g', put_word k last d g = Ok (len (word_bytes k last d)) g' /\
             appends g g' (word_bytes k last d) /\
             len (buf g') = len (buf g).
Proof.
  induction k as [|k IH]; intros d g Hb Hroom.
  - exists g. split; [reflexivity|]. split; [apply appends_refl|reflexivity].
  - cbn [put_word word_bytes] in *.
    destruct (putByte_ok g (byte d) ltac:(zlen)) as (g1 & R1 & A1 & L1).
    rewrite (bind_Ok _ _ _ _ _ R1).
    pose proof (appends_bufn _ _ _ A1) as [Hn1 _].
    destruct (decide _).
    + exists g1. split; [reflexivity|]. split; assumption.
    + destruct (IH (Z.shiftr d 8) g1 ltac:(zlen) ltac:(zlen))
        as (g2 & R2 & A2 & L2).
      rewrite (bind_Ok _ _ _ _ _ R2). exists g2.
      split; [unfold ret; f_equal; zlen|].
      split; [exact (appends_trans _ _ _ _ _ A1 A2)|congruence].
Qed.

Lemma word_bytes_length k last d : (length (word_bytes k last d) <= k)%nat.
Proof.
  revert d. induction k as [|k IH]; intros d; cbn [word_bytes length]; [lia|].
  destruct (decide _); cbn [length]; [lia|]. specialize (IH (Z.shiftr d 8)). lia.
Qed.

Lemma words_bytes_length bits : forall i l,
  len (words_bytes i l bits) <= _S * len bits.
Proof.
  induction bits as [|d rest IH]; intros i l; [reflexivity|].
  cbn [words_bytes]. specialize (IH (i + 1) l).
  pose proof (word_bytes_length (Z.to_nat _S) (bool_decide (i = l - 1)) d) as H.
  revert H IH. generalize (word_bytes (Z.to_nat _S) (bool_decide (i = l - 1)) d).
  intros bs H IH. unfold len in *. rewrite length_app. cbn [length].
  change (Z.to_nat _S) with 8%nat in H. change _S with 8 in *. lia.
Qed.

Lemma put_words_ok bits : forall i l g,
  0 <= bufn g -> bufn g + len (words_bytes i l bits) <= len (buf g) ->
  exists g', put_words i l bits g = Ok (len (words_bytes i l bits)) g' /\
             appends g g' (words_bytes i l bits) /\
             len (buf g') = len (buf g).
Proof.
  induction bits as [|d rest IH]; intros i l g Hb Hroom.
  - exists g. split; [reflexivity|]. split; [apply appends_refl|reflexivity].
  - cbn [put_words words_bytes] in *.
    revert Hroom.
    generalize (put_word_ok (Z.to_nat _S) (bool_decide (i = l - 1)) d g Hb).
    generalize (put_word (Z.to_nat _S) (bool_decide (i = l - 1)) d).
    generalize (word_bytes (Z.to_nat _S) (bool_decide (i = l - 1)) d).
    intros bs pw Hpw Hroom. unfold len in Hroom. rewrite length_app in Hroom.
    destruct (Hpw ltac:(zlen)) as (g1 & R1 & A1 & L1).
    rewrite (bind_Ok _ _ _ _ _ R1).
    pose proof (appends_bufn _ _ _ A1) as [Hn1 _].
    destruct (IH (i + 1) l g1 ltac:(zlen) ltac:(zlen)) as (g2 & R2 & A2 & L2).
    rewrite (bind_Ok _ _ _ _ _ R2). exists g2.
    split; [unfold ret; f_equal; unfold len; rewrite length_app; lia|].
    split; [exact (appends_trans _ _ _ _ _ A1 A2)|congruence].
Qed.

Lemma put_pad_ok k : forall g,
  0 <= bufn g -> bufn g + Z.of_nat k <= len (buf g) ->
  exists g', put_pad k g = Ok tt g' /\ appends g g' (replicate k 0) /\
             len (buf g') = len (buf g).
Proof.
  induction k as [|k IH]; intros g Hb Hroom.
  - exists g. split; [reflexivity|]. split; [apply appends_refl|reflexivity].
  - cbn [put_pad replicate].
    destruct (putByte_ok g 0 ltac:(zlen)) as (g1 & R1 & A1 & L1).
    rewrite (bind_Ok _ _ _ _ _ R1).
    pose proof (appends_bufn _ _ _ A1) as [Hn1 _].
    destruct (IH g1 ltac:(zlen) ltac:(zlen)) as (g2 & R2 & A2 & L2).
    exists g2. split; [exact R2|].
    split; [exact (appends_trans _ _ _ _ _ A1 A2)|congruence].
Qed.

Lemma byte_range d : 0 <= byte d < 256.
Proof. unfold byte. apply Z.mod_pos_bound. lia. Qed.

Lemma le_value_app a b :
  le_value (a ++ b) = le_value a + 256 ^ len a * le_value b.
Proof.
  induction a as [|x a IH]; cbn [le_value app].
  - change (len []) with 0. rewrite Z.pow_0_r. lia.
  - rewrite IH. replace (len (x :: a)) with (Z.succ (len a)) by zlen.
    rewrite Z.pow_succ_r by zlen. lia.
Qed.

Lemma le_value_nonneg bs :
  Forall (fun x => 0 <= x < 256) bs -> 0 <= le_value bs < 256 ^ len bs.
Proof.
  induction 1 as [|x bs Hx _ IH]; cbn [le_value].
  - change (len []) with 0. rewrite Z.pow_0_r. lia.
  - replace (len (x :: bs)) with (Z.succ (len bs)) by zlen.
    rewrite Z.pow_succ_r by zlen. lia.
Qed.

Lemma word_bytes_false k : forall d,
  0 <= d < 256 ^ Z.of_nat k ->
  Forall (fun x => 0 <= x < 256) (word_bytes k false d) /\
  le_value (word_bytes k false d) = d /\
  length (word_bytes k false d) = k.
Proof.
  induction k as [|k IH]; intros d Hd.
  - change (Z.of_nat 0) with 0 in Hd. rewrite Z.pow_0_r in Hd.
    cbn [word_bytes le_value length]. split; [constructor|]. split; lia.
  - rewrite Nat2Z.inj_succ, Z.pow_succ_r in Hd by lia.
    cbn [word_bytes]. rewrite decide_False by (intros [_ ?]; discriminate).
    rewrite shiftr8.
    destruct (IH (d / 256)) as (F & V & L).
    { split; [apply Z.div_pos; lia|apply Z.div_lt_upper_bound; lia]. }
    cbn [le_value length]. rewrite V, L.
    split; [constructor; [apply byte_range|exact F]|].
    split; [unfold byte; pose proof (Z.div_mod d 256); lia|reflexivity].
Qed.

Lemma word_bytes_true k : forall d,
  0 < d < 256 ^ Z.of_nat k -> min_le_bytes (word_bytes k true d) d.
Proof.
  induction k as [|k IH]; intros d Hd.
  - change (Z.of_nat 0) with 0 in Hd. rewrite Z.pow_0_r in Hd. lia.
  - rewrite Nat2Z.inj_succ, Z.pow_succ_r in Hd by lia.
    cbn [word_bytes]. rewrite shiftr8.
    pose proof (Z.div_mod d 256 ltac:(lia)) as E.
    pose proof (Z.mod_pos_bound d 256 ltac:(lia)) as B.
    destruct (decide _) as [[Hz _]|Hnz].
    + unfold min_le_bytes. cbn [le_value last]. unfold byte.
      split; [repeat constructor; lia|]. split; [lia|].
      intros [= H]. lia.
    + assert (Hq : 0 < d / 256 < 256 ^ Z.of_nat k).
      { assert (d / 256 <> 0) by (intros H; apply Hnz; auto).
        pose proof (Z.div_pos d 256 ltac:(lia) ltac:(lia)).
        split; [lia|apply Z.div_lt_upper_bound; lia]. }
      destruct (IH _ Hq) as (F & V & L).
      unfold min_le_bytes. cbn [le_value]. rewrite V.
      split; [constructor; [apply byte_range|exact F]|].
      split; [unfold byte; lia|].
      destruct (word_bytes k true (d / 256)) as [|y ys] eqn:Ew.
      * cbn [le_value] in V. lia.
      * exact L.
Qed.

Lemma wordBase_pos : 0 < wordBase.
Proof. reflexivity. Qed.

Lemma words_of_spec k : forall m,
  0 <= m < wordBase ^ Z.of_nat k ->
  Forall (fun x => 0 <= x < wordBase) (words_of k m) /\
  words_value (words_of k m) = m /\
  last (words_of k m) <> Some 0.
Proof.
  pose proof wordBase_pos as Hw.
  induction k as [|k IH]; intros m Hm.
  - change (Z.of_nat 0) with 0 in Hm. rewrite Z.pow_0_r in Hm.
    cbn [words_of words_value last]. split; [constructor|]. split; [lia|discriminate].
  - rewrite Nat2Z.inj_succ, Z.pow_succ_r in Hm by lia.
    cbn [words_of]. destruct (decide (m = 0)) as [->|Hnz].
    + cbn [words_value last]. split; [constructor|]. split; [lia|discriminate].
    + pose proof (Z.div_mod m wordBase ltac:(lia)) as E.
      pose proof (Z.mod_pos_bound m wordBase ltac:(lia)) as B.
      destruct (IH (m / wordBase)) as (F & V & L).
      { split; [apply Z.div_pos; lia|apply Z.div_lt_upper_bound; lia]. }
      cbn [words_value]. rewrite V.
      split; [constructor; assumption|]. split; [lia|].
      destruct (words_of k (m / wordBase)) as [|y ys] eqn:Ew.
      * cbn [words_value] in V. cbn [last]. intros [= H]. lia.
      * exact L.
Qed.

Lemma Bits_spec b :
  Forall (fun x => 0 <= x < wordBase) (Bits b) /\
  words_value (Bits b) = Z.abs b /\
  last (Bits b) <> Some 0.
Proof.
  unfold Bits. apply words_of_spec. split; [lia|].
  destruct (decide (Z.abs b = 0)) as [->|Hnz].
  - apply Z.pow_pos_nonneg; [reflexivity|lia].
  - pose proof (Z.log2_nonneg (Z.abs b)).
    pose proof (Z.log2_spec (Z.abs b) ltac:(lia)) as [_ Hlt].
    eapply Z.lt_le_trans; [exact Hlt|].
    unfold wordBase. change (8 * _S) with 64.
    rewrite <- Z.pow_mul_r by lia.
    apply Z.pow_le_mono_r; lia.
Qed.

Lemma word_bytes_nonempty k last d : word_bytes (S k) last d <> [].
Proof. cbn [word_bytes]. discriminate. Qed.

Lemma words_bytes_spec ws : forall i l,
  l = i + len ws ->
  Forall (fun x => 0 <= x < wordBase) ws -> last ws <> Some 0 ->
  min_le_bytes (words_bytes i l ws) (words_value ws).
Proof.
  induction ws as [|d rest IH]; intros i l Hl Hall Hlast.
  - cbn [words_bytes words_value]. unfold min_le_bytes. cbn [le_value last].
    split; [constructor|]. split; [reflexivity|discriminate].
  - apply Forall_cons in Hall as [Hd Hall].
    cbn [words_bytes words_value]. change (Z.to_nat _S) with 8%nat.
    change wordBase with (256 ^ Z.of_nat 8) in Hd.
    destruct rest as [|d' rest'].
    + rewrite bool_decide_eq_true_2 by zlen.
      cbn [words_bytes words_value]. rewrite app_nil_r, Z.mul_0_r, Z.add_0_r.
      apply word_bytes_true. cbn [last] in Hlast.
      assert (d <> 0) by congruence. lia.
    + rewrite bool_decide_eq_false_2 by zlen.
      destruct (word_bytes_false 8 d Hd) as (F & V & L).
      destruct (IH (i + 1) l ltac:(zlen) Hall Hlast) as (F' & V' & L').
      unfold min_le_bytes. rewrite le_value_app, V, V'.
      unfold len. rewrite L.
      split; [apply Forall_app; split; assumption|].
      split; [reflexivity|].
      rewrite last_app.
      destruct (last (words_bytes (i + 1) l (d' :: rest'))) as [y|] eqn:El;
        [exact L'|].
      apply last_None in El. cbn [words_bytes] in El.
      apply app_eq_nil in El as [El _].
      change (Z.to_nat _S) with 8%nat in El.
      exfalso. exact (word_bytes_nonempty _ _ _ El).
Qed.

(** The bytes [Bignum] writes after the count: the bytes of the absolute
    value. *)
Lemma Bits_bytes b :
  min_le_bytes (words_bytes 0 (len (Bits b)) (Bits b)) (Z.abs b).
Proof.
  destruct (Bits_spec b) as (F & V & L). rewrite <- V.
  apply words_bytes_spec; [lia|assumption|assumption].
Qed.

Lemma land_1 n : Z.land n 1 = n mod 2.
Proof. change 1 with (Z.ones 1). rewrite Z.land_ones by lia. reflexivity. Qed.


Lemma advance_frames it s s' :
  1 <= sz s <= len (stack s) -> s' = advance it s ->
  sz s' = sz s /\
  cur s' = Some (GenStateItem (cnt it) (pos it + 1) (typ it)) /\
  forall i, 0 <= i < sz s - 1 -> index (stack s') i = index (stack s) i.
Proof.
  intros Hsz ->. unfold advance. cbn [sz stack].
  split; [reflexivity|]. split; [apply cur_insert; exact Hsz|].
  intros i Hi. unfold index. destruct (decide (0 <= i)); [|reflexivity].
  apply list_lookup_insert_ne. lia.
Qed.

Lemma finish_value g g1 it bs :
  wf g -> cur (st g) = Some it -> appends g g1 bs -> bufn g1 <= len (buf g1) ->
  exists g', writeAdv g1 = Ok tt g' /\ wrote_value g g' it bs /\
             symbols g' = symbols g.
Proof.
  intros Hwf Hc A Hroom.
  assert (Hwf1 : wf g1) by exact (wf_appends g g1 _ Hwf A Hroom).
  assert (Hc1 : cur (st g1) = Some it)
    by (rewrite (appends_cur _ _ _ A); exact Hc).
  destruct (writeAdv_ok g1 it Hwf1 Hc1)
    as (g' & R & Hem & Hst & Hsc & Hstb & Hflush & Hkeep & Hwf').
  pose proof A as (Hw1 & _ & Hst1 & Hsc1 & Htb1 & _).
  rewrite Hst1 in *.
  exists g'. split; [exact R|]. split.
  - split; [rewrite Hem; exact (appends_emitted _ _ _ A)|].
    split; [apply advance_frames; [apply Hwf|exact Hst]|].
    split; [intros; rewrite Hem; apply Hflush; assumption|].
    split; [intros; rewrite Hkeep by assumption; exact Hw1|exact Hwf'].
  - unfold symbols. rewrite Hsc, Hstb, Hsc1, Htb1. reflexivity.
Qed.

Lemma put_tag_ok g it tag :
  wf g -> cur (st g) = Some it -> pos it <> cnt it ->
  exists g', appends g g' [tag] /\ bufn g' <= len (buf g') /\
             forall A (K : G A), (checkState 1 ;; putByte tag ;; K) g = K g'.
Proof.
  intros Hwf Hc Hp. pose proof Hwf as (_ & _ & Hb & _).
  destruct (checkState_ok g it 1 Hc Hp Hb ltac:(lia)) as (g1 & R1 & A1 & Hroom1).
  pose proof (appends_bufn _ _ _ A1) as [Hn1 _].
  destruct (putByte_ok g1 tag ltac:(zlen)) as (g2 & R2 & A2 & L2).
  pose proof (appends_bufn _ _ _ A2) as [Hn2 _].
  exists g2. split; [exact (appends_trans _ _ _ _ _ A1 A2)|]. split; [zlen|].
  intros A K. rewrite (bind_Ok _ _ _ _ _ R1), (bind_Ok _ _ _ _ _ R2). reflexivity.
Qed.

Lemma Nil_ok g it :
  wf g -> cur (st g) = Some it -> pos it <> cnt it ->
  exists g', Nil g = Ok tt g' /\ wrote_value g g' it [TYPE_NIL] /\
             symbols g' = symbols g.
Proof.
  intros Hwf Hc Hp.
  destruct (put_tag_ok g it TYPE_NIL Hwf Hc Hp) as (g1 & A1 & Hroom & R1).
  unfold Nil. rewrite R1. exact (finish_value g g1 it _ Hwf Hc A1 Hroom).
Qed.

Lemma Bool_ok b g it :
  wf g -> cur (st g) = Some it -> pos it <> cnt it ->
  exists g', Bool b g = Ok tt g' /\
             wrote_value g g' it [if b then TYPE_TRUE else TYPE_FALSE] /\
             symbols g' = symbols g.
Proof.
  intros Hwf Hc Hp.
  destruct (put_tag_ok g it (if b then TYPE_TRUE else TYPE_FALSE) Hwf Hc Hp)
    as (g1 & A1 & Hroom & R1).
  unfold Bool. rewrite R1. exact (finish_value g g1 it _ Hwf Hc A1 Hroom).
Qed.

Lemma bignum_payload_spec b :
  exists core,
    min_le_bytes core (Z.abs b) /\
    bignum_payload b = core ++ even_pad core /\
    len (bignum_payload b) mod 2 = 0.
Proof.
  exists (words_bytes 0 (len (Bits b)) (Bits b)).
  split; [apply Bits_bytes|]. split; [reflexivity|].
  unfold bignum_payload, even_pad, len. cbv zeta. rewrite length_app.
  destruct (decide _) as [H1|H1]; cbn [length];
    pose proof (Z.mod_pos_bound (len (words_bytes 0 (len (Bits b)) (Bits b))) 2
                  ltac:(lia));
    unfold len in *; Z.div_mod_to_equations; lia.
Qed.

Lemma Bignum_ok b g it :
  wf g -> cur (st g) = Some it -> pos it <> cnt it ->
  len (Bits b) < 2 ^ 28 ->
  exists g', Bignum b g = Ok tt g' /\ wrote_value g g' it (bignum_wire b) /\
             symbols g' = symbols g.
Proof.
  intros Hwf Hc Hp Hbits. pose proof Hwf as (_ & _ & Hb & _).
  pose proof (words_bytes_length (Bits b) 0 (len (Bits b))) as Hcl.
  change _S with 8 in Hcl.
  unfold Bignum. cbv zeta. rewrite size_words_bytes, land_1.
  pose proof (Bits_bytes b) as Hmin.
  set (core := words_bytes 0 (len (Bits b)) (Bits b)) in *.
  set (sz := if decide (len core mod 2 = 1) then len core + 1 else len core).
  assert (Hpay : len (core ++ even_pad core) = sz).
  { unfold len, even_pad, sz. rewrite length_app.
    destruct (decide _); cbn [length]; unfold len; lia. }
  assert (Heven : sz mod 2 = 0).
  { unfold sz. destruct (decide _) as [H1|H1];
      pose proof (Z.mod_pos_bound (len core) 2 ltac:(lia));
      Z.div_mod_to_equations; lia. }
  assert (Hsz : len core <= sz <= len core + 1)
    by (unfold sz; destruct (decide _); lia).
  assert (Hhalf : (sz + 1) / 2 = sz / 2) by (Z.div_mod_to_equations; lia).
  assert (Hcount : - 2 ^ 32 <= (sz + 1) / 2 < 2 ^ 32).
  { assert (0 <= sz < 2 ^ 32) by (unfold len in *; lia).
    Z.div_mod_to_equations; lia. }
  unfold fixnumMaxBytes.
  destruct (checkState_ok g it (2 + 5 + sz) Hc Hp Hb ltac:(zlen))
    as (g1 & R1 & A1 & Hroom1).
  rewrite (bind_Ok _ _ _ _ _ R1).
  pose proof (appends_bufn _ _ _ A1) as [Hn1 _].
  destruct (putByte_ok g1 TYPE_BIGNUM ltac:(zlen)) as (g2 & R2 & A2 & L2).
  rewrite (bind_Ok _ _ _ _ _ R2).
  pose proof (appends_bufn _ _ _ A2) as [Hn2 _].
  destruct (putByte_ok g2 (bignum_sign b) ltac:(zlen)) as (g3 & R3 & A3 & L3).
  fold (bignum_sign b). rewrite (bind_Ok _ _ _ _ _ R3).
  pose proof (appends_bufn _ _ _ A3) as [Hn3 _].
  destruct (encodeLong_ok ((sz + 1) / 2) g3 Hcount ltac:(zlen) ltac:(zlen))
    as (g4 & R4 & A4 & L4).
  rewrite (bind_Ok _ _ _ _ _ R4).
  pose proof (appends_bufn _ _ _ A4) as [Hn4 _].
  pose proof (packed_long_length ((sz + 1) / 2)) as Hpl.
  destruct (put_words_ok (Bits b) 0 (len (Bits b)) g4 ltac:(zlen)
              ltac:(fold core; zlen)) as (g5 & R5 & A5 & L5).
  fold core in R5, A5. rewrite (bind_Ok _ _ _ _ _ R5).
  pose proof (appends_bufn _ _ _ A5) as [Hn5 _].
  destruct (put_pad_ok (Z.to_nat (sz - len core)) g5 ltac:(zlen) ltac:(zlen))
    as (g6 & R6 & A6 & L6).
  rewrite (bind_Ok _ _ _ _ _ R6).
  pose proof (appends_bufn _ _ _ A6) as [Hn6 _].
  assert (Hpad : replicate (Z.to_nat (sz - len core)) 0 = even_pad core).
  { unfold sz, even_pad. destruct (decide _).
    - replace (len core + 1 - len core) with 1 by lia. reflexivity.
    - replace (len core - len core) with 0 by lia. reflexivity. }
  rewrite Hpad in A6, Hn6.
  pose proof (appends_trans _ _ _ _ _ A1
                (appends_trans _ _ _ _ _ A2
                   (appends_trans _ _ _ _ _ A3
                      (appends_trans _ _ _ _ _ A4
                         (appends_trans _ _ _ _ _ A5 A6))))) as A.
  assert (Hroom6 : bufn g6 <= len (buf g6)).
  { rewrite Hn6, Hn5, Hn4, Hn3, Hn2, Hn1.
    unfold even_pad, sz in *. destruct (decide _); zlen. }
  destruct (finish_value g g6 it _ Hwf Hc A Hroom6) as (g' & R & Hv & Hsym).
  exists g'. split; [exact R|]. split; [|exact Hsym].
  unfold bignum_wire, bignum_payload. cbv zeta. fold core.
  rewrite Hpay, <- Hhalf. exact Hv.
Qed.

Lemma Fixnum_in_range_ok n g it :
  wf g -> cur (st g) = Some it -> pos it <> cnt it ->
  fixnumMin <= n <= fixnumMax ->
  exists g', Fixnum n g = Ok tt g' /\
             wrote_value g g' it (TYPE_FIXNUM :: packed_long n) /\
             symbols g' = symbols g.
Proof.
  intros Hwf Hc Hp Hn. unfold Fixnum.
  rewrite decide_False by lia.
  unfold fixnumMin, fixnumMax in Hn.
  replace (fixnumMaxBytes + 1) with (1 + fixnumMaxBytes) by reflexivity.
  destruct (put_tag_long_ok g it TYPE_FIXNUM n (1 + fixnumMaxBytes) Hwf Hc Hp
              ltac:(lia) ltac:(lia)) as (g1 & A1 & Hroom & R1).
  rewrite R1.
  pose proof (appends_bufn _ _ _ A1) as [Hn1 _].
  pose proof (packed_long_length n).
  apply (finish_value g g1 it _ Hwf Hc A1). unfold fixnumMaxBytes in *. zlen.
Qed.

Lemma Fixnum_out_of_range n g :
  n < fixnumMin \/ n > fixnumMax -> Fixnum n g = Bignum n g.
Proof. intros H. unfold Fixnum. rewrite decide_True by exact H. reflexivity. Qed.

Lemma String_ok str g it :
  wf g -> cur (st g) = Some it -> pos it <> cnt it ->
  len (str_bytes str) < 2 ^ 32 ->
  exists g', String str g = Ok tt g' /\
             wrote_value g g' it
               (TYPE_STRING :: packed_long (len (str_bytes str)) ++ str_bytes str) /\
             symbols g' = symbols g.
Proof.
  intros Hwf Hc Hp Hl. unfold String. cbv zeta.
  destruct (put_tagged_ok g it TYPE_STRING (len (str_bytes str)) (str_bytes str)
              _ Hwf Hc Hp ltac:(zlen) ltac:(reflexivity))
    as (g1 & A1 & Hroom & R1).
  rewrite R1. exact (finish_value g g1 it _ Hwf Hc A1 Hroom).
Qed.

Lemma Class_ok name g it :
  wf g -> cur (st g) = Some it -> pos it <> cnt it ->
  len (str_bytes name) < 2 ^ 32 ->
  exists g', Class name g = Ok tt g' /\
             wrote_value g g' it
               (TYPE_CLASS :: packed_long (len (str_bytes name)) ++ str_bytes name) /\
             symbols g' = symbols g.
Proof.
  intros Hwf Hc Hp Hl. unfold Class. cbv zeta.
  destruct (put_tagged_ok g it TYPE_CLASS (len (str_bytes name)) (str_bytes name)
              _ Hwf Hc Hp ltac:(zlen) ltac:(reflexivity))
    as (g1 & A1 & Hroom & R1).
  rewrite R1. exact (finish_value g g1 it _ Hwf Hc A1 Hroom).
Qed.

Lemma Module_ok name g it :
  wf g -> cur (st g) = Some it -> pos it <> cnt it ->
  len (str_bytes name) < 2 ^ 32 ->
  exists g', Module' name g = Ok tt g' /\
             wrote_value g g' it
               (TYPE_MODULE :: packed_long (len (str_bytes name)) ++ str_bytes name) /\
             symbols g' = symbols g.
Proof.
  intros Hwf Hc Hp Hl. unfold Module'. cbv zeta.
  destruct (put_tagged_ok g it TYPE_MODULE (len (str_bytes name)) (str_bytes name)
              _ Hwf Hc Hp ltac:(zlen) ltac:(reflexivity))
    as (g1 & A1 & Hroom & R1).
  rewrite R1. exact (finish_value g g1 it _ Hwf Hc A1 Hroom).
Qed.

Lemma Symbol_ok grow sym g it :
  wf g -> 0 < grow -> cur (st g) = Some it -> pos it <> cnt it ->
  symCount g < 2 ^ 32 -> len (str_bytes sym) < 2 ^ 32 ->
  exists g', Symbol grow sym g = Ok tt g' /\
             wrote_value g g' it (symbol_wire (symbols g) sym) /\
             symbols g' = symbol_seen (symbols g) sym.
Proof.
  intros Hwf Hg Hc Hp Hn Hl.
  destruct (Symbol_step grow sym g it Hwf Hg Hc Hp Hn Hl)
    as (g' & R & Hem & Hsym & Hst & Hfl & Hk & Hwf').
  exists g'. split; [exact R|]. split; [|exact Hsym].
  split; [exact Hem|].
  split; [apply advance_frames; [apply Hwf|exact Hst]|]. split; [exact Hfl|].
  split; [exact Hk|exact Hwf'].
Qed.

Lemma putByte_exact g b :
  0 <= bufn g < len (buf g) ->
  putByte b g
  = Ok tt (set_bufn (bufn g + 1)
             (set_buf (<[Z.to_nat (bufn g) := b]> (buf g)) g)).
Proof.
  intros H. unfold putByte, bind, get, setBuf, addBufn, modify.
  rewrite store_Some by lia. reflexivity.
Qed.

Lemma encodeLong_small n g :
  0 <= n < 123 ->
  encodeLong n g = putByte (if decide (n = 0) then 0 else n + 5) g.
Proof.
  intros H. unfold encodeLong. destruct (decide (n = 0)); [reflexivity|].
  rewrite decide_True by lia. unfold byte. rewrite Z.mod_small by lia.
  reflexivity.
Qed.

Lemma packed_long_small n :
  0 <= n < 123 -> packed_long n = [if decide (n = 0) then 0 else n + 5].
Proof.
  intros H. unfold packed_long. destruct (decide (n = 0)); [reflexivity|].
  rewrite decide_True by lia. reflexivity.
Qed.

(** [Float] with a text of at most 30 bytes, which is what
    [strconv.AppendFloat] gives. *)
Lemma Float_ok txt g it :
  wf g -> cur (st g) = Some it -> pos it <> cnt it -> len txt <= 30 ->
  exists g', Float txt g = Ok tt g' /\
             wrote_value g g' it (TYPE_FLOAT :: packed_long (len txt) ++ txt) /\
             symbols g' = symbols g.
Proof.
  intros Hwf Hc Hp Hl. pose proof Hwf as (_ & _ & Hb & _). unfold Float.
  destruct (checkState_ok g it (1 + 1 + 30) Hc Hp Hb ltac:(lia))
    as (g1 & R1 & A1 & Hroom1).
  rewrite (bind_Ok _ _ _ _ _ R1).
  pose proof (appends_bufn _ _ _ A1) as [Hn1 _].
  destruct (putByte_ok g1 TYPE_FLOAT ltac:(zlen)) as (g2 & R2 & A2 & L2).
  rewrite (bind_Ok _ _ _ _ _ R2).
  pose proof (appends_bufn _ _ _ A2) as [Hn2 _].
  pose proof (appends_trans _ _ _ _ _ A1 A2) as A12.
  unfold bind at 1, get. unfold bind at 1.
  rewrite decide_True by zlen. rewrite decide_True by zlen.
  rewrite copy_at_fits by zlen. unfold put.
  set (g3 := set_buf _ g2).
  assert (Hbn3 : bufn g3 = bufn g2) by reflexivity.
  assert (Hlen3 : len (buf g3) = len (buf g2)).
  { subst g3. cbn [buf set_buf]. unfold len. rewrite splice_length; zlen. }
  rewrite (bind_Ok _ _ (ltac:(exact g3)) tt
             (set_bufn (bufn g3 + 1)
                (set_buf (<[Z.to_nat (bufn g3) :=
                            if decide (len txt = 0) then 0 else len txt + 5]>
                            (buf g3)) g3))).
  2:{ rewrite encodeLong_small by zlen. apply putByte_exact.
      rewrite Hbn3, Hlen3. zlen. }
  unfold bind at 1, addBufn, modify.
  set (g5 := set_bufn _ _).
  rewrite packed_long_small by zlen.
  set (c := if decide (len txt = 0) then 0 else len txt + 5) in *.
  assert (A : appends g2 g5 (c :: txt)).
  { subst g5 g3. unfold appends. cbn.
    replace (Z.to_nat (bufn g2 + 1)) with (S (Z.to_nat (bufn g2))) by zlen.
    rewrite splice_head by zlen.
    unfold len. rewrite splice_length by (cbn [length]; zlen).
    repeat split; try reflexivity; try zlen.
    replace (Z.to_nat (bufn g2 + 1 + Z.of_nat (length txt)))
      with (Z.to_nat (bufn g2) + length (c :: txt))%nat by zlen.
    apply splice_take. zlen. }
  pose proof (appends_bufn _ _ _ A) as [Hn5 _].
  apply (finish_value g g5 it _ Hwf Hc (appends_trans _ _ _ _ _ A12 A)).
  subst g5 g3. cbn [buf bufn set_buf set_bufn] in *. unfold len in *.
  rewrite length_insert. rewrite splice_length by zlen. zlen.
Qed.

Section value_proofs.
Variable grow : Z.
Hypothesis grow_pos : 0 < grow.

Lemma write_value_Array vs :
  write_value grow (Array vs)
  = (StartArray (len vs) ;; write_values grow vs ;; EndArray).
Proof. reflexivity. Qed.

Lemma write_hash_loop kvs g :
  (fix go (l : list (value * value)) : G unit :=
     match l with
     | [] => ret tt
     | (k, x) :: r => write_value grow k ;; write_value grow x ;; go r
     end) kvs g = write_values grow (flatten kvs) g.
Proof.
  revert g. induction kvs as [|[k x] r IH]; intros g; [reflexivity|].
  unfold flatten. cbn [map concat app fst snd write_values]. fold (flatten r).
  unfold bind. destruct (write_value grow k g) as [[] g1| |]; try reflexivity.
  destruct (write_value grow x g1) as [[] g2| |]; try reflexivity. apply IH.
Qed.

Lemma write_value_Hash kvs g :
  write_value grow (Hash kvs) g
  = (StartHash (len kvs) ;; write_values grow (flatten kvs) ;; EndHash) g.
Proof.
  cbn [write_value]. unfold bind.
  destruct (StartHash (len kvs) g) as [[] g1| |]; try reflexivity.
  rewrite write_hash_loop. reflexivity.
Qed.

Lemma value_wire_Array vs tbl :
  value_wire tbl (Array vs)
  = (TYPE_ARRAY :: packed_long (len vs) ++ fst (values_wire tbl vs),
     snd (values_wire tbl vs)).
Proof.
  change (value_wire tbl (Array vs))
    with (let '(bs, tbl') := values_wire tbl vs in
          (TYPE_ARRAY :: packed_long (len vs) ++ bs, tbl')).
  destruct (values_wire tbl vs); reflexivity.
Qed.

Lemma wire_hash_loop kvs tbl :
  (fix go (tbl : list string) (l : list (value * value))
     : list Z * list string :=
     match l with
     | [] => ([], tbl)
     | (k, x) :: r =>
         let '(b1, t1) := value_wire tbl k in
         let '(b2, t2) := value_wire t1 x in
         let '(b3, t3) := go t2 r in (b1 ++ b2 ++ b3, t3)
     end) tbl kvs = values_wire tbl (flatten kvs).
Proof.
  revert tbl. induction kvs as [|[k x] r IH]; intros tbl; [reflexivity|].
  unfold flatten. cbn [map concat app fst snd values_wire]. fold (flatten r).
  destruct (value_wire tbl k) as [b1 t1].
  destruct (value_wire t1 x) as [b2 t2]. rewrite IH.
  destruct (values_wire t2 (flatten r)) as [b3 t3]. reflexivity.
Qed.

Lemma value_wire_Hash kvs tbl :
  value_wire tbl (Hash kvs)
  = (TYPE_HASH :: packed_long (len kvs) ++ fst (values_wire tbl (flatten kvs)),
     snd (values_wire tbl (flatten kvs))).
Proof.
  cbn [value_wire]. rewrite wire_hash_loop.
  destruct (values_wire tbl (flatten kvs)); reflexivity.
Qed.

End value_proofs.

Lemma pop_writeAdv_parent g c it :
  wf g -> cur (st g) = Some c -> typ c <> genStTop ->
  index (stack (st g)) (sz (st g) - 2) = Some it ->
  exists g',
    (pop ;; writeAdv) g = Ok tt g' /\
    emitted g' = emitted g /\
    sz (st g') = sz (st g) - 1 /\
    cur (st g') = Some (GenStateItem (cnt it) (pos it + 1) (typ it)) /\
    (forall i, 0 <= i < sz (st g) - 2 ->
               index (stack (st g')) i = index (stack (st g)) i) /\
    (pos it + 1 = cnt it -> sz (st g) = 2 -> w g' = emitted g') /\
    (sz (st g) <> 2 -> w g' = w g) /\
    symbols g' = symbols g /\
    wf g'.
Proof.
  intros Hwf Hc Ht Hit.
  destruct (pop_ok g c Hwf Hc Ht) as (parent & Hpop & Hcp & Hwf1).
  rewrite (bind_Ok _ _ _ _ _ Hpop).
  assert (parent = it) as ->.
  { pose proof Hwf as (Hsz & _).
    assert (sz (st g) <> 1) by (rewrite <- (wf_top g c Hwf Hc); exact Ht).
    rewrite cur_index in Hcp by (cbn [sz]; lia). cbn [sz stack] in Hcp.
    replace (sz (st g) - 1 - 1) with (sz (st g) - 2) in Hcp by lia. congruence. }
  set (g1 := set_st _ g) in *.
  destruct (writeAdv_ok g1 it Hwf1 Hcp)
    as (g' & R & Hem & Hst & Hsc & Hstb & Hflush & Hkeep & Hwf').
  pose proof Hwf1 as (Hsz1 & _).
  destruct (advance_frames it (st g1) (st g') Hsz1 Hst) as (Es & Ec & Ef).
  exists g'. split; [exact R|]. split; [exact Hem|].
  split; [rewrite Es; reflexivity|]. split; [exact Ec|].
  split; [intros i Hi; rewrite Ef by (subst g1; cbn [sz st set_st]; lia); reflexivity|].
  split; [intros Hf H2; rewrite Hem; apply Hflush; [exact Hf|subst g1; cbn [sz st set_st]; lia]|].
  split; [intros H2; apply Hkeep; subst g1; cbn [sz st set_st]; lia|].
  split; [unfold symbols; rewrite Hsc, Hstb; reflexivity|exact Hwf'].
Qed.

Lemma EndArray_ok g c it :
  wf g -> cur (st g) = Some c -> typ c = genStArr -> pos c = cnt c ->
  index (stack (st g)) (sz (st g) - 2) = Some it ->
  exists g',
    EndArray g = Ok tt g' /\
    emitted g' = emitted g /\
    sz (st g') = sz (st g) - 1 /\
    cur (st g') = Some (GenStateItem (cnt it) (pos it + 1) (typ it)) /\
    (forall i, 0 <= i < sz (st g) - 2 ->
               index (stack (st g')) i = index (stack (st g)) i) /\
    (pos it + 1 = cnt it -> sz (st g) = 2 -> w g' = emitted g') /\
    (sz (st g) <> 2 -> w g' = w g) /\
    symbols g' = symbols g /\
    wf g'.
Proof.
  intros Hwf Hc Ht Hp Hit. rewrite (EndArray_run g c Hwf Hc).
  rewrite decide_False by (intros H; apply H; exact Ht).
  rewrite decide_False by (intros H; apply H; exact Hp).
  apply (pop_writeAdv_parent g c it Hwf Hc); [rewrite Ht; discriminate|exact Hit].
Qed.

Lemma EndHash_ok g c it :
  wf g -> cur (st g) = Some c -> typ c = genStHash -> pos c = cnt c ->
  index (stack (st g)) (sz (st g) - 2) = Some it ->
  exists g',
    EndHash g = Ok tt g' /\
    emitted g' = emitted g /\
    sz (st g') = sz (st g) - 1 /\
    cur (st g') = Some (GenStateItem (cnt it) (pos it + 1) (typ it)) /\
    (forall i, 0 <= i < sz (st g) - 2 ->
               index (stack (st g')) i = index (stack (st g)) i) /\
    (pos it + 1 = cnt it -> sz (st g) = 2 -> w g' = emitted g') /\
    (sz (st g) <> 2 -> w g' = w g) /\
    symbols g' = symbols g /\
    wf g'.
Proof.
  intros Hwf Hc Ht Hp Hit. rewrite (EndHash_run g c Hwf Hc).
  rewrite decide_False by (intros H; apply H; exact Ht).
  rewrite decide_False by (intros H; apply H; exact Hp).
  apply (pop_writeAdv_parent g c it Hwf Hc); [rewrite Ht; discriminate|exact Hit].
Qed.

Lemma wrap64_small x : - 2 ^ 63 <= x < 2 ^ 63 -> wrap64 x = x.
Proof.
  intros H. unfold wrap64. rewrite Z.mod_small by lia. lia.
Qed.

Lemma StartHash_ok l g it :
  wf g -> cur (st g) = Some it -> pos it <> cnt it ->
  - 2 ^ 32 <= l < 2 ^ 32 ->
  exists g',
    StartHash l g = Ok tt g' /\
    emitted g' = emitted g ++ TYPE_HASH :: packed_long l /\
    w g' = w g /\ symbols g' = symbols g /\ symCount g' = symCount g /\
    sz (st g') = sz (st g) + 1 /\
    cur (st g') = Some (GenStateItem (l * 2) 0 genStHash) /\
    (forall i, 0 <= i < sz (st g) ->
               index (stack (st g')) i = index (stack (st g)) i) /\
    wf g'.
Proof.
  intros Hwf Hc Hp Hl. unfold StartHash.
  rewrite wrap64_small by lia.
  destruct (put_tag_long_ok g it TYPE_HASH l (1 + fixnumMaxBytes)
              Hwf Hc Hp Hl ltac:(lia)) as (g1 & A1 & Hroom & R1).
  rewrite R1.
  pose proof (appends_bufn _ _ _ A1) as [Hn1 _].
  pose proof (packed_long_length l) as Hpl.
  assert (Hwf1 : wf g1).
  { apply (wf_appends g g1 _ Hwf A1). unfold fixnumMaxBytes in *. zlen. }
  destruct (push_ok genStHash (l * 2) g1 Hwf1 ltac:(discriminate))
    as (s & R & Hsz & Hcur & Hsame & Hwf').
  exists (set_st s g1). split; [exact R|].
  pose proof A1 as (Hw1 & _ & Hst1 & Hsc1 & Htb1 & _).
  rewrite Hst1 in *.
  split; [exact (appends_emitted _ _ _ A1)|].
  split; [exact Hw1|].
  split; [exact (appends_symbols _ _ _ A1)|].
  split; [exact Hsc1|]. cbn [st set_st].
  split; [exact Hsz|]. split; [exact Hcur|]. split; [exact Hsame|exact Hwf'].
Qed.

Lemma words_of_small k m :
  0 <= m < wordBase -> (length (words_of k m) <= 1)%nat.
Proof.
  intros Hm. destruct k as [|k]; cbn [words_of length]; [lia|].
  destruct (decide (m = 0)); cbn [length]; [lia|].
  rewrite Z.div_small by exact Hm.
  destruct k; cbn [words_of length]; [lia|].
  rewrite decide_True by reflexivity. cbn [length]. lia.
Qed.

Lemma Bits_int64 n : - 2 ^ 63 <= n < 2 ^ 63 -> len (Bits n) < 2 ^ 28.
Proof.
  intros Hn. unfold Bits, len.
  pose proof (words_of_small (S (Z.to_nat (Z.log2 (Z.abs n)))) (Z.abs n)) as H.
  change wordBase with (2 ^ 64) in H. specialize (H ltac:(lia)). lia.
Qed.

Section value_run.
Variable grow : Z.
Hypothesis grow_pos : 0 < grow.

Lemma write_scalar_ok x g it :
  scalar_ok x -> wf g -> cur (st g) = Some it -> pos it <> cnt it ->
  symCount g < 2 ^ 32 ->
  exists g', write grow x g = Ok tt g' /\
             wrote_value g g' it (call_wire (symbols g) x) /\
             symbols g' = call_seen (symbols g) x.
Proof.
  intros Hx Hwf Hc Hp Hn.
  destruct x; cbn [scalar_ok write call_wire call_seen] in *.
  - apply Nil_ok; assumption.
  - apply Bool_ok; assumption.
  - destruct (decide (n < fixnumMin \/ n > fixnumMax)) as [Ho|Hi].
    + rewrite Fixnum_out_of_range by exact Ho.
      apply Bignum_ok; try assumption. apply Bits_int64; exact Hx.
    + apply Fixnum_in_range_ok; try assumption. lia.
  - apply Bignum_ok; assumption.
  - apply Symbol_ok; try assumption; lia.
  - apply String_ok; try assumption; lia.
  - apply Float_ok; assumption.
  - contradiction.
  - contradiction.
  - apply Class_ok; try assumption; lia.
  - apply Module_ok; try assumption; lia.
Qed.

Lemma call_seen_length tbl x : len (call_seen tbl x) <= len tbl + 1.
Proof.
  destruct x; cbn [call_seen]; try lia. apply symbol_seen_length.
Qed.

Lemma leaves_nonneg v : 0 <= leaves v.
Proof.
  induction v as [x|vs IH|kvs IH] using value_ind; cbn [leaves]; [lia| |].
  - induction IH as [|x r Hx _ IHr]; cbn [fold_right]; lia.
  - induction IH as [|x r [Hk Hx] _ IHr]; cbn [fold_right]; lia.
Qed.

Lemma leaves_list_nonneg vs : 0 <= leaves_list vs.
Proof.
  induction vs as [|x r IH]; cbn [leaves_list fold_right]; [lia|].
  pose proof (leaves_nonneg x). unfold leaves_list in IH. lia.
Qed.

Lemma leaves_flatten kvs : leaves (Hash kvs) = leaves_list (flatten kvs).
Proof.
  cbn [leaves]. induction kvs as [|[k x] r IH]; [reflexivity|].
  unfold flatten. cbn [map concat app fold_right leaves_list fst snd].
  fold (flatten r). fold (leaves_list (flatten r)). rewrite IH. lia.
Qed.

Lemma write_values_ok vs :
  Forall (writes grow) vs -> Forall value_ok vs ->
  forall g c,
    wf g -> cur (st g) = Some c -> sz (st g) <> 1 ->
    0 <= pos c -> pos c + len vs <= cnt c ->
    symCount g + leaves_list vs < 2 ^ 32 ->
    exists g',
      write_values grow vs g = Ok tt g' /\
      emitted g' = emitted g ++ fst (values_wire (symbols g) vs) /\
      symbols g' = snd (values_wire (symbols g) vs) /\
      sz (st g') = sz (st g) /\
      cur (st g') = Some (GenStateItem (cnt c) (pos c + len vs) (typ c)) /\
      (forall i, 0 <= i < sz (st g) - 1 ->
                 index (stack (st g')) i = index (stack (st g)) i) /\
      w g' = w g /\
      symCount g' <= symCount g + leaves_list vs /\
      wf g'.
Proof.
  induction vs as [|v r IH]; intros HP Hok g c Hwf Hc Hsz Hpos Hroom Hcount.
  - exists g. cbn [write_values values_wire fst snd leaves_list fold_right].
    rewrite app_nil_r. replace (pos c + len []) with (pos c) by zlen.
    split; [reflexivity|]. split; [reflexivity|]. split; [reflexivity|].
    split; [reflexivity|]. split; [rewrite Hc; destruct c; reflexivity|].
    split; [reflexivity|]. split; [reflexivity|]. split; [lia|exact Hwf].
  - apply Forall_cons in HP as [Pv HP]. apply Forall_cons in Hok as [Okv Hok].
    cbn [leaves_list fold_right] in Hcount. fold (leaves_list r) in Hcount.
    pose proof (leaves_nonneg v) as Hlv.
    pose proof (leaves_list_nonneg r) as Hlr.
    destruct (Pv Okv g c Hwf Hc ltac:(zlen) ltac:(lia))
      as (g1 & R1 & (Hem1 & (Hs1 & Hc1 & Hf1) & _ & Hk1 & Hwf1) & Hsym1 & Hn1).
    cbn [write_values]. rewrite (bind_Ok _ _ _ _ _ R1).
    assert (Hsz1 : sz (st g1) <> 1) by lia.
    assert (Hroom1 : pos c + 1 + len r <= cnt c) by zlen.
    assert (Hcount1 : symCount g1 + leaves_list r < 2 ^ 32) by lia.
    destruct (IH HP Hok g1 _ Hwf1 Hc1 Hsz1 ltac:(cbn [pos]; lia)
                Hroom1 Hcount1)
      as (g' & R & Hem & Hsym & Hs & Hc' & Hf & Hw & Hn & Hwf').
    exists g'. split; [exact R|].
    cbn [values_wire leaves_list fold_right]. fold (leaves_list r).
    rewrite Hsym1 in Hem, Hsym.
    destruct (value_wire (symbols g) v) as [b1 t1]. cbn [fst snd] in *.
    destruct (values_wire t1 r) as [b2 t2]. cbn [fst snd] in *.
    split; [rewrite Hem, Hem1, <- app_assoc; reflexivity|].
    split; [exact Hsym|]. split; [lia|].
    split; [rewrite Hc'; cbn [cnt pos typ]; do 2 f_equal; zlen|].
    split; [intros i Hi; rewrite Hf by lia; apply Hf1; lia|].
    split; [rewrite Hw; apply Hk1; exact Hsz|]. split; [lia|exact Hwf'].
Qed.
End value_run.

Section value_main.
Variable grow : Z.
Hypothesis grow_pos : 0 < grow.

Lemma flatten_length kvs : len (flatten kvs) = 2 * len kvs.
Proof.
  induction kvs as [|kx r IH]; [reflexivity|].
  unfold flatten in *. cbn [map concat]. unfold len in *.
  rewrite length_app. cbn [length]. lia.
Qed.

Lemma flatten_Forall (P : value -> Prop) kvs :
  Forall (fun kx => P (fst kx) /\ P (snd kx)) kvs -> Forall P (flatten kvs).
Proof.
  induction 1 as [|kx r [Hk Hx] _ IH]; [constructor|].
  unfold flatten. cbn [map concat app]. constructor; [exact Hk|].
  constructor; [exact Hx|exact IH].
Qed.

(** A container: the calls [start] and [finish] around the values [vs]. *)
Lemma write_container_ok (start finish : G unit) tag kind n vs g it :
  Forall (writes grow) vs -> Forall value_ok vs ->
  wf g -> cur (st g) = Some it -> pos it <> cnt it ->
  symCount g + leaves_list vs < 2 ^ 32 ->
  (exists g1,
     start g = Ok tt g1 /\
     emitted g1 = emitted g ++ tag :: packed_long n /\
     w g1 = w g /\ symbols g1 = symbols g /\ symCount g1 = symCount g /\
     sz (st g1) = sz (st g) + 1 /\
     cur (st g1) = Some (GenStateItem (len vs) 0 kind) /\
     (forall i, 0 <= i < sz (st g) ->
                index (stack (st g1)) i = index (stack (st g)) i) /\
     wf g1) ->
  (forall g2 c it,
     wf g2 -> cur (st g2) = Some c -> typ c = kind -> pos c = cnt c ->
     index (stack (st g2)) (sz (st g2) - 2) = Some it ->
     exists g',
       finish g2 = Ok tt g' /\
       emitted g' = emitted g2 /\
       sz (st g') = sz (st g2) - 1 /\
       cur (st g') = Some (GenStateItem (cnt it) (pos it + 1) (typ it)) /\
       (forall i, 0 <= i < sz (st g2) - 2 ->
                  index (stack (st g')) i = index (stack (st g2)) i) /\
       (pos it + 1 = cnt it -> sz (st g2) = 2 -> w g' = emitted g') /\
       (sz (st g2) <> 2 -> w g' = w g2) /\
       symbols g' = symbols g2 /\
       wf g') ->
  exists g',
    (start ;; write_values grow vs ;; finish) g = Ok tt g' /\
    wrote_value g g' it
      (tag :: packed_long n ++ fst (values_wire (symbols g) vs)) /\
    symbols g' = snd (values_wire (symbols g) vs) /\
    symCount g' <= symCount g + leaves_list vs.
Proof.
  intros HP Hok Hwf Hc Hp Hcount Hstart Hfinish.
  pose proof Hwf as (Hsz & _).
  destruct Hstart as (g1 & R1 & Hem1 & Hw1 & Hsym1 & Hsc1 & Hsz1 & Hc1 & Hf1 & Hwf1).
  rewrite (bind_Ok _ _ _ _ _ R1).
  destruct (write_values_ok grow vs HP Hok g1 _ Hwf1 Hc1 ltac:(lia)
              ltac:(cbn [pos]; lia) ltac:(cbn [pos cnt]; lia) ltac:(lia))
    as (g2 & R2 & Hem2 & Hsym2 & Hsz2 & Hc2 & Hf2 & Hw2 & Hn2 & Hwf2).
  rewrite (bind_Ok _ _ _ _ _ R2). cbn [pos cnt typ] in Hc2.
  assert (Hit : index (stack (st g2)) (sz (st g2) - 2) = Some it).
  { rewrite Hsz2, Hsz1. replace (sz (st g) + 1 - 2) with (sz (st g) - 1) by lia.
    rewrite Hf2 by lia. rewrite Hf1 by lia.
    rewrite <- cur_index by lia. exact Hc. }
  destruct (Hfinish g2 _ it Hwf2 Hc2 eq_refl ltac:(cbn [pos cnt]; lia) Hit)
    as (g' & R & Hem & Hs & Hc' & Hf & Hfl & Hk & Hsym & Hwf').
  exists g'. split; [exact R|]. rewrite Hsym1 in *.
  split; [|split; [congruence|]].
  - split; [rewrite Hem, Hem2, Hem1, <- app_assoc; reflexivity|].
    split; [split; [lia|split; [exact Hc'|]]|].
    { intros i Hi. rewrite Hf by lia. rewrite Hf2 by lia. apply Hf1. lia. }
    split; [intros Hfull H1; apply Hfl; [exact Hfull|lia]|].
    split; [intros H1; rewrite Hk by lia; congruence|exact Hwf'].
  - pose proof (symbols_length g' Hwf'). pose proof (symbols_length g2 Hwf2).
    rewrite Hsym in *. lia.
Qed.

Lemma write_value_ok v : writes grow v.
Proof.
  induction v as [x|vs IH|kvs IH] using value_ind; intros Hok g it Hwf Hc Hp Hn.
  - inversion Hok as [x' Hx| |]; subst. cbn [write_value value_wire fst snd leaves] in *.
    destruct (write_scalar_ok grow grow_pos x g it Hx Hwf Hc Hp ltac:(lia))
      as (g' & R & Hv & Hsym).
    exists g'. split; [exact R|]. split; [exact Hv|]. split; [exact Hsym|].
    pose proof Hv as (_ & _ & _ & _ & Hwf').
    pose proof (symbols_length g' Hwf'). pose proof (symbols_length g Hwf).
    pose proof (call_seen_length (symbols g) x). rewrite Hsym in *. lia.
  - inversion Hok as [|vs' Hl Hall|]; subst.
    rewrite write_value_Array, value_wire_Array. cbn [fst snd].
    change (leaves (Array vs)) with (leaves_list vs) in *.
    apply (write_container_ok _ _ _ genStArr); try assumption.
    + apply (StartArray_ok _ _ it); try assumption. zlen.
    + intros g2 c it2. apply EndArray_ok.
  - inversion Hok as [| |kvs' Hl Hall]; subst.
    rewrite write_value_Hash, value_wire_Hash. cbn [fst snd].
    rewrite leaves_flatten in *.
    apply (write_container_ok _ _ _ genStHash); try assumption.
    + apply flatten_Forall. exact IH.
    + apply flatten_Forall. exact Hall.
    + rewrite flatten_length.
      replace (2 * len kvs) with (len kvs * 2) by lia.
      apply (StartHash_ok _ _ it); try assumption. zlen.
    + intros g2 c it2. apply EndHash_ok.
Qed.

End value_main.

(** [encodeLong] outside the range of four payload bytes: the loop runs out
    and the panic after it is reached. *)
Lemma encodeLong_loop_panics k : forall i n g,
  loop_bytes k i n = None ->
  0 <= bufn g -> 1 <= i -> bufn g + i + Z.of_nat k <= len (buf g) ->
  encodeLong_loop k i n g = Panic (Explicit "Shouldn't *ever* reach here").
Proof.
  induction k as [|k IH]; intros i n g Hl Hb Hi Hroom; [reflexivity|].
  cbn [loop_bytes] in Hl. cbn [encodeLong_loop].
  unfold bind at 1, get. unfold bind at 1, setBuf at 1.
  rewrite store_Some by zlen.
  destruct (decide (Z.shiftr n 8 = 0)); [discriminate|].
  destruct (decide (Z.shiftr n 8 = -1)); [discriminate|].
  destruct (loop_bytes k (i + 1) (Z.shiftr n 8)) as [[c bs]|] eqn:E;
    [discriminate|].
  apply IH; [exact E| | |]; cbn [bufn buf set_buf]; unfold len in *;
    rewrite ?length_insert; lia.
Qed.

Lemma loop_bytes_out_of_range n :
  n < - 2 ^ 32 \/ 2 ^ 32 <= n -> loop_bytes 4 1 n = None.
Proof.
  intros Hr. unfold loop_bytes. rewrite !shiftr8.
  pose proof (Z.div_mod n 256 ltac:(lia)) as E1.
  pose proof (Z.mod_pos_bound n 256 ltac:(lia)) as B1.
  set (q1 := n / 256) in *.
  pose proof (Z.div_mod q1 256 ltac:(lia)) as E2.
  pose proof (Z.mod_pos_bound q1 256 ltac:(lia)) as B2.
  set (q2 := q1 / 256) in *.
  pose proof (Z.div_mod q2 256 ltac:(lia)) as E3.
  pose proof (Z.mod_pos_bound q2 256 ltac:(lia)) as B3.
  set (q3 := q2 / 256) in *.
  pose proof (Z.div_mod q3 256 ltac:(lia)) as E4.
  pose proof (Z.mod_pos_bound q3 256 ltac:(lia)) as B4.
  set (q4 := q3 / 256) in *.
  change (2 ^ 32) with 4294967296 in Hr.
  repeat (destruct (decide _)); try lia; reflexivity.
Qed.

Lemma encodeLong_panics n g :
  n < - 2 ^ 32 \/ 2 ^ 32 <= n ->
  0 <= bufn g -> bufn g + 5 <= len (buf g) ->
  encodeLong n g = Panic (Explicit "Shouldn't *ever* reach here").
Proof.
  intros Hr Hb Hroom. unfold encodeLong.
  change (2 ^ 32) with 4294967296 in Hr.
  rewrite decide_False by lia. rewrite decide_False by lia.
  rewrite decide_False by lia.
  apply encodeLong_loop_panics; [apply loop_bytes_out_of_range; exact Hr| | |];
    zlen.
Qed.

Lemma Reset_ok g :
  2 <= len (buf g) ->
  exists g', Reset g = Ok tt g' /\ wf g' /\
             cur (st g') = Some (GenStateItem 1 0 genStTop) /\
             sz (st g') = 1 /\ w g' = w g /\ emitted g' = w g ++ [4; 8] /\
             symCount g' = 0.
Proof.
  intros Hlen. unfold Reset, reset_state.
  unfold bind at 1. unfold bind at 1. unfold modify at 1.
  unfold push, push_state. cbn [st set_st sz stack].
  set (stk := if decide (0 = len (stack (st g))) then _ else _).
  assert (Hstk : 0 < len stk).
  { subst stk. destruct (decide _) as [E|NE].
    - unfold len. rewrite copy_length, length_replicate.
      unfold genStateGrowSize. lia.
    - zlen. }
  rewrite store_Some by lia.
  unfold bind at 1, modify at 1. unfold bind at 1, modify at 1.
  unfold bind at 1, setBuf at 1. cbn [buf set_symCount set_c set_st].
  rewrite store_Some by lia.
  unfold bind at 1, setBuf at 1. cbn [buf set_buf].
  rewrite store_Some by (unfold len in *; rewrite length_insert; lia).
  unfold modify. eexists. split; [reflexivity|].
  split.
  { unfold wf.
    cbn [st sz stack buf bufn symCount symTbl w
         set_bufn set_buf set_symCount set_c set_st].
    unfold len in *. rewrite !length_insert.
    split; [lia|]. split; [|lia].
    intros i x Hi Hx. assert (i = 0) as -> by lia.
    apply index_Some in Hx as [_ Hx]. change (Z.to_nat 0) with 0%nat in Hx.
    rewrite list_lookup_insert_eq in Hx by lia. injection Hx as <-.
    split; reflexivity. }
  split.
  { unfold cur. cbn [st set_bufn set_buf set_symCount set_c set_st sz stack].
    rewrite decide_False by lia. unfold index. rewrite decide_True by lia.
    change (Z.to_nat (0 + 1 - 1)) with 0%nat.
    apply list_lookup_insert_eq. unfold len in Hstk. lia. }
  split; [reflexivity|]. split; [reflexivity|]. split; [|reflexivity].
  unfold emitted.
  cbn [st sz stack buf bufn symCount symTbl w
       set_bufn set_buf set_symCount set_c set_st].
  f_equal. assert (Hl2 : (2 <= length (buf g))%nat) by zlen.
  destruct (buf g) as [|b0 [|b1 rest]]; cbn [length] in Hl2; try lia.
  reflexivity.
Qed.

End generator_values.

(** ** What the calls of the generator write *)

Module generator_extras.
Import generator generator_proofs generator_values.

Lemma fresh_wf : wf fresh.
Proof. apply wfb_wf. vm_compute. reflexivity. Qed.

Lemma in_array_wf : wf in_array.
Proof. apply wfb_wf. vm_compute. reflexivity. Qed.

Lemma sample_ok : value_ok sample.
Proof.
  unfold sample.
  repeat first
    [ apply Leaf_ok; cbn [scalar_ok];
      first [exact I | lia | vm_compute; reflexivity]
    | apply Array_ok; [vm_compute; reflexivity|]
    | apply Hash_ok; [vm_compute; reflexivity|]
    | apply List.Forall_cons
    | apply List.Forall_nil
    | split ].
Qed.

Lemma symbols_empty g : symCount g = 0 -> symbols g = [].
Proof. intros E. unfold symbols. rewrite E. reflexivity. Qed.

(** X1. For every [n] with [-2^32 <= n < 2^32] and five bytes of room in the
    buffer, [encodeLong] returns and appends the packed long of [n] of the
    format, which has one to five bytes; nothing else of the generator
    changes and the buffer keeps its length. *)
Theorem encodeLong_writes_packed_long n g :
  - 2 ^ 32 <= n < 2 ^ 32 -> 0 <= bufn g -> bufn g + 5 <= len (buf g) ->
  exists g',
    encodeLong n g = Ok tt g' /\ appends g g' (packed_long n) /\
    len (buf g') = len (buf g) /\ 1 <= len (packed_long n) <= 5.
Proof.
  intros Hn Hb Hr. destruct (encodeLong_ok n g Hn Hb Hr) as (g' & R & A & L).
  exists g'. pose proof (packed_long_length n).
  split; [exact R|]. split; [exact A|]. split; [exact L|zlen].
Qed.

Lemma encodeLong_writes_packed_long_witness :
  exists g',
    encodeLong (-57005) fresh = Ok tt g' /\
    appends fresh g' [254; 83; 33].
Proof.
  destruct (encodeLong_writes_packed_long (-57005) fresh)
    as (g' & R & A & _); [lia|vm_compute; discriminate|vm_compute; discriminate|].
  exists g'. split; [exact R|exact A].
Defined.

(** X2. For [n] below [-2^32] or from [2^32] on, [encodeLong] panics: four
    payload bytes do not reach [0] or [-1], and the loop falls through to
    the panic after it. [StartArray] and [StartHash] pass their length to
    [encodeLong] unchecked and panic with it, on every generator that accepts
    a value. *)
Theorem encodeLong_out_of_range_panics n :
  n < - 2 ^ 32 \/ 2 ^ 32 <= n ->
  (forall g, 0 <= bufn g -> bufn g + 5 <= len (buf g) ->
             encodeLong n g = Panic (Explicit "Shouldn't *ever* reach here")) /\
  (forall g it, wf g -> cur (st g) = Some it -> pos it <> cnt it ->
     StartArray n g = Panic (Explicit "Shouldn't *ever* reach here") /\
     StartHash n g = Panic (Explicit "Shouldn't *ever* reach here")).
Proof.
  intros Hn. split; [intros g; apply encodeLong_panics; exact Hn|].
  intros g it Hwf Hc Hp. pose proof Hwf as (_ & _ & Hb & _).
  destruct (checkState_ok g it (1 + fixnumMaxBytes) Hc Hp Hb
              ltac:(unfold fixnumMaxBytes; lia))
    as (g1 & R1 & A1 & Hroom1).
  pose proof (appends_bufn _ _ _ A1) as [Hn1 _]. unfold fixnumMaxBytes in *.
  assert (forall tag (K : G unit),
            (checkState (1 + 5) ;; putByte tag ;; encodeLong n ;; K) g
            = Panic (Explicit "Shouldn't *ever* reach here")) as H.
  { intros tag K. rewrite (bind_Ok _ _ _ _ _ R1).
    destruct (putByte_ok g1 tag ltac:(zlen)) as (g2 & R2 & A2 & L2).
    rewrite (bind_Ok _ _ _ _ _ R2).
    pose proof (appends_bufn _ _ _ A2) as [Hn2 _].
    unfold bind. rewrite encodeLong_panics; [reflexivity|exact Hn|zlen|zlen]. }
  split; apply H.
Qed.

Lemma encodeLong_out_of_range_panics_witness :
  StartArray (2 ^ 32) fresh = Panic (Explicit "Shouldn't *ever* reach here").
Proof.
  apply (encodeLong_out_of_range_panics (2 ^ 32) ltac:(lia)) with
    (it := GenStateItem 1 0 genStTop);
    [exact fresh_wf|reflexivity|discriminate].
Defined.

(** X3. [Bignum] of [b], on a generator that accepts a value, writes the tag
    'l', the sign '-' for a negative [b] and '+' otherwise, the packed long
    of half the number of payload bytes, and the payload: the bytes of [|b|]
    in little-endian order without a leading zero byte, followed by one zero
    byte when their number is odd. *)
Theorem Bignum_writes_sign_count_payload b g it :
  wf g -> cur (st g) = Some it -> pos it <> cnt it -> len (Bits b) < 2 ^ 28 ->
  exists g' core,
    Bignum b g = Ok tt g' /\
    min_le_bytes core (Z.abs b) /\
    len (core ++ even_pad core) mod 2 = 0 /\
    wrote_value g g' it
      (TYPE_BIGNUM :: (if decide (b < 0) then 45 else 43) ::
       packed_long (len (core ++ even_pad core) / 2) ++ core ++ even_pad core).
Proof.
  intros Hwf Hc Hp Hb.
  destruct (Bignum_ok b g it Hwf Hc Hp Hb) as (g' & R & Hv & _).
  destruct (bignum_payload_spec b) as (core & Hmin & Epay & Heven).
  exists g', core. split; [exact R|]. split; [exact Hmin|].
  rewrite <- Epay. split; [exact Heven|exact Hv].
Qed.

Lemma Bignum_writes_sign_count_payload_witness :
  exists g',
    Bignum (- 244838016401135) fresh = Ok tt g' /\
    emitted g' = [4; 8; 108; 45; 8; 239; 190; 254; 202; 173; 222] /\
    w g' = emitted g'.
Proof.
  destruct (Bignum_writes_sign_count_payload (- 244838016401135) fresh
              (GenStateItem 1 0 genStTop) fresh_wf eq_refl
              ltac:(discriminate) ltac:(vm_compute; reflexivity))
    as (g' & core & R & _).
  exists g'. split; [exact R|].
  revert R. vm_compute. intros [= <-]. split; reflexivity.
Defined.

(** X4. [Fixnum] of an int64 [n], on a generator that accepts a value, writes
    the tag 'i' and the packed long of [n] when [-2^31 <= n < 2^31], and the
    bignum form of [n] otherwise. *)
Theorem Fixnum_writes_fixnum_or_bignum n g it :
  wf g -> cur (st g) = Some it -> pos it <> cnt it ->
  - 2 ^ 63 <= n < 2 ^ 63 ->
  exists g',
    Fixnum n g = Ok tt g' /\
    wrote_value g g' it
      (if decide (- 2 ^ 31 <= n < 2 ^ 31) then TYPE_FIXNUM :: packed_long n
       else bignum_wire n).
Proof.
  intros Hwf Hc Hp Hn. destruct (decide (- 2 ^ 31 <= n < 2 ^ 31)) as [Hin|Hout].
  - destruct (Fixnum_in_range_ok n g it Hwf Hc Hp) as (g' & R & Hv & _).
    { unfold fixnumMin, fixnumMax. lia. }
    exists g'. split; assumption.
  - rewrite Fixnum_out_of_range by (unfold fixnumMin, fixnumMax; lia).
    destruct (Bignum_ok n g it Hwf Hc Hp (Bits_int64 n Hn)) as (g' & R & Hv & _).
    exists g'. split; assumption.
Qed.

Lemma Fixnum_writes_fixnum_or_bignum_witness :
  exists g',
    Fixnum (2 ^ 31) fresh = Ok tt g' /\
    emitted g' = [4; 8] ++ [108; 43; 7; 0; 0; 0; 128].
Proof.
  destruct (Fixnum_writes_fixnum_or_bignum (2 ^ 31) fresh
              (GenStateItem 1 0 genStTop) fresh_wf eq_refl
              ltac:(discriminate) ltac:(lia))
    as (g' & R & Hem & _).
  exists g'. split; [exact R|]. rewrite Hem. vm_compute. reflexivity.
Defined.

(** X5. [String], [Class] and [Module] of a string of fewer than [2^32]
    bytes, on a generator that accepts a value, write their tag (0x22, 'c',
    'm'), the packed long of the number of bytes and the bytes, count one
    value in the current frame and leave the symbol table alone. *)
Theorem String_Class_Module_write_tag_length_bytes s g it :
  wf g -> cur (st g) = Some it -> pos it <> cnt it ->
  len (str_bytes s) < 2 ^ 32 ->
  (exists g', String s g = Ok tt g' /\
     wrote_value g g' it
       (TYPE_STRING :: packed_long (len (str_bytes s)) ++ str_bytes s) /\
     symbols g' = symbols g) /\
  (exists g', Class s g = Ok tt g' /\
     wrote_value g g' it
       (TYPE_CLASS :: packed_long (len (str_bytes s)) ++ str_bytes s) /\
     symbols g' = symbols g) /\
  (exists g', Module' s g = Ok tt g' /\
     wrote_value g g' it
       (TYPE_MODULE :: packed_long (len (str_bytes s)) ++ str_bytes s) /\
     symbols g' = symbols g).
Proof.
  intros Hwf Hc Hp Hl.
  split; [exact (String_ok s g it Hwf Hc Hp Hl)|].
  split; [exact (Class_ok s g it Hwf Hc Hp Hl)|exact (Module_ok s g it Hwf Hc Hp Hl)].
Qed.

Lemma String_Class_Module_write_tag_length_bytes_witness :
  exists g',
    String "hi" fresh = Ok tt g' /\ emitted g' = [4; 8] ++ [34; 7; 104; 105].
Proof.
  destruct (String_Class_Module_write_tag_length_bytes "hi"%string fresh
              (GenStateItem 1 0 genStTop) fresh_wf eq_refl
              ltac:(discriminate) ltac:(vm_compute; reflexivity))
    as ((g' & R & (Hem & _) & _) & _).
  exists g'. split; [exact R|]. rewrite Hem. vm_compute. reflexivity.
Defined.

(** X6. [Float], for a text of the number of at most 30 bytes, writes the tag
    'f', one byte for the length and the text: the length is encoded after
    the text is in the buffer, one byte behind the tag, without moving it. *)
Theorem Float_writes_tag_length_text txt g it :
  wf g -> cur (st g) = Some it -> pos it <> cnt it -> len txt <= 30 ->
  exists g',
    Float txt g = Ok tt g' /\
    wrote_value g g' it
      (TYPE_FLOAT :: (if decide (len txt = 0) then 0 else len txt + 5) :: txt).
Proof.
  intros Hwf Hc Hp Hl.
  destruct (Float_ok txt g it Hwf Hc Hp Hl) as (g' & R & Hv & _).
  exists g'. split; [exact R|].
  rewrite packed_long_small in Hv by zlen. exact Hv.
Qed.

Lemma Float_writes_tag_length_text_witness :
  exists g',
    Float [49; 50; 51; 46; 51; 51] fresh = Ok tt g' /\
    emitted g' = [4; 8] ++ [102; 11; 49; 50; 51; 46; 51; 51].
Proof.
  destruct (Float_writes_tag_length_text [49; 50; 51; 46; 51; 51] fresh
              (GenStateItem 1 0 genStTop) fresh_wf eq_refl
              ltac:(discriminate) ltac:(vm_compute; discriminate))
    as (g' & R & Hem & _).
  exists g'. split; [exact R|]. rewrite Hem. vm_compute. reflexivity.
Defined.

(** X7. [StartArray] and [StartHash] of a length [l] with
    [-2^32 <= l < 2^32], on a generator that accepts a value, write the tag
    and the packed long of [l], pass nothing to the sink, and push a frame at
    position 0 that counts [l] values for an array and [2 * l] for a hash;
    the frame below is not advanced until the matching End call. *)
Theorem StartArray_StartHash_push_frame l g it :
  wf g -> cur (st g) = Some it -> pos it <> cnt it ->
  - 2 ^ 32 <= l < 2 ^ 32 ->
  (exists g',
     StartArray l g = Ok tt g' /\
     emitted g' = emitted g ++ TYPE_ARRAY :: packed_long l /\ w g' = w g /\
     sz (st g') = sz (st g) + 1 /\
     cur (st g') = Some (GenStateItem l 0 genStArr) /\
     index (stack (st g')) (sz (st g) - 1) = Some it /\ wf g') /\
  (exists g',
     StartHash l g = Ok tt g' /\
     emitted g' = emitted g ++ TYPE_HASH :: packed_long l /\ w g' = w g /\
     sz (st g') = sz (st g) + 1 /\
     cur (st g') = Some (GenStateItem (l * 2) 0 genStHash) /\
     index (stack (st g')) (sz (st g) - 1) = Some it /\ wf g').
Proof.
  intros Hwf Hc Hp Hl.
  assert (Hi : index (stack (st g)) (sz (st g) - 1) = Some it).
  { rewrite <- cur_index; [exact Hc|destruct Hwf; lia]. }
  split.
  - destruct (StartArray_ok l g it Hwf Hc Hp Hl)
      as (g' & R & Hem & Hw & _ & _ & Hsz & Hc' & Hf & Hwf').
    exists g'. repeat (split; [assumption|]).
    split; [|exact Hwf']. rewrite Hf; [exact Hi|destruct Hwf; lia].
  - destruct (StartHash_ok l g it Hwf Hc Hp Hl)
      as (g' & R & Hem & Hw & _ & _ & Hsz & Hc' & Hf & Hwf').
    exists g'. repeat (split; [assumption|]).
    split; [|exact Hwf']. rewrite Hf; [exact Hi|destruct Hwf; lia].
Qed.

Lemma StartArray_StartHash_push_frame_witness :
  exists g',
    StartHash 2 fresh = Ok tt g' /\
    cur (st g') = Some (GenStateItem 4 0 genStHash).
Proof.
  destruct (StartArray_StartHash_push_frame 2 fresh
              (GenStateItem 1 0 genStTop) fresh_wf eq_refl
              ltac:(discriminate) ltac:(lia))
    as (_ & g' & R & _ & _ & _ & Hc & _).
  exists g'. split; [exact R|exact Hc].
Defined.

(** X8. The calls for a whole value (scalars, arrays and hashes, nested to
    any depth), made on a generator that accepts a value, all succeed: they
    append the wire form of the value, with symbols numbered on from the
    table of the generator, leave the depth of the stack and the frames below
    the current one as they were, advance the current frame by exactly one,
    and inside a container pass nothing to the sink. *)
Theorem write_value_fills_one_slot grow v g it :
  0 < grow -> value_ok v ->
  wf g -> cur (st g) = Some it -> pos it <> cnt it ->
  symCount g + leaves v < 2 ^ 32 ->
  exists g',
    write_value grow v g = Ok tt g' /\
    emitted g' = emitted g ++ fst (value_wire (symbols g) v) /\
    symbols g' = snd (value_wire (symbols g) v) /\
    sz (st g') = sz (st g) /\
    cur (st g') = Some (GenStateItem (cnt it) (pos it + 1) (typ it)) /\
    (forall i, 0 <= i < sz (st g) - 1 ->
               index (stack (st g')) i = index (stack (st g)) i) /\
    (sz (st g) <> 1 -> w g' = w g) /\
    wf g'.
Proof.
  intros Hg Hok Hwf Hc Hp Hn.
  destruct (write_value_ok grow Hg v Hok g it Hwf Hc Hp Hn)
    as (g' & R & (Hem & (Hsz & Hc' & Hf) & _ & Hk & Hwf') & Hsym & _).
  exists g'. repeat (split; [assumption|]). exact Hwf'.
Qed.

Lemma write_value_fills_one_slot_witness :
  exists g',
    write_value 8 sample in_array = Ok tt g' /\
    cur (st g') = Some (GenStateItem 2 1 genStArr) /\ w g' = [].
Proof.
  destruct (write_value_fills_one_slot 8 sample in_array
              (GenStateItem 2 0 genStArr) ltac:(lia) sample_ok
              in_array_wf eq_refl
              ltac:(discriminate) ltac:(vm_compute; reflexivity))
    as (g' & R & _ & _ & _ & Hc & _ & Hk & _).
  exists g'. split; [exact R|]. split; [exact Hc|].
  apply Hk. discriminate.
Defined.

(** X9. The calls for a whole value on a new generator pass to the sink the
    magic 04 08 and the wire form of the value, in one write when the value
    is complete. *)
Theorem value_stream grow v :
  0 < grow -> value_ok v -> leaves v < 2 ^ 32 ->
  sink (and_then NewGenerator (write_value grow v))
  = Some ([4; 8] ++ fst (value_wire [] v)).
Proof.
  intros Hg Hok Hn.
  destruct NewGenerator_ok as (g & R & Hwf & Hc & Hsz & Hem & Hw & Hsc).
  rewrite R. cbn [and_then].
  destruct (write_value_ok grow Hg v Hok g _ Hwf Hc ltac:(discriminate)
              ltac:(lia))
    as (g' & R' & (Hem' & _ & Hfl & _) & _).
  rewrite R'. cbn [sink].
  rewrite (Hfl eq_refl Hsz), Hem', Hem, (symbols_empty g Hsc). reflexivity.
Qed.

Lemma value_stream_witness :
  sink (and_then NewGenerator (write_value 8 sample))
  = Some [4; 8; 91; 8; 105; 2; 44; 1; 123; 7; 58; 6; 97; 34; 7; 104; 105;
          59; 0; 48; 91; 0].
Proof.
  rewrite (value_stream 8 sample ltac:(lia) sample_ok
             ltac:(vm_compute; reflexivity)).
  vm_compute. reflexivity.
Defined.

(** X10. [Reset], in whatever state the generator is (its buffer has the two
    bytes of the magic), starts a new stream: the bytes that were buffered
    and not yet passed to the sink are dropped, the symbol table is empty
    again, and the calls for a value that follow add the magic and the wire
    form of the value to what the sink had received. *)
Theorem Reset_starts_new_stream grow v g :
  0 < grow -> value_ok v -> leaves v < 2 ^ 32 -> 2 <= len (buf g) ->
  sink (and_then (Reset g) (write_value grow v))
  = Some (w g ++ [4; 8] ++ fst (value_wire [] v)).
Proof.
  intros Hg Hok Hn Hb.
  destruct (Reset_ok g Hb) as (g1 & R & Hwf & Hc & Hsz & Hw & Hem & Hsc).
  rewrite R. cbn [and_then].
  destruct (write_value_ok grow Hg v Hok g1 _ Hwf Hc ltac:(discriminate)
              ltac:(lia))
    as (g' & R' & (Hem' & _ & Hfl & _) & _).
  rewrite R'. cbn [sink].
  rewrite (Hfl eq_refl Hsz), Hem', Hem, (symbols_empty g1 Hsc), <- app_assoc.
  reflexivity.
Qed.

Lemma Reset_starts_new_stream_witness :
  emitted in_array = [4; 8; 91; 7] /\
  sink (and_then (Reset in_array) (write_value 8 (Leaf CNil)))
  = Some [4; 8; 48].
Proof.
  split; [vm_compute; reflexivity|].
  rewrite (Reset_starts_new_stream 8 (Leaf CNil) in_array ltac:(lia)
             ltac:(apply Leaf_ok; exact I) ltac:(vm_compute; reflexivity)
             ltac:(vm_compute; discriminate)).
  vm_compute. reflexivity.
Defined.

End generator_extras.

(** ** The packed long on the wire *)

Module wire_proofs.
Import generator_proofs generator_values.

Lemma le_bytes_range k : forall n, Forall (fun x => 0 <= x < 256) (le_bytes k n).
Proof.
  induction k as [|k IH]; intros n; cbn [le_bytes]; constructor;
    [apply byte_range|apply IH].
Qed.

Lemma le_value_le_bytes k : forall n, le_value (le_bytes k n) = n mod 256 ^ Z.of_nat k.
Proof.
  induction k as [|k IH]; intros n.
  - cbn [le_bytes le_value]. change (256 ^ Z.of_nat 0) with 1.
    rewrite Z.mod_1_r. reflexivity.
  - cbn [le_bytes le_value]. rewrite IH, shiftr8. unfold byte.
    rewrite Nat2Z.inj_succ, Z.pow_succ_r by lia.
    rewrite Z.rem_mul_r by lia. reflexivity.
Qed.

Lemma payload_len_range n :
  - 2 ^ 32 <= n < 2 ^ 32 ->
  - 256 ^ Z.of_nat (payload_len n) <= n < 256 ^ Z.of_nat (payload_len n).
Proof.
  intros H. unfold payload_len.
  repeat destruct (decide _); cbn [Z.of_nat Pos.of_succ_nat Pos.succ]; lia.
Qed.

(** Bits. *)
Lemma lor_shiftl_add n x k :
  0 <= k -> 0 <= n < 2 ^ k -> Z.lor n (Z.shiftl x k) = n + x * 2 ^ k.
Proof.
  intros Hk Hn. rewrite Z.shiftl_mul_pow2 by exact Hk.
  rewrite <- Z.lxor_lor, <- Z.add_nocarry_lxor; try reflexivity.
  all: apply Z.bits_inj'; intros j Hj; rewrite Z.land_spec, Z.bits_0.
  all: destruct (decide (j < k)) as [Hlt|Hge].
  all: try (rewrite Z.mul_pow2_bits_low by lia; apply andb_false_r).
  all: rewrite <- (Z.mod_small n (2 ^ k)) by lia.
  all: rewrite Z.mod_pow2_bits_high by lia; reflexivity.
Qed.

Lemma land_lnot_clear lo k :
  0 <= k -> 0 <= lo < 2 ^ k ->
  Z.land (lo - 2 ^ k) (Z.lnot (Z.shiftl 255 k)) = lo - 2 ^ (k + 8).
Proof.
  intros Hk Hlo.
  assert (E : lo - 2 ^ (k + 8) = Z.lor lo (Z.shiftl (-1) (k + 8))).
  { rewrite Z.shiftl_mul_pow2 by lia.
    pose proof (lor_shiftl_add lo (-1) (k + 8) ltac:(lia)) as L.
    rewrite Z.shiftl_mul_pow2 in L by lia. rewrite L; [lia|].
    rewrite Z.pow_add_r by lia. nia. }
  assert (E0 : lo - 2 ^ k = Z.lor lo (Z.shiftl (-1) k)).
  { rewrite lor_shiftl_add by lia. lia. }
  rewrite E, E0. apply Z.bits_inj'. intros j Hj.
  rewrite Z.land_spec, !Z.lor_spec, Z.lnot_spec by lia.
  destruct (decide (j < k)) as [H1|H1].
  - rewrite !Z.shiftl_spec_low by lia. cbn [orb negb]. rewrite !orb_false_r.
    apply andb_true_r.
  - rewrite (Z.shiftl_spec (-1) k) by lia. rewrite Z.bits_m1 by lia.
    rewrite <- (Z.mod_small lo (2 ^ k)) by lia.
    rewrite Z.mod_pow2_bits_high by lia. cbn [orb andb].
    destruct (decide (j < k + 8)) as [H2|H2].
    + rewrite (Z.shiftl_spec_low (-1) (k + 8)) by lia.
      rewrite (Z.shiftl_spec 255 k) by lia.
      change 255 with (Z.ones 8). rewrite Z.ones_spec_low by lia. reflexivity.
    + rewrite (Z.shiftl_spec (-1) (k + 8)) by lia.
      rewrite (Z.shiftl_spec 255 k) by lia. rewrite Z.bits_m1 by lia.
      change 255 with (Z.ones 8). rewrite Z.ones_spec_high by lia. reflexivity.
Qed.

Lemma shl64_small x s :
  0 <= s -> 0 <= x -> x * 2 ^ s < 2 ^ 63 -> shl64 x s = x * 2 ^ s.
Proof.
  intros Hs Hx Hb. unfold shl64. rewrite Z.shiftl_mul_pow2 by exact Hs.
  apply wrap64_small. pose proof (Z.pow_pos_nonneg 2 s ltac:(lia) Hs). nia.
Qed.

Lemma pow256 k : 0 <= k -> 256 ^ k = 2 ^ (8 * k).
Proof. intros H. change 256 with (2 ^ 8). rewrite <- Z.pow_mul_r by lia. reflexivity. Qed.

(** The packed long of the format read back by the decoder of the
    format. *)
Lemma decode_packed_long_packed n rest :
  - 2 ^ 32 <= n < 2 ^ 32 ->
  decode_packed_long (packed_long n ++ rest) = Some (n, len (packed_long n)).
Proof.
  intros Hn. unfold packed_long.
  destruct (decide (n = 0)) as [->|H0]; [reflexivity|].
  destruct (decide (0 < n < 123)) as [H1|H1].
  { cbn [app decode_packed_long]. unfold int8.
    repeat (destruct (decide _); try lia). f_equal. f_equal. lia. }
  destruct (decide (-124 < n < 0)) as [H2|H2].
  { cbn [app decode_packed_long]. unfold int8.
    repeat (destruct (decide _); try lia). f_equal. f_equal. lia. }
  pose proof (payload_len_bounds n) as Hk.
  pose proof (payload_len_range n Hn) as Hr.
  pose proof (le_bytes_length (payload_len n) n) as Hl.
  set (k := payload_len n) in *.
  assert (Ht : forall m, m = Z.of_nat k ->
                         take (Z.to_nat m) (le_bytes k n ++ rest) = le_bytes k n).
  { intros m ->. rewrite Nat2Z.id, take_app_length'; [reflexivity|symmetry; exact Hl]. }
  assert (Hlen : forall c, len ((c :: le_bytes k n) ++ rest) = 1 + Z.of_nat k + len rest).
  { intros c. unfold len. cbn [app length]. rewrite length_app, Hl. lia. }
  destruct (decide (0 < n)) as [Hp|Hp].
  - cbn [app decode_packed_long].
    replace (int8 (Z.of_nat k)) with (Z.of_nat k)
      by (unfold int8; rewrite decide_True by lia; reflexivity).
    rewrite (decide_False (P := Z.of_nat k = 0)) by lia.
    rewrite (decide_False (P := 5 <= Z.of_nat k)) by lia.
    rewrite (decide_False (P := Z.of_nat k <= -5)) by lia.
    rewrite (decide_True (P := 0 < Z.of_nat k)) by lia.
    rewrite decide_False by (unfold len; rewrite length_app, Hl; lia).
    rewrite Ht by reflexivity. rewrite le_value_le_bytes.
    rewrite Z.mod_small by lia. f_equal. f_equal. unfold len. cbn [length].
    rewrite Hl. lia.
  - cbn [app decode_packed_long].
    replace (int8 (256 - Z.of_nat k)) with (- Z.of_nat k)
      by (unfold int8; rewrite decide_False by lia; lia).
    rewrite (decide_False (P := - Z.of_nat k = 0)) by lia.
    rewrite (decide_False (P := 5 <= - Z.of_nat k)) by lia.
    rewrite (decide_False (P := - Z.of_nat k <= -5)) by lia.
    rewrite (decide_False (P := 0 < - Z.of_nat k)) by lia.
    rewrite decide_False by (unfold len; rewrite length_app, Hl; lia).
    rewrite Ht by lia. rewrite le_value_le_bytes.
    replace (- - Z.of_nat k) with (Z.of_nat k) by lia.
    assert (Em : n mod 256 ^ Z.of_nat k = n + 256 ^ Z.of_nat k).
    { symmetry. apply (Z.mod_unique _ _ (-1)); lia. }
    rewrite Em. f_equal. f_equal; [lia|]. unfold len. cbn [length].
    rewrite Hl. lia.
Qed.

End wire_proofs.

(** ** The decoder *)

Module decoder_proofs.
Import generator_proofs generator_values wire_proofs.

Lemma set_each_spec raw : forall i dst,
  0 <= i -> i + len raw <= len dst ->
  decoder.set_each i raw dst = Some (splice dst (Z.to_nat i) raw).
Proof.
  induction raw as [|v raw IH]; intros i dst Hi Hl.
  - cbn [decoder.set_each]. rewrite splice_nil. reflexivity.
  - cbn [decoder.set_each]. rewrite store_Some by zlen.
    rewrite IH; [|lia|unfold len in *; rewrite length_insert; cbn [length] in Hl; lia].
    f_equal. rewrite splice_insert by zlen.
    replace (Z.to_nat (i + 1)) with (Z.to_nat i + length [v])%nat
      by (cbn [length]; lia).
    apply (splice_app dst (Z.to_nat i) [v] raw). cbn [length]. zlen.
Qed.

Lemma le_value_zeros k : le_value (replicate k 0) = 0.
Proof. induction k as [|k IH]; cbn [replicate le_value]; lia. Qed.

Lemma le_value_padded raw :
  (length raw <= 8)%nat ->
  le_value (splice (replicate 8 0) 0 raw) = le_value raw.
Proof.
  intros H. unfold splice. rewrite take_0. cbn [app].
  rewrite le_value_app, drop_replicate, le_value_zeros. lia.
Qed.

Lemma lor_neg_byte lo v k :
  0 <= k -> 0 <= lo < 2 ^ k -> 0 <= v < 256 ->
  Z.lor (lo - 2 ^ (k + 8)) (Z.shiftl v k) = lo + v * 2 ^ k - 2 ^ (k + 8).
Proof.
  intros Hk Hlo Hv.
  assert (E : lo - 2 ^ (k + 8) = Z.lor lo (Z.shiftl (-1) (k + 8))).
  { rewrite lor_shiftl_add; [lia|lia|].
    rewrite Z.pow_add_r by lia.
    pose proof (Z.pow_pos_nonneg 2 k ltac:(lia) Hk). nia. }
  rewrite E, <- Z.lor_assoc, (Z.lor_comm (Z.shiftl (-1) (k + 8))), Z.lor_assoc.
  rewrite (lor_shiftl_add lo v k) by lia.
  rewrite lor_shiftl_add; [lia|lia|].
  rewrite Z.pow_add_r by lia.
  pose proof (Z.pow_pos_nonneg 2 k ltac:(lia) Hk). nia.
Qed.

Lemma neg_each_spec raw : forall i lo,
  bytes_ok raw -> 0 <= i -> 0 <= lo < 2 ^ (8 * i) ->
  8 * (i + len raw) <= 56 ->
  decoder.neg_each i raw (lo - 2 ^ (8 * i))
  = lo + 2 ^ (8 * i) * le_value raw - 2 ^ (8 * (i + len raw)).
Proof.
  induction raw as [|v raw IH]; intros i lo Hok Hi Hlo Hb.
  - cbn [decoder.neg_each le_value]. change (len []) with 0.
    rewrite Z.add_0_r. lia.
  - apply Forall_cons in Hok as [Hv Hok].
    assert (Hlen : len (v :: raw) = 1 + len raw) by zlen.
    assert (Hp : 0 < 2 ^ (8 * i)) by (apply Z.pow_pos_nonneg; lia).
    assert (Hp56 : 2 ^ (8 * i + 8) <= 2 ^ 56)
      by (apply Z.pow_le_mono_r; [lia|]; assert (0 <= len raw) by zlen; lia).
    assert (E8 : 2 ^ (8 * i + 8) = 256 * 2 ^ (8 * i))
      by (rewrite Z.pow_add_r by lia; lia).
    cbn [decoder.neg_each le_value].
    rewrite !shl64_small by (try lia; change (2 ^ 63) with (128 * 2 ^ 56); nia).
    rewrite <- !Z.shiftl_mul_pow2 by lia.
    rewrite land_lnot_clear by lia.
    rewrite lor_neg_byte by lia.
    replace (lo + v * 2 ^ (8 * i) - 2 ^ (8 * i + 8))
      with ((lo + v * 2 ^ (8 * i)) - 2 ^ (8 * (i + 1)))
      by (f_equal; f_equal; lia).
    rewrite IH; [|exact Hok|lia| |rewrite Hlen in Hb; lia].
    + rewrite Hlen. replace (8 * (i + 1)) with (8 * i + 8) by lia.
      replace (i + 1 + len raw) with (i + (1 + len raw)) by lia. rewrite E8. lia.
    + replace (8 * (i + 1)) with (8 * i + 8) by lia. rewrite E8. nia.
Qed.

Lemma int8_range b : 0 <= b < 256 -> -128 <= int8 b < 128.
Proof. intros H. unfold int8. destruct (decide _); lia. Qed.

Lemma take_bytes_ok k (l : list Z) : bytes_ok l -> bytes_ok (take k l).
Proof. apply Forall_take. Qed.

(** [long] against the decoder of the format. *)
Lemma long_refines bs off0 :
  bytes_ok bs -> 0 <= off0 < 2 ^ 62 ->
  decoder.long (decoder.mkDecoder bs off0)
  = match decode_packed_long bs with
    | Some (n, k) => Ok n (decoder.mkDecoder (drop (Z.to_nat k) bs) (off0 + k))
    | None => decoder.short_read bs off0
    end.
Proof.
  intros Hok Hoff. destruct bs as [|b rest]; [reflexivity|].
  apply Forall_cons in Hok as [Hb Hok].
  pose proof (int8_range b Hb) as Hc.
  cbn [decode_packed_long]. unfold decoder.long.
  unfold bind at 1. unfold decoder.byte at 1. cbn [decoder.r decoder.off].
  rewrite wrap64_small by lia.
  set (c := int8 b) in *.
  destruct (decide (c = 0)) as [E0|N0].
  { unfold ret. reflexivity. }
  destruct (decide (5 <= c)) as [H5|H5].
  { rewrite decide_True by lia. rewrite decide_True by lia. reflexivity. }
  destruct (decide (c <= -5)) as [Hm5|Hm5].
  { rewrite decide_False by lia. rewrite decide_True by lia. reflexivity. }
  destruct (decide (0 < c)) as [Hp|Hp].
  - rewrite (decide_True (P := c > 0)) by lia.
    rewrite (decide_False (P := 4 < c /\ c < 128)) by lia.
    unfold bind at 1. unfold decoder.bytes, make.
    rewrite (decide_True (P := 0 <= c)) by lia.
    cbn [decoder.r decoder.off].
    destruct (decide (len rest < c)) as [Hs|Hs].
    + rewrite (decide_False (P := c <= len rest)) by lia.
      destruct rest as [|b1 rest]; [reflexivity|].
      rewrite decide_False by zlen. reflexivity.
    + rewrite (decide_True (P := c <= len rest)) by lia.
      assert (Hl : length (take (Z.to_nat c) rest) = Z.to_nat c)
        by (rewrite length_take; zlen).
      rewrite set_each_spec; [|lia|unfold len; rewrite Hl, length_replicate; lia].
      change (Z.to_nat 0) with 0%nat.
      rewrite le_value_padded by lia.
      pose proof (le_value_nonneg _ (take_bytes_ok (Z.to_nat c) rest Hok)) as Hv.
      unfold len in Hv. rewrite Hl, Z2Nat.id in Hv by lia.
      assert (256 ^ c <= 256 ^ 4) by (apply Z.pow_le_mono_r; lia).
      rewrite wrap64_small by lia. rewrite wrap64_small by lia.
      unfold ret. f_equal. f_equal; [|lia].
      replace (Z.to_nat (1 + c)) with (S (Z.to_nat c)) by lia. reflexivity.
  - rewrite (decide_False (P := c > 0)) by lia.
    rewrite (decide_False (P := -129 < c /\ c < -4)) by lia.
    unfold bind at 1. unfold decoder.bytes, make.
    rewrite (decide_True (P := 0 <= - c)) by lia.
    cbn [decoder.r decoder.off].
    destruct (decide (len rest < - c)) as [Hs|Hs].
    + rewrite (decide_False (P := - c <= len rest)) by lia.
      destruct rest as [|b1 rest]; [reflexivity|].
      rewrite decide_False by zlen. reflexivity.
    + rewrite (decide_True (P := - c <= len rest)) by lia.
      assert (Hl : length (take (Z.to_nat (- c)) rest) = Z.to_nat (- c))
        by (rewrite length_take; zlen).
      pose proof (neg_each_spec (take (Z.to_nat (- c)) rest) 0 0
                    (take_bytes_ok _ rest Hok) ltac:(lia) ltac:(simpl; lia)) as E.
      unfold len in E. rewrite Hl, Z2Nat.id in E by lia.
      change (0 - 2 ^ (8 * 0)) with (-1) in E.
      rewrite E by lia. rewrite wrap64_small by lia.
      unfold ret. f_equal.
      * change (2 ^ (8 * 0)) with 1. rewrite pow256 by lia.
        replace (8 * (0 + - c)) with (8 * - c) by lia. lia.
      * f_equal; [|lia].
        replace (Z.to_nat (1 - c)) with (S (Z.to_nat (- c))) by lia. reflexivity.
Qed.

End decoder_proofs.

Module decoder_extras.
Import generator_proofs generator_values wire_proofs decoder_proofs.

Lemma packed_long_bytes_ok n :
  - 2 ^ 32 <= n < 2 ^ 32 -> bytes_ok (packed_long n).
Proof.
  intros Hn. pose proof (payload_len_bounds n) as Hk.
  unfold packed_long, bytes_ok.
  repeat destruct (decide _); repeat constructor; try lia;
    apply le_bytes_range.
Qed.

Lemma str_bytes_ok s : bytes_ok (str_bytes s).
Proof.
  unfold bytes_ok, str_bytes. apply Forall_map, Forall_forall. intros a _.
  cbn beta. pose proof (N_ascii_bounded a). lia.
Qed.

Lemma long_packed n rest off0 :
  - 2 ^ 32 <= n < 2 ^ 32 -> bytes_ok rest -> 0 <= off0 < 2 ^ 62 ->
  decoder.long (decoder.mkDecoder (packed_long n ++ rest) off0)
  = Ok n (decoder.mkDecoder rest (off0 + len (packed_long n))).
Proof.
  intros Hn Hrest Hoff.
  rewrite long_refines;
    [|apply Forall_app; split; [apply packed_long_bytes_ok; exact Hn|exact Hrest]
     |exact Hoff].
  rewrite decode_packed_long_packed by exact Hn.
  unfold len. rewrite Nat2Z.id, drop_app_length. reflexivity.
Qed.

(** X11. On every input of bytes, [Decoder.long] is the reader of packed
    longs of the format: it returns the value the format gives the bytes,
    leaves the reader behind the form and adds its length to the offset; when
    the input ends inside the form it returns the wrapped error of the
    reader, [io.EOF] when no byte of the part being read was there and
    [io.ErrUnexpectedEOF] when some were. *)
Theorem long_reads_the_packed_long bs off0 :
  bytes_ok bs -> 0 <= off0 < 2 ^ 62 ->
  decoder.long (decoder.mkDecoder bs off0)
  = match decode_packed_long bs with
    | Some (n, k) => Ok n (decoder.mkDecoder (drop (Z.to_nat k) bs) (off0 + k))
    | None => decoder.short_read bs off0
    end.
Proof. exact (long_refines bs off0). Qed.

Lemma long_reads_the_packed_long_witness :
  decoder.long (decoder.mkDecoder [254; 83; 33; 48] 0)
  = Ok (-57005) (decoder.mkDecoder [48] 3) /\
  decoder.long (decoder.mkDecoder [2; 173] 0)
  = Err (Wrap ErrUnexpectedEOF "Error while reading number")
        (decoder.mkDecoder [] 1).
Proof.
  split.
  - rewrite (long_reads_the_packed_long [254; 83; 33; 48] 0);
      [reflexivity|repeat constructor; lia|lia].
  - rewrite (long_reads_the_packed_long [2; 173] 0);
      [reflexivity|repeat constructor; lia|lia].
Defined.

(** X12. What [Generator.encodeLong] writes for [n], [-2^32 <= n < 2^32],
    [Decoder.long] reads back as [n], whatever bytes follow, and stops right
    behind it. *)
Theorem encodeLong_long_round_trip n g :
  - 2 ^ 32 <= n < 2 ^ 32 -> 0 <= generator.bufn g ->
  generator.bufn g + 5 <= len (generator.buf g) ->
  exists g' bs,
    generator.encodeLong n g = Ok tt g' /\ generator.appends g g' bs /\
    forall rest off0,
      bytes_ok rest -> 0 <= off0 < 2 ^ 62 ->
      decoder.long (decoder.mkDecoder (bs ++ rest) off0)
      = Ok n (decoder.mkDecoder rest (off0 + len bs)).
Proof.
  intros Hn Hb Hr. destruct (encodeLong_ok n g Hn Hb Hr) as (g' & R & A & _).
  exists g', (packed_long n). split; [exact R|]. split; [exact A|].
  intros rest off0 Hrest Hoff. apply long_packed; assumption.
Qed.

Lemma encodeLong_long_round_trip_witness :
  exists g' bs,
    generator.encodeLong (- 2 ^ 32) generator.fresh = Ok tt g' /\
    generator.appends generator.fresh g' bs /\
    decoder.long (decoder.mkDecoder (bs ++ [7]) 2)
    = Ok (- 2 ^ 32) (decoder.mkDecoder [7] (2 + len bs)).
Proof.
  destruct (encodeLong_long_round_trip (- 2 ^ 32) generator.fresh)
    as (g' & bs & R & A & L);
    [lia|vm_compute; discriminate|vm_compute; discriminate|].
  exists g', bs. split; [exact R|]. split; [exact A|].
  apply L; [repeat constructor; lia|lia].
Defined.

(** X13. [Decoder.rawstr] reads back the length and the bytes that the
    generator writes behind the tag of a string, a symbol, a class or a
    module, and stops right behind them. *)
Theorem rawstr_reads_the_blob bs rest off0 :
  bytes_ok bs -> bytes_ok rest -> len bs < 2 ^ 32 -> 0 <= off0 < 2 ^ 61 ->
  decoder.rawstr
    (decoder.mkDecoder (packed_long (len bs) ++ bs ++ rest) off0)
  = Ok bs (decoder.mkDecoder rest (off0 + len (packed_long (len bs)) + len bs)).
Proof.
  intros Hbs Hrest Hl Hoff. unfold decoder.rawstr.
  assert (H0 : 0 <= len bs) by zlen.
  pose proof (packed_long_length (len bs)) as Hpl.
  rewrite (bind_Ok _ _ _ _ _
             (long_packed (len bs) (bs ++ rest) off0 ltac:(lia)
                ltac:(apply Forall_app; split; assumption) ltac:(lia))).
  unfold decoder.bytes, make. rewrite decide_True by lia.
  cbn [decoder.r decoder.off].
  rewrite decide_True by (unfold len; rewrite length_app; lia).
  unfold len at 1 2. rewrite Nat2Z.id, take_app_length, drop_app_length.
  rewrite wrap64_small by zlen. reflexivity.
Qed.

Lemma rawstr_reads_the_blob_witness :
  decoder.rawstr (decoder.mkDecoder [7; 104; 105; 48] 3)
  = Ok [104; 105] (decoder.mkDecoder [48] 6).
Proof.
  exact (rawstr_reads_the_blob [104; 105] [48] 3
           ltac:(repeat constructor; lia) ltac:(repeat constructor; lia)
           ltac:(vm_compute; reflexivity) ltac:(lia)).
Defined.

(** X14. [Decoder.rawstr] panics on a negative length: the packed long of a
    negative [n] is read as [n] and passed to [make]. *)
Theorem rawstr_negative_length_panics n rest off0 :
  - 2 ^ 32 <= n < 0 -> bytes_ok rest -> 0 <= off0 < 2 ^ 62 ->
  decoder.rawstr (decoder.mkDecoder (packed_long n ++ rest) off0)
  = Panic NegativeLen.
Proof.
  intros Hn Hrest Hoff. unfold decoder.rawstr.
  rewrite (bind_Ok _ _ _ _ _
             (long_packed n rest off0 ltac:(lia) Hrest Hoff)).
  unfold decoder.bytes, make. rewrite decide_False by lia. reflexivity.
Qed.

Lemma rawstr_negative_length_panics_witness :
  decoder.rawstr (decoder.mkDecoder [250] 3) = Panic NegativeLen.
Proof.
  exact (rawstr_negative_length_panics (-1) [] 3 ltac:(lia)
           ltac:(constructor) ltac:(lia)).
Defined.

End decoder_extras.

(** ** Literal streams of the generator *)

Module generator_streams.
Import generator.

(** C9. A generator that was just built, or reset, writes the magic 04 08
    ahead of the value: [Fixnum] of 0, 1, 122, -1, 0xDEAD and -0xDEAD gives
    the streams 04 08 69 00, 04 08 69 06, 04 08 69 7F, 04 08 69 FA,
    04 08 69 02 AD DE and 04 08 69 FE 53 21. *)
Theorem Fixnum_literal_streams :
  sink (and_then NewGenerator (Fixnum 0)) = Some [4; 8; 105; 0] /\
  sink (and_then NewGenerator (Fixnum 1)) = Some [4; 8; 105; 6] /\
  sink (and_then NewGenerator (Fixnum 122)) = Some [4; 8; 105; 127] /\
  sink (and_then NewGenerator (Fixnum (-1))) = Some [4; 8; 105; 250] /\
  sink (and_then NewGenerator (Fixnum 57005)) = Some [4; 8; 105; 2; 173; 222] /\
  sink (and_then NewGenerator (Fixnum (-57005)))
    = Some [4; 8; 105; 254; 83; 33] /\
  sink (and_then (and_then (and_then NewGenerator (Fixnum 0)) Reset)
                 (Fixnum (-57005)))
    = Some ([4; 8; 105; 0] ++ [4; 8; 105; 254; 83; 33]).
Proof. repeat apply conj; vm_compute; reflexivity. Qed.

End generator_streams.

(** ** Streams on which the parser leaves its contract *)

Module parser_streams.
Import parser.

(** The array [["a"]]: 04 08 5B 06 22 06 61. *)
Definition array_of_string : list Z := [4; 8; 91; 6; 34; 6; 97].

(** C3, on the stream of [["a"]]: the array is registered in the link table,
    the string is not. While the String token is current the table still has
    one entry and [LinkId] answers -1. *)
Theorem string_is_not_registered :
  exists p,
    Nexts 2 (NewParser array_of_string)
      = ([(TokenStartArray, None); (TokenString, None)], Some p) /\
    cur p = TokenString /\
    len (lnkTbl p) = 1 /\
    LinkId p = -1.
Proof.
  eexists. split; [vm_compute; reflexivity|].
  repeat apply conj; vm_compute; reflexivity.
Qed.

(** The string "a" with the instance variable [@a] set to the empty array:
    04 08 49 22 06 61 06 3A 07 40 61 5B 00. *)
Definition ivar_with_array : list Z :=
  [4; 8; 73; 34; 6; 97; 6; 58; 7; 64; 97; 91; 0].

(** C5, on that stream: the array of declared size 0 that is the value of the
    instance variable gets a child token (the EOF token) before its EndArray,
    and the IVar is never closed: the calls after EndArray fail. *)
Theorem ivar_value_frame_is_off_by_one :
  fst (Nexts 7 (NewParser ivar_with_array))
    = [(TokenStartIVar, None); (TokenString, None); (TokenStartArray, None);
       (TokenEOF, None); (TokenEndArray, None);
       (tokenStart,
        Some (Errorf "Unexpected token type %s while parsing IVar, expected Symbol"
                     [16]));
       (tokenStart,
        Some (Errorf "Unexpected token type %s while parsing IVar, expected Symbol"
                     [16]))].
Proof. vm_compute. reflexivity. Qed.

(** A symlink whose id is written as a packed long with the length byte 0x80
    and 128 bytes of payload, the eighth of them 0x80. *)
Definition symlink_negative_id : list Z :=
  [4; 8; 59; 128] ++ [0; 0; 0; 0; 0; 0; 0; 128] ++ replicate 120 0.

(** C10, on that stream: [long] decodes the id [-2^63], the check
    [id >= len(p.symTbl)] lets it through, and [Next] panics on
    [p.symTbl[id]]. *)
Theorem symlink_negative_id_panics :
  (exists p, (fill 3 ;; long) (NewParser symlink_negative_id)
             = Ok (- 2 ^ 63, None) p) /\
  Next (NewParser symlink_negative_id) = Panic IndexOutOfRange.
Proof.
  split.
  - eexists. vm_compute. reflexivity.
  - vm_compute. reflexivity.
Qed.

(** An array of declared size 2 with one element: 04 08 5B 07 30. *)
Definition truncated_array : list Z := [4; 8; 91; 7; 48].

(** C6 fails on the truncated array: after StartArray and Nil the reader is
    exhausted inside the unfinished array, and [Next] returns the EOF token
    without an error. *)
Lemma eof_token_inside_array :
  exists p c,
    Nexts 2 (NewParser truncated_array)
      = ([(TokenStartArray, None); (TokenNil, None)], Some p) /\
    r p = [] /\
    cst p = Some c /\ typ c = ctxArray /\ sz c = 2 /\ cpos c = 1 /\
    exists p', Next p = Ok (TokenEOF, None) p'.
Proof.
  do 2 eexists. split; [vm_compute; reflexivity|].
  repeat apply conj; try (vm_compute; reflexivity).
  eexists. vm_compute. reflexivity.
Qed.

End parser_streams.
